(** * gx: lowering of a typed Go subset to C++ text

    A shallow embedding of [gx.go] and the properties of its
    specification.  The compiler is a single pass over a program that the
    Go front end (go/parser, go/types) has already parsed and resolved; the
    pass threads one mutable [Compiler] value, modelled here by explicit
    state passing.  Go maps keyed by a pointer are finite maps keyed by the
    address of the object; [strings.Builder] values are strings. *)

From Stdlib Require Import ZArith NArith String Ascii List Bool Lia.
From Stdlib Require Import DecimalString.
From stdpp Require Import base option list gmap strings.

Local Open Scope string_scope.
Local Open Scope list_scope.
Local Open Scope Z_scope.

(** ** Semantic types (go/types)

    Every type object carries the address it lives at: the caches of the
    compiler are Go maps keyed by [types.Type] interface values, that is,
    by pointer identity, and two separately allocated types of the same
    shape are different keys. *)

Inductive BasicKind :=
| Invalid
| Bool | Int | Int8 | Int16 | Int32 | Int64
| Uint | Uint8 | Uint16 | Uint32 | Uint64 | Uintptr
| Float32 | Float64 | Complex64 | Complex128
| String_ | UnsafePointer
| UntypedBool | UntypedInt | UntypedRune | UntypedFloat
| UntypedComplex | UntypedString | UntypedNil.

#[warnings="-register-all"]
Inductive Typ :=
| Basic (addr : N) (kind : BasicKind)
| Pointer (addr : N) (elem : Typ)
| Named (addr : N) (objName : string)
        (typeParams : option (list string)) (typeArgs : option (list Typ))
| TypeParam (addr : N) (objName : string)
| Signature (addr : N)
| Array (addr : N) (elem : Typ) (len : Z)
| Slice (addr : N) (elem : Typ)
| Struct (addr : N) (fields : list N)
| OtherType (addr : N).

(** [Struct] lists the addresses of its field objects ([*types.Var]) in
    declaration order; [OtherType] stands for the remaining shapes of
    go/types (map, channel, interface, tuple, union). *)

Definition addrOf (typ : Typ) : N :=
  match typ with
  | Basic a _ | Pointer a _ | Named a _ _ _ | TypeParam a _ | Signature a
  | Array a _ _ | Slice a _ | Struct a _ | OtherType a => a
  end.

(** Induction over types that reaches the type arguments of a named type. *)
Section TypInd.
Variable P : Typ -> Prop.
Hypothesis HBasic : forall a k, P (Basic a k).
Hypothesis HPointer : forall a e, P e -> P (Pointer a e).
Hypothesis HNamed : forall a n tps targs,
    match targs with Some l => Forall P l | None => True end ->
    P (Named a n tps targs).
Hypothesis HTypeParam : forall a n, P (TypeParam a n).
Hypothesis HSignature : forall a, P (Signature a).
Hypothesis HArray : forall a e n, P e -> P (Array a e n).
Hypothesis HSlice : forall a e, P e -> P (Slice a e).
Hypothesis HStruct : forall a fs, P (Struct a fs).
Hypothesis HOther : forall a, P (OtherType a).

Fixpoint Typ_ind' (t : Typ) : P t :=
  match t with
  | Basic a k => HBasic a k
  | Pointer a e => HPointer a e (Typ_ind' e)
  | Named a n tps targs =>
      HNamed a n tps targs
        (match targs return
               match targs with Some l => Forall P l | None => True end with
         | None => I
         | Some l0 =>
             (fix go (l : list Typ) : Forall P l :=
                match l with
                | nil => @List.Forall_nil _ P
                | x :: r => @List.Forall_cons _ P x r (Typ_ind' x) (go r)
                end) l0
         end)
  | TypeParam a n => HTypeParam a n
  | Signature a => HSignature a
  | Array a e n => HArray a e n (Typ_ind' e)
  | Slice a e => HSlice a e (Typ_ind' e)
  | Struct a fs => HStruct a fs
  | OtherType a => HOther a
  end.
End TypInd.

(** ** Objects and signatures (go/types) *)

Record Var := mkVar {
  varAddr : N;
  varType : Typ;
  varPos : Z;
  varName : string
}.

(** The content of a [*types.Signature]: receiver, type parameters (by the
    names of their objects; [None] is the nil list), parameters, results. *)
Record Sig := mkSig {
  Recv : option Var;
  SigTypeParams : option (list string);
  Params : list Var;
  Results : list Var
}.

(** What an identifier resolves to ([types.Info.Defs] / [Uses]).  A variable
    or field of function type has a signature without receiver. *)
Inductive Object :=
| NoObject
| VarObject (v : Var)
| FuncObject (pkgName : string) (sig : Sig)
| OtherObject.

(** ** Syntax (go/ast), with the front end's annotations

    The compiler reads [types.Info] through maps keyed by syntax node; each
    node carries its entries.  [TypeAndValue] holds what [c.types.TypeOf]
    and [c.types.Types] answer for an expression. *)

Inductive Token :=
| ILLEGAL
| INT | FLOAT | IMAG | CHAR | STRING
| ADD | SUB | MUL | QUO | REM
| AND | OR | XOR | SHL | SHR | AND_NOT
| ADD_ASSIGN | SUB_ASSIGN | MUL_ASSIGN | QUO_ASSIGN | REM_ASSIGN
| AND_ASSIGN | OR_ASSIGN | XOR_ASSIGN | SHL_ASSIGN | SHR_ASSIGN
| AND_NOT_ASSIGN
| LAND | LOR | ARROW | INC | DEC
| EQL | LSS | GTR | ASSIGN | NOT
| NEQ | LEQ | GEQ | DEFINE
| BREAK | CONTINUE | FALLTHROUGH | GOTO
| TILDE.

(** [token.Token.String] *)
Definition tokenString (t : Token) : string :=
  match t with
  | ILLEGAL => "ILLEGAL"
  | INT => "INT" | FLOAT => "FLOAT" | IMAG => "IMAG" | CHAR => "CHAR"
  | STRING => "STRING"
  | ADD => "+" | SUB => "-" | MUL => "*" | QUO => "/" | REM => "%"
  | AND => "&" | OR => "|" | XOR => "^" | SHL => "<<" | SHR => ">>"
  | AND_NOT => "&^"
  | ADD_ASSIGN => "+=" | SUB_ASSIGN => "-=" | MUL_ASSIGN => "*="
  | QUO_ASSIGN => "/=" | REM_ASSIGN => "%="
  | AND_ASSIGN => "&=" | OR_ASSIGN => "|=" | XOR_ASSIGN => "^="
  | SHL_ASSIGN => "<<=" | SHR_ASSIGN => ">>=" | AND_NOT_ASSIGN => "&^="
  | LAND => "&&" | LOR => "||" | ARROW => "<-" | INC => "++" | DEC => "--"
  | EQL => "==" | LSS => "<" | GTR => ">" | ASSIGN => "=" | NOT => "!"
  | NEQ => "!=" | LEQ => "<=" | GEQ => ">=" | DEFINE => ":="
  | BREAK => "break" | CONTINUE => "continue"
  | FALLTHROUGH => "fallthrough" | GOTO => "goto"
  | TILDE => "~"
  end.

Record TypeAndValue := mkTV {
  TypeOf : option Typ;
  Addressable : bool;
  IsBuiltin : bool
}.

(** An identifier.  [ObjDecl] is the address of the [*ast.TypeSpec] that
    [ident.Obj.Decl] points to, when it points to one; [Instance] is
    [c.types.Instances[ident].TypeArgs]. *)
Record Ident := mkIdent {
  Name : string;
  NamePos : Z;
  ObjDecl : option N;
  ObjectOf : Object;
  IdentTV : TypeAndValue;
  Instance : option (list Typ)
}.

(** Expressions and statements.  A subtree that the compiler never takes
    apart (a type expression, an unsupported form) is [OtherExpr] or
    [OtherStmt]: its position and the identifiers [ast.Inspect] meets in
    it, in traversal order. *)
#[warnings="-register-all"]
Inductive Expr :=
| IdentExpr (id : Ident)
| BasicLit (tv : TypeAndValue) (ValuePos : Z) (Kind : Token) (Value : string)
| FuncLit (tv : TypeAndValue) (TypePos : Z) (typeIdents : list Ident)
          (sig : Sig) (Body : list Stmt)
| CompositeLit (tv : TypeAndValue) (Type_ : option Expr) (Lbrace : Z)
               (Elts : list Expr)
| ParenExpr (tv : TypeAndValue) (Lparen : Z) (X : Expr)
| SelectorExpr (tv : TypeAndValue) (X : Expr) (Sel : Ident)
| IndexExpr (tv : TypeAndValue) (X : Expr) (Index : Expr)
| CallExpr (tv : TypeAndValue) (Fun : Expr) (Args : list Expr)
| StarExpr (tv : TypeAndValue) (Star : Z) (X : Expr)
| UnaryExpr (tv : TypeAndValue) (OpPos : Z) (Op : Token) (X : Expr)
| BinaryExpr (tv : TypeAndValue) (X : Expr) (OpPos : Z) (Op : Token)
             (Y : Expr)
| KeyValueExpr (tv : TypeAndValue) (Key : Expr) (Value : Expr)
| OtherExpr (tv : TypeAndValue) (pos : Z) (idents : list Ident)
with Stmt :=
| ExprStmt (X : Expr)
| AssignStmt (Lhs : list Expr) (TokPos : Z) (Tok : Token) (Rhs : list Expr)
| ReturnStmt (Results : list Expr)
| BranchStmt (TokPos : Z) (Tok : Token) (Label : option Ident)
| BlockStmt (List : list Stmt)
| IfStmt (Init : option Stmt) (Cond : Expr) (Body : list Stmt)
         (Else : option Stmt)
| ForStmt (Init : option Stmt) (Cond : option Expr) (Post : option Stmt)
          (Body : list Stmt)
| OtherStmt (pos : Z) (idents : list Ident).

Definition exprTV (e : Expr) : TypeAndValue :=
  match e with
  | IdentExpr id => IdentTV id
  | BasicLit tv _ _ _ | FuncLit tv _ _ _ _ | CompositeLit tv _ _ _
  | ParenExpr tv _ _ | SelectorExpr tv _ _ | IndexExpr tv _ _
  | CallExpr tv _ _ | StarExpr tv _ _ | UnaryExpr tv _ _ _
  | BinaryExpr tv _ _ _ _ | KeyValueExpr tv _ _ | OtherExpr tv _ _ => tv
  end.

(** [ast.Expr.Pos] *)
Fixpoint exprPos (e : Expr) : Z :=
  match e with
  | IdentExpr id => NamePos id
  | BasicLit _ p _ _ => p
  | FuncLit _ p _ _ _ => p
  | CompositeLit _ (Some t) _ _ => exprPos t
  | CompositeLit _ None lbrace _ => lbrace
  | ParenExpr _ p _ => p
  | SelectorExpr _ x _ => exprPos x
  | IndexExpr _ x _ => exprPos x
  | CallExpr _ f _ => exprPos f
  | StarExpr _ p _ => p
  | UnaryExpr _ p _ _ => p
  | BinaryExpr _ x _ _ _ => exprPos x
  | KeyValueExpr _ k _ => exprPos k
  | OtherExpr _ p _ => p
  end.

(** The identifiers of a subtree in the order [ast.Inspect] visits them. *)
Fixpoint identsExpr (e : Expr) : list Ident :=
  match e with
  | IdentExpr id => [id]
  | BasicLit _ _ _ _ => []
  | FuncLit _ _ tids _ body =>
      tids ++ (fix go (l : list Stmt) : list Ident :=
                 match l with
                 | nil => []
                 | s :: r => identsStmt s ++ go r
                 end) body
  | CompositeLit _ t _ elts =>
      match t with Some t => identsExpr t | None => [] end
        ++ (fix go (l : list Expr) : list Ident :=
              match l with
              | nil => []
              | x :: r => identsExpr x ++ go r
              end) elts
  | ParenExpr _ _ x => identsExpr x
  | SelectorExpr _ x sel => identsExpr x ++ [sel]
  | IndexExpr _ x i => identsExpr x ++ identsExpr i
  | CallExpr _ f args =>
      identsExpr f
        ++ (fix go (l : list Expr) : list Ident :=
              match l with
              | nil => []
              | x :: r => identsExpr x ++ go r
              end) args
  | StarExpr _ _ x => identsExpr x
  | UnaryExpr _ _ _ x => identsExpr x
  | BinaryExpr _ x _ _ y => identsExpr x ++ identsExpr y
  | KeyValueExpr _ k v => identsExpr k ++ identsExpr v
  | OtherExpr _ _ ids => ids
  end
with identsStmt (s : Stmt) : list Ident :=
  let exprs := fix go (l : list Expr) : list Ident :=
                 match l with
                 | nil => []
                 | x :: r => identsExpr x ++ go r
                 end in
  let stmts := fix go (l : list Stmt) : list Ident :=
                 match l with
                 | nil => []
                 | x :: r => identsStmt x ++ go r
                 end in
  match s with
  | ExprStmt x => identsExpr x
  | AssignStmt lhs _ _ rhs => exprs lhs ++ exprs rhs
  | ReturnStmt rs => exprs rs
  | BranchStmt _ _ label => match label with Some l => [l] | None => [] end
  | BlockStmt l => stmts l
  | IfStmt init cond body els =>
      match init with Some i => identsStmt i | None => [] end
        ++ identsExpr cond ++ stmts body
        ++ match els with Some e => identsStmt e | None => [] end
  | ForStmt init cond post body =>
      match init with Some i => identsStmt i | None => [] end
        ++ match cond with Some e => identsExpr e | None => [] end
        ++ match post with Some p => identsStmt p | None => [] end
        ++ stmts body
  | OtherStmt _ ids => ids
  end.

(** ** Declarations *)

(** A field of a struct type expression: its names, and the position and
    resolved type of its type expression ([None] when go/types recorded no
    type for it). *)
Record Field := mkField {
  fieldNames : list string;
  fieldTypePos : Z;
  fieldTypeOf : option Typ
}.

(** [typeSpec.Type]: a struct, an interface, or any other type expression
    with its position and resolved type. *)
Inductive TypeSpecType :=
| StructType (fields : list Field)
| InterfaceType
| OtherTypeExpr (pos : Z) (typeOf : Typ).

(** [specTypeParams] is [typeSpec.TypeParams]: [None] when nil, else the
    names of each field of the list.  [specIdents] are the identifiers of
    the whole spec in [ast.Inspect] order. *)
Record TypeSpec := mkTypeSpec {
  specAddr : N;
  specName : string;
  specTypeParams : option (list (list string));
  specType : TypeSpecType;
  specIdents : list Ident
}.

(** A function declaration with the object go/types defines for its name:
    the package name and the signature.  [declResultsPos] is
    [decl.Type.Results.Pos()]. *)
Record FuncDecl := mkFuncDecl {
  declAddr : N;
  declRecvIdents : list Ident;
  declName : Ident;
  declTypeIdents : list Ident;
  declPkgName : string;
  declSig : Sig;
  declResultsPos : Z;
  declBody : option (list Stmt)
}.

Inductive Spec :=
| TypeSpec_ (ts : TypeSpec)
| OtherSpec.

Inductive Decl :=
| GenDecl (Specs : list Spec)
| FuncDecl_ (d : FuncDecl)
| BadDecl.

Definition File := list Decl.

(** ** The library surface the compiler calls

    [token.Pos] is an integer offset ([Z] throughout).  What go/token and go/types compute
    from positions and types is not code of this repository and is taken as
    given: the printed form of a position, its line, the printed form of a
    type, its underlying type and its size under a [types.Sizes] model
    ([None] when [Sizeof] panics, as it does on type parameters). *)

Class GoLib := {
  PositionString : Z -> string;
  PositionLine : Z -> Z;
  TypeString : Typ -> string;
  Underlying : Typ -> Typ;
  Sizeof : Typ -> option Z
}.

(** ** Compiler state *)

Record Compiler := mkCompiler {
  fieldIndices : gmap N Z;
  genTypeExprs : gmap N string;
  genTypeDecls : gmap N string;
  genTypeDefns : gmap N string;
  genFuncDecls : gmap N string;
  indent : Z;
  errors : string;
  output : string;
  atBlockEnd : bool;
  (* Instrumentation, absent from the Go struct and read by no function:
     the addresses of the types whose spelling was rendered, one entry per
     execution of the non-cached branch of [genTypeExpr], added when the
     branch stores its result. *)
  renderLog : list N
}.

Definition set_fieldIndices (m : gmap N Z) (c : Compiler) : Compiler :=
  mkCompiler m (genTypeExprs c) (genTypeDecls c) (genTypeDefns c)
    (genFuncDecls c) (indent c) (errors c) (output c) (atBlockEnd c)
    (renderLog c).
Definition set_genTypeExprs (m : gmap N string) (c : Compiler) : Compiler :=
  mkCompiler (fieldIndices c) m (genTypeDecls c) (genTypeDefns c)
    (genFuncDecls c) (indent c) (errors c) (output c) (atBlockEnd c)
    (renderLog c).
Definition set_genTypeDecls (m : gmap N string) (c : Compiler) : Compiler :=
  mkCompiler (fieldIndices c) (genTypeExprs c) m (genTypeDefns c)
    (genFuncDecls c) (indent c) (errors c) (output c) (atBlockEnd c)
    (renderLog c).
Definition set_genTypeDefns (m : gmap N string) (c : Compiler) : Compiler :=
  mkCompiler (fieldIndices c) (genTypeExprs c) (genTypeDecls c) m
    (genFuncDecls c) (indent c) (errors c) (output c) (atBlockEnd c)
    (renderLog c).
Definition set_genFuncDecls (m : gmap N string) (c : Compiler) : Compiler :=
  mkCompiler (fieldIndices c) (genTypeExprs c) (genTypeDecls c)
    (genTypeDefns c) m (indent c) (errors c) (output c) (atBlockEnd c)
    (renderLog c).
Definition set_indent (i : Z) (c : Compiler) : Compiler :=
  mkCompiler (fieldIndices c) (genTypeExprs c) (genTypeDecls c)
    (genTypeDefns c) (genFuncDecls c) i (errors c) (output c) (atBlockEnd c)
    (renderLog c).
Definition set_errors (e : string) (c : Compiler) : Compiler :=
  mkCompiler (fieldIndices c) (genTypeExprs c) (genTypeDecls c)
    (genTypeDefns c) (genFuncDecls c) (indent c) e (output c) (atBlockEnd c)
    (renderLog c).
Definition set_output (o : string) (c : Compiler) : Compiler :=
  mkCompiler (fieldIndices c) (genTypeExprs c) (genTypeDecls c)
    (genTypeDefns c) (genFuncDecls c) (indent c) (errors c) o (atBlockEnd c)
    (renderLog c).
Definition set_atBlockEnd (b : bool) (c : Compiler) : Compiler :=
  mkCompiler (fieldIndices c) (genTypeExprs c) (genTypeDecls c)
    (genTypeDefns c) (genFuncDecls c) (indent c) (errors c) (output c) b
    (renderLog c).
Definition set_renderLog (l : list N) (c : Compiler) : Compiler :=
  mkCompiler (fieldIndices c) (genTypeExprs c) (genTypeDecls c)
    (genTypeDefns c) (genFuncDecls c) (indent c) (errors c) (output c)
    (atBlockEnd c) l.

(** ** String helpers *)

Fixpoint lastByte (s : string) : option ascii :=
  match s with
  | EmptyString => None
  | String a EmptyString => Some a
  | String _ r => lastByte r
  end.

Fixpoint dropLast (s : string) : string :=
  match s with
  | EmptyString => EmptyString
  | String _ EmptyString => EmptyString
  | String a r => String a (dropLast r)
  end.

Definition newline : string := String (ascii_of_nat 10) EmptyString.

Fixpoint spaces (n : nat) : string :=
  match n with
  | O => EmptyString
  | S k => String " " (spaces k)
  end.

(** [strconv.FormatInt(n, 10)] and the [%d] verb. *)
Definition formatInt (n : Z) : string := NilZero.string_of_int (Z.to_int n).

Definition trimFinalSpace (s : string) : string :=
  match lastByte s with
  | Some " "%char => dropLast s
  | _ => s
  end.

Section Gx.
Context `{GoLib}.

(** ** Error and writing utilities *)

(** One diagnostic line: the position, a colon, the message, a newline. *)
Definition diagnostic (pos : Z) (msg : string) : string :=
  PositionString pos +:+ ": " +:+ msg +:+ newline.

Definition errorf (pos : Z) (msg : string) (c : Compiler) : Compiler :=
  set_errors (errors c +:+ diagnostic pos msg) c.

Definition errored (c : Compiler) : bool :=
  negb (String.length (errors c) =? 0)%nat.

Definition write (s : string) (c : Compiler) : Compiler :=
  let c := set_atBlockEnd false c in
  let pad :=
    match lastByte (output c) with
    | Some b => if Ascii.eqb b (ascii_of_nat 10)
                then spaces (Z.to_nat (2 * indent c)) else ""
    | None => ""
    end in
  set_output (output c +:+ pad +:+ s) c.

(** ** Types *)

Fixpoint storeFieldIndices (fields : list N) (i : Z) (m : gmap N Z)
  : gmap N Z :=
  match fields with
  | nil => m
  | f :: r => storeFieldIndices r (i + 1) (<[f := i]> m)
  end.

Definition computeFieldIndices (fields : list N) (c : Compiler) : Compiler :=
  match fields with
  | nil => c
  | f0 :: _ =>
      match fieldIndices c !! f0 with
      | Some _ => c
      | None => set_fieldIndices (storeFieldIndices fields 0 (fieldIndices c)) c
      end
  end.

(** The loop over the type arguments of an instantiated named type. *)
Definition genTypeArgs (genTypeExpr : Typ -> Z -> Compiler -> string * Compiler)
    (pos : Z) : list Typ -> bool -> Compiler -> string * Compiler :=
  fix go (typeArgs : list Typ) (first : bool) (c : Compiler)
    : string * Compiler :=
    match typeArgs with
    | nil => ("", c)
    | t :: r =>
        let '(s, c) := genTypeExpr t pos c in
        let '(rest, c) := go r false c in
        ((if first then "" else ", ") +:+ trimFinalSpace s +:+ rest, c)
    end.

(** The non-cached branch of [genTypeExpr], given the function for the
    recursive requests. *)
Definition renderTypeExpr
    (genTypeExpr : Typ -> Z -> Compiler -> string * Compiler)
    (typ : Typ) (pos : Z) (c : Compiler) : string * Compiler :=
  match typ with
  | Basic _ kind =>
      let '(s, c) :=
        match kind with
        | Bool => ("bool", c)
        | Int => ("int", c)
        | Float32 => ("float", c)
        | Float64 => ("double", c)
        | _ => ("", errorf pos (TypeString typ +:+ " not supported") c)
        end in
      (s +:+ " ", c)
  | Pointer _ elem =>
      let '(s, c) := genTypeExpr elem pos c in
      (s +:+ "*", c)
  | Named _ objName _ typeArgs =>
      let '(s, c) :=
        match typeArgs with
        | None => ("", c)
        | Some args =>
            let '(s, c) := genTypeArgs genTypeExpr pos args true c in
            ("<" +:+ s +:+ ">", c)
        end in
      (objName +:+ s +:+ " ", c)
  | TypeParam _ objName => (objName +:+ " ", c)
  | Signature _ => ("auto &&", c)
  | Array _ elem len =>
      let '(s, c) := genTypeExpr elem pos c in
      ("gx::Array<" +:+ trimFinalSpace s +:+ ", " +:+ formatInt len
         +:+ ">" +:+ " ", c)
  | Slice _ elem =>
      let '(s, c) := genTypeExpr elem pos c in
      ("gx::Slice<" +:+ trimFinalSpace s +:+ ">" +:+ " ", c)
  | Struct _ _ | OtherType _ =>
      ("", errorf pos (TypeString typ +:+ " not supported") c)
  end.

Fixpoint genTypeExpr (typ : Typ) (pos : Z) (c : Compiler) {struct typ}
  : string * Compiler :=
  match genTypeExprs c !! addrOf typ with
  | Some result => (result, c)
  | None =>
      let '(result, c) := renderTypeExpr genTypeExpr typ pos c in
      let c := set_renderLog (renderLog c ++ [addrOf typ]) c in
      (result, set_genTypeExprs (<[addrOf typ := result]> (genTypeExprs c)) c)
  end.

Fixpoint typeParamNames (l : list string) (first : bool) : string :=
  match l with
  | nil => ""
  | n :: r =>
      (if first then "" else ", ") +:+ "typename " +:+ n
        +:+ typeParamNames r false
  end.

Definition genTypeDecl (typeSpec : TypeSpec) (c : Compiler)
  : string * Compiler :=
  match genTypeDecls c !! specAddr typeSpec with
  | Some result => (result, c)
  | None =>
      let prologue :=
        match specTypeParams typeSpec with
        | None => ""
        | Some fl =>
            "template<" +:+ typeParamNames (concat fl) true +:+ ">"
              +:+ newline
        end in
      let '(s, c) :=
        match specType typeSpec with
        | StructType _ => ("struct " +:+ specName typeSpec, c)
        | InterfaceType => ("", c)
        | OtherTypeExpr pos typ =>
            let '(s, c) := genTypeExpr typ pos c in
            ("using " +:+ specName typeSpec +:+ " = " +:+ trimFinalSpace s, c)
        end in
      let result := prologue +:+ s in
      (result,
       set_genTypeDecls (<[specAddr typeSpec := result]> (genTypeDecls c)) c)
  end.

Fixpoint fieldLines (typeExpr : string) (names : list string) : string :=
  match names with
  | nil => ""
  | n :: r => "  " +:+ typeExpr +:+ n +:+ ";" +:+ newline
                +:+ fieldLines typeExpr r
  end.

Fixpoint genFields (fields : list Field) (c : Compiler) : string * Compiler :=
  match fields with
  | nil => ("", c)
  | f :: r =>
      match fieldTypeOf f with
      | Some typ =>
          let '(typeExpr, c) := genTypeExpr typ (fieldTypePos f) c in
          let '(rest, c) := genFields r c in
          (fieldLines typeExpr (fieldNames f) +:+ rest, c)
      | None => genFields r c
      end
  end.

Definition genTypeDefn (typeSpec : TypeSpec) (c : Compiler)
  : string * Compiler :=
  match genTypeDefns c !! specAddr typeSpec with
  | Some result => (result, c)
  | None =>
      let '(result, c) :=
        match specType typeSpec with
        | StructType fields =>
            let '(decl, c) := genTypeDecl typeSpec c in
            let '(body, c) := genFields fields c in
            (decl +:+ " {" +:+ newline +:+ body +:+ "}", c)
        | InterfaceType => ("", c)
        | OtherTypeExpr _ _ => ("", c)
        end in
      (result,
       set_genTypeDefns (<[specAddr typeSpec := result]> (genTypeDefns c)) c)
  end.

(** ** Functions *)

(** [sizes.Sizeof] under a deferred [recover]: a panic yields the zero
    result. *)
Definition sizeOf (typ : Typ) : Z :=
  match Sizeof typ with
  | Some n => n
  | None => 0
  end.

Definition addTypeParams (typeParams : option (list string)) : string :=
  match typeParams with
  | None => ""
  | Some l => "template<" +:+ typeParamNames l true +:+ ">" +:+ newline
  end.

Definition recvTypeParams (recv : option Var) : string :=
  match recv with
  | None => ""
  | Some r =>
      match varType r with
      | Named _ _ tps _ => addTypeParams tps
      | Pointer _ (Named _ _ tps _) => addTypeParams tps
      | _ => ""
      end
  end.

Definition addParam (param : Var) (c : Compiler) : string * Compiler :=
  let typ := varType param in
  let c :=
    match Underlying typ with
    | Array _ _ _ =>
        errorf (varPos param)
          ("cannot pass array by value, use pointer to array *"
             +:+ TypeString typ +:+ " instead") c
    | Slice _ _ =>
        errorf (varPos param)
          ("cannot pass slice by value, use pointer to slice *"
             +:+ TypeString typ +:+ " instead") c
    | _ => c
    end in
  let size := sizeOf typ in
  let c :=
    if 96 <? size
    then errorf (varPos param)
           (TypeString typ +:+ " is large (" +:+ formatInt size
              +:+ " bytes), consider passing by pointer instead") c
    else c in
  let '(s, c) := genTypeExpr typ (varPos param) c in
  (s +:+ varName param, c).

Fixpoint addParams (params : list Var) (first : bool) (c : Compiler)
  : string * Compiler :=
  match params with
  | nil => ("", c)
  | p :: r =>
      let '(s, c) := addParam p c in
      let '(rest, c) := addParams r false c in
      ((if first then "" else ", ") +:+ s +:+ rest, c)
  end.

(** The result type of a signature. *)
Definition genResult (decl : FuncDecl) (c : Compiler) : string * Compiler :=
  let sig := declSig decl in
  match Results sig with
  | _ :: _ :: _ =>
      ("", errorf (declResultsPos decl)
             "multiple return values not supported" c)
  | [ret] => genTypeExpr (varType ret) (varPos ret) c
  | [] =>
      if String.eqb (declPkgName decl) "main"
         && String.eqb (Name (declName decl)) "main"
         && negb (bool_decide (is_Some (Recv sig)))
      then ("int ", c) else ("void ", c)
  end.

(** The parameter list of a signature, receiver first. *)
Definition genParams (decl : FuncDecl) (c : Compiler) : string * Compiler :=
  let sig := declSig decl in
  let recv := Recv sig in
  let '(rs, c) :=
    match recv with
    | Some r => addParam r c
    | None => ("", c)
    end in
  let '(ps, c) :=
    addParams (Params sig) (negb (bool_decide (is_Some recv))) c in
  (rs +:+ ps, c).

Definition genFuncDecl (decl : FuncDecl) (c : Compiler) : string * Compiler :=
  match genFuncDecls c !! declAddr decl with
  | Some result => (result, c)
  | None =>
      let sig := declSig decl in
      let tparams :=
        recvTypeParams (Recv sig) +:+ addTypeParams (SigTypeParams sig) in
      let '(ret, c) := genResult decl c in
      let '(ps, c) := genParams decl c in
      let result :=
        tparams +:+ ret +:+ Name (declName decl) +:+ "(" +:+ ps +:+ ")" in
      (result,
       set_genFuncDecls (<[declAddr decl := result]> (genFuncDecls c)) c)
  end.

(** ** Expressions

    The writers return [None] where the Go code panics (a failed type
    assertion, a method call through a nil interface, an index out of
    range).  Each writer takes the recursive calls it makes as arguments;
    [writeExpr] and [writeStmt] tie the knot below. *)

Definition isPointer (typ : option Typ) : bool :=
  match typ with
  | Some (Pointer _ _) => true
  | _ => false
  end.

Definition writeIdent (ident : Ident) (c : Compiler) : Compiler :=
  let c := if IsBuiltin (IdentTV ident) then write "gx::" c else c in
  write (Name ident) c.

Definition writeBasicLit (pos : Z) (kind : Token) (value : string)
    (c : Compiler) : Compiler :=
  match kind with
  | INT | FLOAT | STRING => write value c
  | _ => errorf pos "unsupported literal kind" c
  end.

Fixpoint writeFuncLitParams (params : list Var) (first : bool) (c : Compiler)
  : Compiler :=
  match params with
  | nil => c
  | param :: r =>
      let c := if first then c else write ", " c in
      let '(s, c) := genTypeExpr (varType param) (varPos param) c in
      let c := write s c in
      let c := write (varName param) c in
      writeFuncLitParams r false c
  end.

Definition writeStmtList (writeStmt : Stmt -> Compiler -> option Compiler)
  : list Stmt -> Compiler -> option Compiler :=
  fix go (list : list Stmt) (c : Compiler) : option Compiler :=
    match list with
    | nil => Some c
    | stmt :: r =>
        c ← writeStmt stmt c;
        let c := if atBlockEnd c then c else write ";" c in
        go r (write newline c)
    end.

Definition writeBlockStmt (writeStmt : Stmt -> Compiler -> option Compiler)
    (list : list Stmt) (c : Compiler) : option Compiler :=
  let c := write ("{" +:+ newline) c in
  let c := set_indent (indent c + 1) c in
  c ← writeStmtList writeStmt list c;
  let c := set_indent (indent c - 1) c in
  let c := write "}" c in
  Some (set_atBlockEnd true c).

Definition writeFuncLit (writeStmt : Stmt -> Compiler -> option Compiler)
    (sig : Sig) (body : list Stmt) (c : Compiler) : option Compiler :=
  let c := write "[&](" c in
  let c := writeFuncLitParams (Params sig) true c in
  let c := write ") " c in
  c ← writeBlockStmt writeStmt body c;
  Some (set_atBlockEnd false c).

(** The loop of [writeCompositeLit] over the keys of a struct literal. *)
Fixpoint checkFieldOrder (pos : Z) (elts : list Expr) (lastIndex : Z)
    (c : Compiler) : option Compiler :=
  match elts with
  | nil => Some c
  | KeyValueExpr _ (IdentExpr key) _ :: r =>
      match ObjectOf key with
      | VarObject field =>
          let index := default 0 (fieldIndices c !! varAddr field) in
          if index <? lastIndex
          then Some (errorf pos
                 "struct literal fields must appear in definition order" c)
          else checkFieldOrder pos r index c
      | _ => None
      end
  | _ => None
  end.

Definition writeEltsInline (writeExpr : Expr -> Compiler -> option Compiler)
  : list Expr -> bool -> Compiler -> option Compiler :=
  fix go (elts : list Expr) (first : bool) (c : Compiler) : option Compiler :=
    match elts with
    | nil => Some c
    | elt :: r =>
        let c := if first then c else write ", " c in
        c ← writeExpr elt c;
        go r false c
    end.

Definition writeEltsLines (writeExpr : Expr -> Compiler -> option Compiler)
  : list Expr -> Compiler -> option Compiler :=
  fix go (elts : list Expr) (c : Compiler) : option Compiler :=
    match elts with
    | nil => Some c
    | elt :: r =>
        c ← writeExpr elt c;
        go r (write ("," +:+ newline) c)
    end.

Definition writeCompositeLit
    (writeExpr : Expr -> Compiler -> option Compiler)
    (tv : TypeAndValue) (pos : Z) (type_ : option Expr) (elts : list Expr)
    (c : Compiler) : option Compiler :=
  typ ← TypeOf tv;
  let '(s, c) := genTypeExpr typ pos c in
  let c := write s c in
  let c := write "{" c in
  c ← match elts with
      | nil => Some c
      | elt0 :: _ =>
          c ← match elt0 with
              | KeyValueExpr _ _ _ =>
                  t ← type_;
                  ttyp ← TypeOf (exprTV t);
                  match Underlying ttyp with
                  | Struct _ fields =>
                      let c := computeFieldIndices fields c in
                      checkFieldOrder pos elts 0 c
                  | _ => Some c
                  end
              | _ => Some c
              end;
          if PositionLine pos =? PositionLine (exprPos elt0)
          then
            let c := write " " c in
            c ← writeEltsInline writeExpr elts true c;
            Some (write " " c)
          else
            let c := write newline c in
            let c := set_indent (indent c + 1) c in
            c ← writeEltsLines writeExpr elts c;
            Some (set_indent (indent c - 1) c)
      end;
  Some (write "}" c).

Definition writeParenExpr (writeExpr : Expr -> Compiler -> option Compiler)
    (x : Expr) (c : Compiler) : option Compiler :=
  let c := write "(" c in
  c ← writeExpr x c;
  Some (write ")" c).

Definition writeSelectorExpr
    (writeExpr : Expr -> Compiler -> option Compiler)
    (x : Expr) (sel : Ident) (c : Compiler) : option Compiler :=
  c ← writeExpr x c;
  let c := if isPointer (TypeOf (exprTV x)) then write "->" c
           else write "." c in
  Some (writeIdent sel c).

Definition writeIndexExpr (writeExpr : Expr -> Compiler -> option Compiler)
    (x index : Expr) (c : Compiler) : option Compiler :=
  c ← (if isPointer (TypeOf (exprTV x))
       then
         let c := write "(*(" c in
         c ← writeExpr x c;
         Some (write "))" c)
       else writeExpr x c);
  let c := write "[" c in
  c ← writeExpr index c;
  Some (write "]" c).

Fixpoint writeTypeArgs (typeArgs : list Typ) (pos : Z) (first : bool)
    (c : Compiler) : Compiler :=
  match typeArgs with
  | nil => c
  | t :: r =>
      let c := if first then c else write ", " c in
      let '(s, c) := genTypeExpr t pos c in
      writeTypeArgs r pos false (write (trimFinalSpace s) c)
  end.

Definition writeArgs (writeExpr : Expr -> Compiler -> option Compiler)
    (method : bool) : list Expr -> bool -> Compiler -> option Compiler :=
  fix go (args : list Expr) (first : bool) (c : Compiler) : option Compiler :=
    match args with
    | nil => Some c
    | arg :: r =>
        let c := if negb first || method then write ", " c else c in
        c ← writeExpr arg c;
        go r false c
    end.

(** The receiver of a method-style call: [sel.X], dereferenced or with its
    address taken according to the two pointer tests. *)
Definition writeReceiver (writeExpr : Expr -> Compiler -> option Compiler)
    (x : Expr) (recv : Var) (c : Compiler) : option Compiler :=
  let xPtr := isPointer (TypeOf (exprTV x)) in
  let recvPtr := isPointer (Some (varType recv)) in
  if xPtr && negb recvPtr then
    let c := write "*(" c in
    c ← writeExpr x c;
    Some (write ")" c)
  else if negb xPtr && recvPtr then
    let c := write "&(" c in
    c ← writeExpr x c;
    Some (write ")" c)
  else writeExpr x c.

(** The callee when the call is not a method call. *)
Definition writeCallee (writeExpr : Expr -> Compiler -> option Compiler)
    (fn : Expr) (c : Compiler) : option Compiler :=
  c ← writeExpr fn c;
  let c :=
    match fn with
    | IdentExpr ident =>
        match Instance ident with
        | Some typeArgs =>
            let c := write "<" c in
            let c := writeTypeArgs typeArgs (exprPos fn) true c in
            write ">" c
        | None => c
        end
    | _ => c
    end in
  Some (write "(" c).

Definition writeCallExpr (writeExpr : Expr -> Compiler -> option Compiler)
    (fn : Expr) (args : list Expr) (c : Compiler) : option Compiler :=
  '(method, c) ←
    match fn with
    | SelectorExpr _ x sel =>
        match ObjectOf sel with
        | NoObject => None
        | FuncObject _ sig =>
            match Recv sig with
            | Some recv =>
                let c := writeIdent sel c in
                let c := write "(" c in
                c ← writeReceiver writeExpr x recv c;
                Some (true, c)
            | None => Some (false, c)
            end
        | VarObject _ | OtherObject => Some (false, c)
        end
    | _ => Some (false, c)
    end;
  c ← (if method : bool then Some c else writeCallee writeExpr fn c);
  c ← writeArgs writeExpr method args true c;
  Some (write ")" c).

Definition writeStarExpr (writeExpr : Expr -> Compiler -> option Compiler)
    (x : Expr) (c : Compiler) : option Compiler :=
  writeExpr x (write "*" c).

Definition writeUnaryExpr (writeExpr : Expr -> Compiler -> option Compiler)
    (opPos : Z) (op : Token) (x : Expr) (c : Compiler) : option Compiler :=
  let c :=
    match op with
    | ADD | SUB | NOT => write (tokenString op) c
    | AND =>
        let c := if Addressable (exprTV x) then c
                 else errorf opPos "cannot take address of a temporary object"
                        c in
        write (tokenString op) c
    | _ => errorf opPos "unsupported unary operator" c
    end in
  writeExpr x c.

Definition writeBinaryExpr (writeExpr : Expr -> Compiler -> option Compiler)
    (x : Expr) (opPos : Z) (op : Token) (y : Expr) (c : Compiler)
  : option Compiler :=
  c ← writeExpr x c;
  let c := write " " c in
  let c :=
    match op with
    | EQL | NEQ | LSS | LEQ | GTR | GEQ
    | ADD | SUB | MUL | QUO | REM
    | AND | OR | XOR | SHL | SHR => write (tokenString op) c
    | _ => errorf opPos "unsupported binary operator" c
    end in
  let c := write " " c in
  writeExpr y c.

Definition writeKeyValueExpr
    (writeExpr : Expr -> Compiler -> option Compiler)
    (key value : Expr) (c : Compiler) : option Compiler :=
  match key with
  | IdentExpr name =>
      let c := write "." c in
      let c := write (Name name) c in
      let c := write " = " c in
      writeExpr value c
  | _ => Some (errorf (exprPos key) "unsupported literal key" c)
  end.

(** ** Statements *)

Definition writeAssignStmt (writeExpr : Expr -> Compiler -> option Compiler)
    (lhs : list Expr) (tokPos : Z) (tok : Token) (rhs : list Expr)
    (c : Compiler) : option Compiler :=
  match lhs with
  | [lhs0] =>
      let c := match tok with DEFINE => write "auto " c | _ => c end in
      c ← writeExpr lhs0 c;
      let c := write " " c in
      let c :=
        match tok with
        | DEFINE => write "=" c
        | ASSIGN
        | ADD_ASSIGN | SUB_ASSIGN | MUL_ASSIGN | QUO_ASSIGN | REM_ASSIGN
        | AND_ASSIGN | OR_ASSIGN | XOR_ASSIGN | SHL_ASSIGN | SHR_ASSIGN =>
            write (tokenString tok) c
        | _ => errorf tokPos "unsupported assignment operator" c
        end in
      let c := write " " c in
      match rhs with
      | rhs0 :: _ => writeExpr rhs0 c
      | nil => None
      end
  | lhs0 :: _ =>
      Some (errorf (exprPos lhs0) "multi-value assignment unsupported" c)
  | nil => None
  end.

Definition writeReturnStmt (writeExpr : Expr -> Compiler -> option Compiler)
    (results : list Expr) (c : Compiler) : option Compiler :=
  match results with
  | r0 :: _ :: _ =>
      Some (errorf (exprPos r0) "multiple return values not supported" c)
  | [r0] => writeExpr r0 (write "return " c)
  | nil => Some (write "return" c)
  end.

Definition writeBranchStmt (tokPos : Z) (tok : Token) (c : Compiler)
  : Compiler :=
  match tok with
  | BREAK | CONTINUE => write (tokenString tok) c
  | _ => errorf tokPos "unsupported branch statement" c
  end.

Definition writeIfStmt (writeExpr : Expr -> Compiler -> option Compiler)
    (writeStmt : Stmt -> Compiler -> option Compiler)
    (init : option Stmt) (cond : Expr) (body : list Stmt)
    (els : option Stmt) (c : Compiler) : option Compiler :=
  let c := write "if (" c in
  c ← match init with
      | Some i => c ← writeStmt i c; Some (write "; " c)
      | None => Some c
      end;
  c ← writeExpr cond c;
  let c := write ") " c in
  c ← writeBlockStmt writeStmt body c;
  match els with
  | Some e => writeStmt e (write " else " c)
  | None => Some c
  end.

Definition writeForStmt (writeExpr : Expr -> Compiler -> option Compiler)
    (writeStmt : Stmt -> Compiler -> option Compiler)
    (init : option Stmt) (cond : option Expr) (post : option Stmt)
    (body : list Stmt) (c : Compiler) : option Compiler :=
  let c := write "for (" c in
  c ← match init with Some i => writeStmt i c | None => Some c end;
  let c := write "; " c in
  c ← match cond with Some e => writeExpr e c | None => Some c end;
  let c := write "; " c in
  c ← match post with Some p => writeStmt p c | None => Some c end;
  let c := write ") " c in
  writeBlockStmt writeStmt body c.

Fixpoint writeExpr (expr : Expr) (c : Compiler) {struct expr}
  : option Compiler :=
  match expr with
  | IdentExpr ident => Some (writeIdent ident c)
  | BasicLit _ pos kind value => Some (writeBasicLit pos kind value c)
  | FuncLit _ _ _ sig body => writeFuncLit writeStmt sig body c
  | CompositeLit tv type_ _ elts =>
      writeCompositeLit writeExpr tv (exprPos expr) type_ elts c
  | ParenExpr _ _ x => writeParenExpr writeExpr x c
  | SelectorExpr _ x sel => writeSelectorExpr writeExpr x sel c
  | IndexExpr _ x index => writeIndexExpr writeExpr x index c
  | CallExpr _ fn args => writeCallExpr writeExpr fn args c
  | StarExpr _ _ x => writeStarExpr writeExpr x c
  | UnaryExpr _ opPos op x => writeUnaryExpr writeExpr opPos op x c
  | BinaryExpr _ x opPos op y => writeBinaryExpr writeExpr x opPos op y c
  | KeyValueExpr _ key value => writeKeyValueExpr writeExpr key value c
  | OtherExpr _ pos _ => Some (errorf pos "unsupported expression type" c)
  end
with writeStmt (stmt : Stmt) (c : Compiler) {struct stmt} : option Compiler :=
  match stmt with
  | ExprStmt x => writeExpr x c
  | AssignStmt lhs tokPos tok rhs =>
      writeAssignStmt writeExpr lhs tokPos tok rhs c
  | ReturnStmt results => writeReturnStmt writeExpr results c
  | BranchStmt tokPos tok _ => Some (writeBranchStmt tokPos tok c)
  | BlockStmt list => writeBlockStmt writeStmt list c
  | IfStmt init cond body els =>
      writeIfStmt writeExpr writeStmt init cond body els c
  | ForStmt init cond post body =>
      writeForStmt writeExpr writeStmt init cond post body c
  | OtherStmt pos _ => Some (errorf pos "unsupported statement type" c)
  end.

(** ** Top-level *)

(** What reading the directory, parsing and type-checking deliver to
    [compile]: the first error met, or the resolved files. *)
Inductive Frontend :=
| FrontendError (err : string)
| Resolved (files : list File).

Definition quote : string := String (ascii_of_nat 34) EmptyString.

Definition newCompiler : Compiler :=
  mkCompiler ∅ ∅ ∅ ∅ ∅ 0 "" "" false [].

(** The top-level type specs: the map [typeSpecTopLevel], keyed by the
    address of the spec and giving the spec that lives there. *)
Definition specsOfDecl (decl : Decl) : list TypeSpec :=
  match decl with
  | GenDecl specs =>
      omap (fun spec => match spec with
                        | TypeSpec_ ts => Some ts
                        | OtherSpec => None
                        end) specs
  | _ => []
  end.

Definition typeSpecTopLevel (files : list File) : gmap N TypeSpec :=
  foldl (fun m ts => <[specAddr ts := ts]> m) ∅
    (concat (map specsOfDecl (concat files))).

Definition funcDecls (files : list File) : list FuncDecl :=
  omap (fun decl => match decl with
                    | FuncDecl_ d => Some d
                    | _ => None
                    end) (concat files).

(** The identifiers [ast.Inspect] meets in a function declaration:
    receiver, name, type, body. *)
Definition identsFuncDecl (decl : FuncDecl) : list Ident :=
  declRecvIdents decl ++ [declName decl] ++ declTypeIdents decl
    ++ match declBody decl with
       | Some body => identsStmt (BlockStmt body)
       | None => []
       end.

(** [collectTypeSpecs], run over the identifiers of a subtree.  The state
    is the map [typeSpecCollected] (as the set of its keys) and the slice
    [typeSpecs].  The Go closure recurses through [ast.Inspect] on the spec
    an identifier points to; the recursion is bounded here by [fuel], and
    [None] means the bound was reached. *)
Fixpoint collectTypeSpecs (fuel : nat) (topLevel : gmap N TypeSpec)
  : list Ident -> gset N * list TypeSpec -> option (gset N * list TypeSpec) :=
  fix visit (idents : list Ident) (st : gset N * list TypeSpec)
    : option (gset N * list TypeSpec) :=
    match idents with
    | nil => Some st
    | ident :: rest =>
        match ObjDecl ident ≫= (fun a => topLevel !! a) with
        | Some typeSpec =>
            if bool_decide (specAddr typeSpec ∈ st.1) then visit rest st
            else
              match fuel with
              | O => None
              | S fuel' =>
                  st ← collectTypeSpecs fuel' topLevel (specIdents typeSpec)
                         ({[specAddr typeSpec]} ∪ st.1, st.2);
                  visit rest (st.1, st.2 ++ [typeSpec])
              end
        | None => visit rest st
        end
    end.

(** The loop over the function declarations of all files. *)
Fixpoint collectFromFuncs (fuel : nat) (topLevel : gmap N TypeSpec)
    (decls : list FuncDecl) (st : gset N * list TypeSpec)
  : option (gset N * list TypeSpec) :=
  match decls with
  | nil => Some st
  | decl :: r =>
      st ← collectTypeSpecs fuel topLevel (identsFuncDecl decl) st;
      collectFromFuncs fuel topLevel r st
  end.

Fixpoint writeTypeDecls (typeSpecs : list TypeSpec) (c : Compiler)
  : Compiler :=
  match typeSpecs with
  | nil => c
  | typeSpec :: r =>
      let '(typeDecl, c) := genTypeDecl typeSpec c in
      let c := if String.eqb typeDecl "" then c
               else write (";" +:+ newline) (write typeDecl c) in
      writeTypeDecls r c
  end.

Fixpoint writeTypeDefns (typeSpecs : list TypeSpec) (c : Compiler)
  : Compiler :=
  match typeSpecs with
  | nil => c
  | typeSpec :: r =>
      let '(typeDefn, c) := genTypeDefn typeSpec c in
      let c := if String.eqb typeDefn "" then c
               else write (";" +:+ newline) (write typeDefn (write newline c))
      in
      writeTypeDefns r c
  end.

Fixpoint writeFuncDecls (decls : list FuncDecl) (c : Compiler) : Compiler :=
  match decls with
  | nil => c
  | decl :: r =>
      let '(s, c) := genFuncDecl decl c in
      writeFuncDecls r (write (";" +:+ newline) (write s c))
  end.

Fixpoint writeFuncDefns (decls : list FuncDecl) (c : Compiler)
  : option Compiler :=
  match decls with
  | nil => Some c
  | decl :: r =>
      match declBody decl with
      | Some body =>
          let c := write newline c in
          let '(s, c) := genFuncDecl decl c in
          let c := write " " (write s c) in
          c ← writeBlockStmt writeStmt body c;
          writeFuncDefns r (write newline c)
      | None => writeFuncDefns r c
      end
  end.

(** [compile], from the point where the maps and builders are initialised.
    The type specs are collected with as much fuel as there are top-level
    specs, plus one. *)
Definition compile (input : Frontend) : option Compiler :=
  let c := newCompiler in
  match input with
  | FrontendError err => Some (set_errors (errors c +:+ err +:+ newline) c)
  | Resolved files =>
      let c := write ("#include " +:+ quote +:+ "gx.hh" +:+ quote
                        +:+ newline) c in
      let topLevel := typeSpecTopLevel files in
      '(_, typeSpecs) ← collectFromFuncs (S (size topLevel)) topLevel
                           (funcDecls files) (∅, []);
      let c := write (newline +:+ newline) c in
      let c := writeTypeDecls typeSpecs c in
      let c := write newline c in
      let c := writeTypeDefns typeSpecs c in
      let c := write (newline +:+ newline) c in
      let c := writeFuncDecls (funcDecls files) c in
      let c := write newline c in
      writeFuncDefns (funcDecls files) c
  end.

(** ** Main *)

(** What a run of the program leaves behind: text on standard output, a
    file written, or a crash. *)
Inductive Outcome :=
| Printed (stdout : string)
| Written (path : string) (content : string)
| Crashed.

(** [frontend] maps the input directory to what the front end makes of
    it. *)
Definition main (frontend : string -> Frontend) (args : list string)
  : Outcome :=
  match args with
  | [_; directoryPath; outputPath] =>
      match compile (frontend directoryPath) with
      | Some c =>
          if errored c then Printed (errors c +:+ newline)
          else Written outputPath (output c)
      | None => Crashed
      end
  | _ => Printed ("usage: gx <input_directory> <output_file>" +:+ newline)
  end.

End Gx.

(** * Notions used to state the properties *)

(** The diagnostics of [c'] are those of [c] followed by more text: nothing
    recorded is ever taken back. *)
Definition extends (c c' : Compiler) : Prop :=
  exists s, errors c' = errors c +:+ s.



(** Every rendered type is cached, and none was rendered twice. *)
Definition logOK (c : Compiler) : Prop :=
  NoDup (renderLog c) /\
  forall a, a ∈ renderLog c -> is_Some (genTypeExprs c !! a).


Section Run.
Context `{GoLib}.


End Run.

(** What a request for a spelling may change: it adds diagnostics and
    cache entries, and leaves the rest of the state alone. *)
Definition spellingStep (c c' : Compiler) : Prop :=
  extends c c' /\
  fieldIndices c' = fieldIndices c /\
  genTypeDecls c' = genTypeDecls c /\
  genTypeDefns c' = genTypeDefns c /\
  genFuncDecls c' = genFuncDecls c /\
  indent c' = indent c /\
  output c' = output c /\
  atBlockEnd c' = atBlockEnd c.

(** What a request does to the spelling cache: entries are kept as they
    are, new keys come from [S], and the log stays in order. *)
Definition cacheStep (S : list N) (c c' : Compiler) : Prop :=
  genTypeExprs c ⊆ genTypeExprs c' /\
  (forall k, is_Some (genTypeExprs c' !! k) ->
             is_Some (genTypeExprs c !! k) \/ k ∈ S) /\
  (logOK c -> logOK c').

(** * A concrete library and a small universe of types

    Positions encode line and column as [100 * line + column]; sizes follow
    the gc model for wasm (8-byte words), with structs of word-sized
    fields. *)

Definition kindName (k : BasicKind) : string :=
  match k with
  | Invalid => "invalid type"
  | Bool => "bool" | Int => "int" | Int8 => "int8" | Int16 => "int16"
  | Int32 => "int32" | Int64 => "int64"
  | Uint => "uint" | Uint8 => "uint8" | Uint16 => "uint16"
  | Uint32 => "uint32" | Uint64 => "uint64" | Uintptr => "uintptr"
  | Float32 => "float32" | Float64 => "float64"
  | Complex64 => "complex64" | Complex128 => "complex128"
  | String_ => "string" | UnsafePointer => "unsafe.Pointer"
  | UntypedBool => "untyped bool" | UntypedInt => "untyped int"
  | UntypedRune => "untyped rune" | UntypedFloat => "untyped float"
  | UntypedComplex => "untyped complex" | UntypedString => "untyped string"
  | UntypedNil => "untyped nil"
  end.

Fixpoint exampleTypeString (t : Typ) : string :=
  match t with
  | Basic _ k => kindName k
  | Pointer _ e => "*" +:+ exampleTypeString e
  | Named _ n _ _ => n
  | TypeParam _ n => n
  | Signature _ => "func()"
  | Array _ e n => "[" +:+ formatInt n +:+ "]" +:+ exampleTypeString e
  | Slice _ e => "[]" +:+ exampleTypeString e
  | Struct _ _ => "struct{...}"
  | OtherType _ => "map[int]int"
  end.

Definition intT : Typ := Basic 1 Int.
Definition boolT : Typ := Basic 2 Bool.
Definition float32T : Typ := Basic 3 Float32.
Definition float64T : Typ := Basic 4 Float64.

(** [type Point struct { x, y int }] and [type Big [13]int]. *)
Definition pointT : Typ := Named 10 "Point" None None.
Definition pointStruct : Typ := Struct 11 [20%N; 21%N].
Definition bigT : Typ := Named 12 "Big" None None.
Definition bigArray : Typ := Array 13 intT 13.

Definition exampleUnderlying (t : Typ) : Typ :=
  match t with
  | Named 10 _ _ _ => pointStruct
  | Named 12 _ _ _ => bigArray
  | _ => t
  end.

Fixpoint exampleSizeofRaw (t : Typ) : option Z :=
  match t with
  | Basic _ k =>
      Some match k with
           | Bool | Int8 | Uint8 => 1
           | Int16 | Uint16 => 2
           | Int32 | Uint32 | Float32 => 4
           | Complex128 | String_ => 16
           | _ => 8
           end
  | Pointer _ _ | Signature _ | OtherType _ => Some 8
  | Slice _ _ => Some 24
  | Array _ e n => (fun s => n * s) <$> exampleSizeofRaw e
  | Struct _ fs => Some (8 * Z.of_nat (length fs))
  | TypeParam _ _ => None
  | Named _ _ _ _ => Some 8
  end.

Definition exampleSizeof (t : Typ) : option Z :=
  exampleSizeofRaw (exampleUnderlying t).

#[local] Instance exampleLib : GoLib := {|
  PositionString p :=
    "main.go:" +:+ formatInt (p / 100) +:+ ":" +:+ formatInt (p mod 100);
  PositionLine p := p / 100;
  TypeString := exampleTypeString;
  Underlying := exampleUnderlying;
  Sizeof := exampleSizeof
|}.

(** ** Where the lowering descends

    A node of the syntax is an expression or a statement.  [lowers p n]
    holds when the writer of [p] hands [n] to [writeExpr] or [writeStmt],
    unless it records a diagnostic of its own or panics first.  The type
    of a composite literal, the key of a key-value pair and the selected
    name are never written through [writeExpr]; of an assignment only the
    first target and the first value are, of a return only its single
    result. *)

Inductive Node :=
| NE (e : Expr)
| NS (s : Stmt).

Inductive lowers : Node -> Node -> Prop :=
| lowers_funclit tv p tids sig body s :
    s ∈ body -> lowers (NE (FuncLit tv p tids sig body)) (NS s)
| lowers_elt tv t lb elts e :
    e ∈ elts -> lowers (NE (CompositeLit tv t lb elts)) (NE e)
| lowers_paren tv p x : lowers (NE (ParenExpr tv p x)) (NE x)
| lowers_selector tv x sel : lowers (NE (SelectorExpr tv x sel)) (NE x)
| lowers_index_x tv x i : lowers (NE (IndexExpr tv x i)) (NE x)
| lowers_index_i tv x i : lowers (NE (IndexExpr tv x i)) (NE i)
| lowers_call_arg tv fn args a :
    a ∈ args -> lowers (NE (CallExpr tv fn args)) (NE a)
| lowers_call_fun tv fn args :
    (forall tv' x sel, fn <> SelectorExpr tv' x sel) ->
    lowers (NE (CallExpr tv fn args)) (NE fn)
| lowers_call_base tv tv' x sel args :
    lowers (NE (CallExpr tv (SelectorExpr tv' x sel) args)) (NE x)
| lowers_star tv p x : lowers (NE (StarExpr tv p x)) (NE x)
| lowers_unary tv p op x : lowers (NE (UnaryExpr tv p op x)) (NE x)
| lowers_binary_x tv x p op y : lowers (NE (BinaryExpr tv x p op y)) (NE x)
| lowers_binary_y tv x p op y : lowers (NE (BinaryExpr tv x p op y)) (NE y)
| lowers_keyvalue tv k v : lowers (NE (KeyValueExpr tv k v)) (NE v)
| lowers_exprstmt x : lowers (NS (ExprStmt x)) (NE x)
| lowers_assign_lhs l0 lhs p tok rhs :
    lowers (NS (AssignStmt (l0 :: lhs) p tok rhs)) (NE l0)
| lowers_assign_rhs lhs p tok r0 rhs :
    lowers (NS (AssignStmt lhs p tok (r0 :: rhs))) (NE r0)
| lowers_return r0 rs : lowers (NS (ReturnStmt (r0 :: rs))) (NE r0)
| lowers_block l s : s ∈ l -> lowers (NS (BlockStmt l)) (NS s)
| lowers_if_init i cond body els :
    lowers (NS (IfStmt (Some i) cond body els)) (NS i)
| lowers_if_cond init cond body els :
    lowers (NS (IfStmt init cond body els)) (NE cond)
| lowers_if_body init cond body els s :
    s ∈ body -> lowers (NS (IfStmt init cond body els)) (NS s)
| lowers_if_else init cond body e :
    lowers (NS (IfStmt init cond body (Some e))) (NS e)
| lowers_for_init i cond post body :
    lowers (NS (ForStmt (Some i) cond post body)) (NS i)
| lowers_for_cond init e post body :
    lowers (NS (ForStmt init (Some e) post body)) (NE e)
| lowers_for_post init cond p body :
    lowers (NS (ForStmt init cond (Some p) body)) (NS p)
| lowers_for_body init cond post body s :
    s ∈ body -> lowers (NS (ForStmt init cond post body)) (NS s).

Section Nodes.
Context `{GoLib}.

Definition writeNode (n : Node) : Compiler -> option Compiler :=
  match n with
  | NE e => writeExpr e
  | NS s => writeStmt s
  end.

(** Writing the node leaves diagnostics, in whatever state it starts. *)
Definition rejected (n : Node) : Prop :=
  forall c c', writeNode n c = Some c' -> errored c' = true.

End Nodes.

(** ** The reference graph of the top-level type specs *)

Section Graph.
Variable topLevel : gmap N TypeSpec.

(** The top-level spec an identifier points to, if any: the test of
    [collectTypeSpecs]. *)
Definition resolve (ident : Ident) : option TypeSpec :=
  ObjDecl ident ≫= (fun a => topLevel !! a).

(** One of the identifiers points to [X]. *)
Definition refersTo (idents : list Ident) (X : TypeSpec) : Prop :=
  exists ident, ident ∈ idents /\ resolve ident = Some X.

(** The syntax of [A] mentions [B]. *)
Definition references (A B : TypeSpec) : Prop :=
  refersTo (specIdents A) B.

Definition reaches : TypeSpec -> TypeSpec -> Prop := rtc references.

(** Each spec is found under its own address. *)
Definition wfTop : Prop :=
  forall a ts, topLevel !! a = Some ts -> specAddr ts = a.
End Graph.

(** [B] comes before [A] in the list. *)
Definition precedes (L : list TypeSpec) (B A : TypeSpec) : Prop :=
  exists l1 l2, L = l1 ++ A :: l2 /\ B ∈ l1.

(** What one traversal adds to the collected set [V] and the list [L]. *)
Definition collectPost (topLevel : gmap N TypeSpec) (idents : list Ident)
    (V : gset N) (L : list TypeSpec) (V' : gset N) (L' : list TypeSpec)
  : Prop :=
  exists D,
    L' = L ++ D /\
    V' = V ∪ list_to_set (specAddr <$> D) /\
    NoDup (specAddr <$> D) /\
    (forall d, d ∈ D ->
       (specAddr d ∉ V) /\ topLevel !! specAddr d = Some d) /\
    (forall X, refersTo topLevel idents X -> specAddr X ∈ V') /\
    (forall d, d ∈ D ->
       exists X, refersTo topLevel idents X /\ reaches topLevel X d) /\
    (forall d B, d ∈ D -> references topLevel d B -> specAddr B ∈ V') /\
    (forall d B, d ∈ D -> references topLevel d B ->
       precedes (L ++ D) B d \/ specAddr B ∈ V \/ reaches topLevel B d).

(** ** Example programs

    [type Point struct { x, y int }], a method with a pointer receiver, a
    function that takes a [Big] by value, a function with two results and
    an assignment to two targets, and two types that refer to each
    other. *)

Definition noTV : TypeAndValue := mkTV None false false.
Definition valueTV (t : Typ) : TypeAndValue := mkTV (Some t) false false.
Definition varTV (t : Typ) : TypeAndValue := mkTV (Some t) true false.

Definition plainIdent (name : string) (pos : Z) : Ident :=
  mkIdent name pos None NoObject noTV None.
Definition varIdent (pos : Z) (v : Var) : Ident :=
  mkIdent (varName v) pos None (VarObject v) (varTV (varType v)) None.
Definition typeIdent (name : string) (pos : Z) (spec : N) : Ident :=
  mkIdent name pos (Some spec) OtherObject noTV None.
Definition funcIdent (name : string) (pos : Z) (sig : Sig) : Ident :=
  mkIdent name pos None (FuncObject "main" sig) noTV None.
Definition intLit (value : string) (pos : Z) : Expr :=
  BasicLit (valueTV intT) pos INT value.

Definition fieldX : Var := mkVar 20 intT 120 "x".
Definition fieldY : Var := mkVar 21 intT 123 "y".

Definition specPoint : TypeSpec :=
  mkTypeSpec 300 "Point" None
    (StructType [mkField ["x"; "y"] 125 (Some intT)])
    [typeIdent "Point" 106 300; plainIdent "x" 120; plainIdent "y" 123;
     plainIdent "int" 125].

Definition specBig : TypeSpec :=
  mkTypeSpec 301 "Big" None (OtherTypeExpr 210 bigArray)
    [typeIdent "Big" 206 301; plainIdent "int" 214].

(** [func (p *Point) Scale(k int) { p.x = p.x * k }] *)
Definition recvP : Var := mkVar 40 (Pointer 41 pointT) 307 "p".
Definition paramK : Var := mkVar 42 intT 323 "k".
Definition sigScale : Sig := mkSig (Some recvP) None [paramK] [].

Definition selectPX (pos : Z) : Expr :=
  SelectorExpr (varTV intT) (IdentExpr (varIdent pos recvP))
    (varIdent (pos + 2) fieldX).

Definition declScale : FuncDecl :=
  mkFuncDecl 400 [plainIdent "p" 307; typeIdent "Point" 310 300]
    (funcIdent "Scale" 317 sigScale) [plainIdent "k" 323; plainIdent "int" 325]
    "main" sigScale 0
    (Some [AssignStmt [selectPX 402] 406 ASSIGN
             [BinaryExpr (valueTV intT) (selectPX 408) 412 MUL
                (IdentExpr (varIdent 414 paramK))]]).

(** [func main() { q := Point{x: 1, y: 2}; q.Scale(3) }] *)
Definition localQ : Var := mkVar 43 pointT 602 "q".
Definition sigMain : Sig := mkSig None None [] [].

Definition pointLit (pos : Z) (elts : list Expr) : Expr :=
  CompositeLit (valueTV pointT)
    (Some (IdentExpr (mkIdent "Point" pos (Some 300%N) OtherObject
                        (valueTV pointT) None)))
    (pos + 5) elts.

Definition keyX (pos : Z) (value : string) : Expr :=
  KeyValueExpr noTV (IdentExpr (varIdent pos fieldX)) (intLit value (pos + 3)).
Definition keyY (pos : Z) (value : string) : Expr :=
  KeyValueExpr noTV (IdentExpr (varIdent pos fieldY)) (intLit value (pos + 3)).

Definition callScale (base : Expr) (pos : Z) : Expr :=
  CallExpr noTV
    (SelectorExpr noTV base (funcIdent "Scale" pos sigScale))
    [intLit "3" (pos + 6)].

Definition declMain : FuncDecl :=
  mkFuncDecl 401 [] (funcIdent "main" 506 sigMain) [] "main" sigMain 0
    (Some [AssignStmt [IdentExpr (varIdent 602 localQ)] 604 DEFINE
             [pointLit 607 [keyX 613 "1"; keyY 619 "2"]];
           ExprStmt (callScale (IdentExpr (varIdent 702 localQ)) 704)]).

Definition progOK : list File :=
  [[GenDecl [TypeSpec_ specPoint]; FuncDecl_ declScale; FuncDecl_ declMain]].

(** [func sum(b Big) int { return 0 }] *)
Definition paramB : Var := mkVar 44 bigT 810 "b".
Definition resultInt : Var := mkVar 45 intT 817 "".
Definition sigSum : Sig := mkSig None None [paramB] [resultInt].

Definition declSum : FuncDecl :=
  mkFuncDecl 402 [] (funcIdent "sum" 806 sigSum)
    [plainIdent "b" 810; typeIdent "Big" 812 301; plainIdent "int" 817]
    "main" sigSum 817
    (Some [ReturnStmt [intLit "0" 908]]).

Definition progBig : list File :=
  [[GenDecl [TypeSpec_ specBig]; FuncDecl_ declSum]].

(** [func two() (int, int) { a, b = 1, 2 }] *)
Definition sigTwo : Sig :=
  mkSig None None [] [mkVar 46 intT 1013 ""; mkVar 47 intT 1018 ""].
Definition localA : Var := mkVar 48 intT 1102 "a".
Definition localB : Var := mkVar 49 intT 1105 "b".

Definition assignTwo : Stmt :=
  AssignStmt [IdentExpr (varIdent 1102 localA); IdentExpr (varIdent 1105 localB)]
    1107 ASSIGN [intLit "1" 1109; intLit "2" 1112].

Definition declTwo : FuncDecl :=
  mkFuncDecl 403 [] (funcIdent "two" 1006 sigTwo)
    [plainIdent "int" 1013; plainIdent "int" 1018] "main" sigTwo 1012
    (Some [assignTwo]).

Definition progTwo : list File := [[FuncDecl_ declTwo]].

(** [type A struct { b *B }], [type B struct { a *A }] and
    [func useA() { v := A{} }]. *)
Definition typeA : Typ := Named 50 "A" None None.
Definition typeB : Typ := Named 51 "B" None None.

Definition specA : TypeSpec :=
  mkTypeSpec 310 "A" None
    (StructType [mkField ["b"] 1220 (Some (Pointer 52 typeB))])
    [typeIdent "A" 1206 310; plainIdent "b" 1218; typeIdent "B" 1221 311].
Definition specB : TypeSpec :=
  mkTypeSpec 311 "B" None
    (StructType [mkField ["a"] 1320 (Some (Pointer 53 typeA))])
    [typeIdent "B" 1306 311; plainIdent "a" 1318; typeIdent "A" 1321 310].

Definition declUseA : FuncDecl :=
  mkFuncDecl 404 [] (funcIdent "useA" 1406 sigMain) [] "main" sigMain 0
    (Some [AssignStmt [IdentExpr (varIdent 1502 (mkVar 54 typeA 1502 "v"))]
             1504 DEFINE
             [CompositeLit (valueTV typeA)
                (Some (IdentExpr (typeIdent "A" 1507 310))) 1508 []]]).

Definition progMutual : list File :=
  [[GenDecl [TypeSpec_ specA; TypeSpec_ specB]; FuncDecl_ declUseA]].


(** [[]Point{{y: 2, x: 1}}]: the inner literal has no type of its own. *)
Definition sliceOfPoint : Typ := Slice 56 pointT.
Definition elidedLit : Expr :=
  CompositeLit (valueTV sliceOfPoint)
    (Some (OtherExpr noTV 1707 [typeIdent "Point" 1709 300])) 1714
    [CompositeLit (valueTV pointT) None 1715 [keyY 1716 "2"; keyX 1722 "1"]].

Definition declElided : FuncDecl :=
  mkFuncDecl 405 [] (funcIdent "points" 1606 sigMain) [] "main" sigMain 0
    (Some [AssignStmt [IdentExpr (varIdent 1702
                                    (mkVar 57 sliceOfPoint 1702 "ps"))]
             1705 DEFINE [elidedLit]]).

Definition progElided : list File :=
  [[GenDecl [TypeSpec_ specPoint]; FuncDecl_ declElided]].

Definition exampleFrontend (directoryPath : string) : Frontend :=
  if String.eqb directoryPath "ok" then Resolved progOK
  else if String.eqb directoryPath "big" then Resolved progBig
  else if String.eqb directoryPath "two" then Resolved progTwo
  else if String.eqb directoryPath "mutual" then Resolved progMutual
  else if String.eqb directoryPath "elided" then Resolved progElided
  else FrontendError ("open " +:+ directoryPath
                        +:+ ": no such file or directory").

(** ** Notions for the remaining functions *)

(** The output of [c'] is that of [c] followed by more text. *)
Definition appendsOutput (c c' : Compiler) : Prop :=
  exists s, output c' = output c +:+ s.

(** The indices the map holds for the keys of a literal, a missing key
    counting as zero, as [c.fieldIndices[field]] does; [None] when an
    element is not a pair whose key is an identifier of a variable. *)
Fixpoint keyIndices (m : gmap N Z) (elts : list Expr) : option (list Z) :=
  match elts with
  | nil => Some []
  | KeyValueExpr _ (IdentExpr key) _ :: r =>
      match ObjectOf key with
      | VarObject field =>
          cons (default 0 (m !! varAddr field)) <$> keyIndices m r
      | _ => None
      end
  | _ => None
  end.

(** The positions, in the field list of a struct, of the keys of a
    literal; [None] when an element is not a pair whose key is an
    identifier of one of the fields. *)
Fixpoint keyPositions (fields : list N) (elts : list Expr)
  : option (list nat) :=
  match elts with
  | nil => Some []
  | KeyValueExpr _ (IdentExpr key) _ :: r =>
      match ObjectOf key with
      | VarObject field =>
          k ← fst <$> list_find (fun f => f = varAddr field) fields;
          ks ← keyPositions fields r;
          Some (k :: ks)
      | _ => None
      end
  | _ => None
  end.

(** No index is below the one before it, starting from [last]. *)
Fixpoint nondecreasing (last : Z) (l : list Z) : bool :=
  match l with
  | nil => true
  | i :: r => negb (i <? last) && nondecreasing i r
  end.

(** The operators the writers pass through. *)
Definition unarySupported (op : Token) : bool :=
  match op with
  | ADD | SUB | NOT | AND => true
  | _ => false
  end.

Definition binarySupported (op : Token) : bool :=
  match op with
  | EQL | NEQ | LSS | LEQ | GTR | GEQ
  | ADD | SUB | MUL | QUO | REM
  | AND | OR | XOR | SHL | SHR => true
  | _ => false
  end.

Definition literalSupported (kind : Token) : bool :=
  match kind with
  | INT | FLOAT | STRING => true
  | _ => false
  end.

Definition assignSupported (tok : Token) : bool :=
  match tok with
  | DEFINE | ASSIGN
  | ADD_ASSIGN | SUB_ASSIGN | MUL_ASSIGN | QUO_ASSIGN | REM_ASSIGN
  | AND_ASSIGN | OR_ASSIGN | XOR_ASSIGN | SHL_ASSIGN | SHR_ASSIGN => true
  | _ => false
  end.

Definition branchSupported (tok : Token) : bool :=
  match tok with
  | BREAK | CONTINUE => true
  | _ => false
  end.

Definition isIdentExpr (e : Expr) : bool :=
  match e with
  | IdentExpr _ => true
  | _ => false
  end.

(** The kind of a type that may not be passed by value. *)
Definition byValueKind (typ : Typ) : option string :=
  match typ with
  | Array _ _ _ => Some "array"
  | Slice _ _ => Some "slice"
  | _ => None
  end.

(** The statements written with a closing brace last: a block, a loop, a
    conditional without alternative or whose alternative ends so. *)
Fixpoint endsInBlock (s : Stmt) : bool :=
  match s with
  | BlockStmt _ | ForStmt _ _ _ _ => true
  | IfStmt _ _ _ None => true
  | IfStmt _ _ _ (Some e) => endsInBlock e
  | _ => false
  end.

(** The forms for which a writer records a diagnostic of its own. *)
Inductive unsupportedNode : Node -> Prop :=
| un_other_expr tv pos ids : unsupportedNode (NE (OtherExpr tv pos ids))
| un_other_stmt pos ids : unsupportedNode (NS (OtherStmt pos ids))
| un_literal tv pos kind value :
    literalSupported kind = false ->
    unsupportedNode (NE (BasicLit tv pos kind value))
| un_unary tv pos op x :
    unarySupported op = false -> unsupportedNode (NE (UnaryExpr tv pos op x))
| un_address tv pos x :
    Addressable (exprTV x) = false ->
    unsupportedNode (NE (UnaryExpr tv pos AND x))
| un_binary tv x pos op y :
    binarySupported op = false ->
    unsupportedNode (NE (BinaryExpr tv x pos op y))
| un_key tv k v :
    isIdentExpr k = false -> unsupportedNode (NE (KeyValueExpr tv k v))
| un_assign l0 l1 lhs pos tok rhs :
    unsupportedNode (NS (AssignStmt (l0 :: l1 :: lhs) pos tok rhs))
| un_assign_op l0 pos tok rhs :
    assignSupported tok = false ->
    unsupportedNode (NS (AssignStmt [l0] pos tok rhs))
| un_return r0 r1 rs : unsupportedNode (NS (ReturnStmt (r0 :: r1 :: rs)))
| un_branch pos tok label :
    branchSupported tok = false ->
    unsupportedNode (NS (BranchStmt pos tok label)).


Section Safety.
Context `{GoLib}.




End Safety.

(** [func bad() { r := &Point{x: 1}; for { break } }] in pieces: the
    address of a literal, and a loop. *)
Definition addressOfLit : Expr :=
  UnaryExpr (valueTV (Pointer 58 pointT)) 1907 AND (pointLit 1908 [keyX 1914 "1"]).

Definition loopStmt : Stmt :=
  ForStmt None None None [BranchStmt 2003 BREAK None].

Definition declBad : FuncDecl :=
  mkFuncDecl 406 [] (funcIdent "bad" 1806 sigMain) [] "main" sigMain 0
    (Some [AssignStmt
             [IdentExpr (varIdent 1902 (mkVar 59 (Pointer 58 pointT) 1902 "r"))]
             1904 DEFINE [addressOfLit];
           loopStmt]).

Definition progBad : list File :=
  [[GenDecl [TypeSpec_ specPoint]; FuncDecl_ declBad]].

(** [func take(s []int) {}] *)
Definition sliceOfInt : Typ := Slice 60 intT.
Definition paramS : Var := mkVar 61 sliceOfInt 2111 "s".
Definition declTake : FuncDecl :=
  mkFuncDecl 407 [] (funcIdent "take" 2106 (mkSig None None [paramS] []))
    [plainIdent "s" 2111; plainIdent "int" 2115] "main"
    (mkSig None None [paramS] []) 0 (Some []).

Definition progTake : list File := [[FuncDecl_ declTake]].

(** [type Count = int] *)
Definition specCount : TypeSpec :=
  mkTypeSpec 321 "Count" None (OtherTypeExpr 2314 intT)
    [typeIdent "Count" 2306 321; plainIdent "int" 2314].

(** A parameter whose type is a type parameter. *)
Definition paramT : Var := mkVar 62 (TypeParam 63 "T") 2411 "t".

Definition exampleFrontend2 (directoryPath : string) : Frontend :=
  if String.eqb directoryPath "bad" then Resolved progBad
  else if String.eqb directoryPath "take" then Resolved progTake
  else exampleFrontend directoryPath.

(** [Point{y: 2, x: 1}] *)
Definition pointTypeExpr (pos : Z) : Expr :=
  IdentExpr (mkIdent "Point" pos (Some 300%N) OtherObject (valueTV pointT)
               None).
Definition swappedLit : Expr := pointLit 2507 [keyY 2513 "2"; keyX 2519 "1"].

(** States reached by lowering pieces of the examples from the start. *)
Definition loweredSwapped : Compiler :=
  default newCompiler (writeExpr swappedLit newCompiler).
Definition loweredLoop : Compiler :=
  default newCompiler (writeStmt loopStmt newCompiler).

(** What rendering a text leaves alone: the output, the indentation and
    the block-end flag. *)
Definition silent (c c' : Compiler) : Prop :=
  output c' = output c /\ indent c' = indent c /\
  atBlockEnd c' = atBlockEnd c.

(** The state in which [compile] leaves the first program. *)
Definition compiledOK : Compiler :=
  default newCompiler (compile (Resolved progOK)).

(** * Properties *)

Lemma string_app_assoc (a b c : string) : (a +:+ b) +:+ c = a +:+ (b +:+ c).
Proof.
  induction a as [|x a IH]; [reflexivity|].
  unfold String.app in *. simpl. by rewrite IH.
Qed.

Lemma string_app_nil_r (a : string) : a +:+ "" = a.
Proof.
  induction a as [|x a IH]; [reflexivity|].
  unfold String.app in *. simpl. by rewrite IH.
Qed.

Lemma string_length_app (a b : string) :
  String.length (a +:+ b) = (String.length a + String.length b)%nat.
Proof.
  induction a as [|x a IH]; [reflexivity|].
  unfold String.app in *. simpl. by rewrite IH.
Qed.

Lemma string_app_empty (a b : string) : a +:+ b = "" -> b = "".
Proof. destruct a; [done|discriminate]. Qed.

Lemma lastByte_app (a b : string) :
  b <> "" -> lastByte (a +:+ b) = lastByte b.
Proof.
  intros Hb. induction a as [|x a IH]; [done|].
  change (String x a +:+ b) with (String x (a +:+ b)).
  simpl. rewrite IH. destruct (a +:+ b) eqn:E; [|done].
  by apply string_app_empty in E.
Qed.

Section Basics.
Context `{GoLib}.

Lemma extends_refl c : extends c c.
Proof. exists "". by rewrite string_app_nil_r. Qed.

Lemma extends_trans c1 c2 c3 : extends c1 c2 -> extends c2 c3 -> extends c1 c3.
Proof.
  intros [s1 E1] [s2 E2]. exists (s1 +:+ s2).
  by rewrite E2, E1, string_app_assoc.
Qed.

Lemma extends_eq c c' : errors c' = errors c -> extends c c'.
Proof. intros E. exists "". by rewrite string_app_nil_r. Qed.

Lemma extends_errorf pos msg c : extends c (errorf pos msg c).
Proof. by exists (diagnostic pos msg). Qed.

Lemma extends_write s c : extends c (write s c).
Proof. by apply extends_eq. Qed.

Lemma extends_bracket c c1 :
  extends (set_indent (indent c + 1) c) c1 ->
  extends c (set_indent (indent c1 - 1) c1).
Proof. done. Qed.

Lemma errored_extends c c' : extends c c' -> errored c = true -> errored c' = true.
Proof.
  intros [s E]. unfold errored. rewrite E, string_length_app.
  destruct (String.length (errors c)); simpl; [discriminate | done].
Qed.

Lemma diagnostic_nonempty pos msg : String.length (diagnostic pos msg) <> 0%nat.
Proof.
  unfold diagnostic. rewrite !string_length_app. simpl. lia.
Qed.

Lemma errored_errorf pos msg c : errored (errorf pos msg c) = true.
Proof.
  unfold errored, errorf. simpl. rewrite string_length_app.
  pose proof (diagnostic_nonempty pos msg).
  destruct (String.length (errors c) + String.length (diagnostic pos msg))%nat eqn:E;
    [lia | done].
Qed.


Lemma lastByte_write s c : s <> "" -> lastByte (output (write s c)) = lastByte s.
Proof.
  intros Hs. unfold write. simpl.
  rewrite lastByte_app; [|by intros ?%string_app_empty].
  by rewrite lastByte_app.
Qed.

End Basics.

(** ** The spelling of types *)

Section Spelling.
Context `{GoLib}.

Lemma genTypeExpr_unfold typ pos c :
  genTypeExpr typ pos c =
  match genTypeExprs c !! addrOf typ with
  | Some result => (result, c)
  | None =>
      let '(result, c) := renderTypeExpr genTypeExpr typ pos c in
      let c := set_renderLog (renderLog c ++ [addrOf typ]) c in
      (result, set_genTypeExprs (<[addrOf typ := result]> (genTypeExprs c)) c)
  end.
Proof. destruct typ; reflexivity. Qed.


Lemma genTypeExpr_miss typ pos c :
  genTypeExprs c !! addrOf typ = None ->
  genTypeExpr typ pos c =
  let '(result, c) := renderTypeExpr genTypeExpr typ pos c in
  let c := set_renderLog (renderLog c ++ [addrOf typ]) c in
  (result, set_genTypeExprs (<[addrOf typ := result]> (genTypeExprs c)) c).
Proof. intros E. by rewrite genTypeExpr_unfold, E. Qed.

Lemma spellingStep_refl c : spellingStep c c.
Proof. unfold spellingStep. repeat split; auto using extends_refl. Qed.

Lemma spellingStep_trans c1 c2 c3 :
  spellingStep c1 c2 -> spellingStep c2 c3 -> spellingStep c1 c3.
Proof.
  unfold spellingStep. intros (? & ? & ? & ? & ? & ? & ? & ?)
    (? & ? & ? & ? & ? & ? & ? & ?).
  repeat split; try congruence. by eapply extends_trans.
Qed.

Lemma spellingStep_errorf pos msg c : spellingStep c (errorf pos msg c).
Proof. unfold spellingStep. repeat split; auto using extends_errorf. Qed.

Lemma spellingStep_store c c' a s l :
  spellingStep c c' ->
  spellingStep c (set_genTypeExprs (<[a := s]> (genTypeExprs (set_renderLog l c')))
                    (set_renderLog l c')).
Proof. unfold spellingStep, extends. simpl. tauto. Qed.

Lemma genTypeArgs_step pos l :
  Forall (fun t => forall c, spellingStep c (genTypeExpr t pos c).2) l ->
  forall first c, spellingStep c (genTypeArgs genTypeExpr pos l first c).2.
Proof.
  induction 1 as [|t r Ht _ IH]; intros first c; simpl.
  - apply spellingStep_refl.
  - specialize (Ht c). destruct (genTypeExpr t pos c) as [s c1].
    specialize (IH false c1).
    destruct (genTypeArgs genTypeExpr pos r false c1) as [rest c2].
    simpl in *. by eapply spellingStep_trans.
Qed.

Lemma renderTypeExpr_step typ pos c :
  match typ with
  | Pointer _ e | Array _ e _ | Slice _ e =>
      forall c, spellingStep c (genTypeExpr e pos c).2
  | Named _ _ _ (Some l) =>
      Forall (fun t => forall c, spellingStep c (genTypeExpr t pos c).2) l
  | _ => True
  end ->
  spellingStep c (renderTypeExpr genTypeExpr typ pos c).2.
Proof.
  destruct typ as [a k|a e|a n tps [l|]|a n|a|a e n|a e|a fs|a]; simpl; intros IH;
    try apply spellingStep_refl; try apply spellingStep_errorf.
  - destruct k; simpl;
      first [apply spellingStep_refl | apply spellingStep_errorf].
  - specialize (IH c). by destruct (genTypeExpr e pos c).
  - pose proof (genTypeArgs_step pos l IH true c) as Hs.
    by destruct (genTypeArgs genTypeExpr pos l true c).
  - specialize (IH c). by destruct (genTypeExpr e pos c).
  - specialize (IH c). by destruct (genTypeExpr e pos c).
Qed.

Lemma genTypeExpr_step typ pos c : spellingStep c (genTypeExpr typ pos c).2.
Proof.
  revert c. induction typ using Typ_ind'; intros c;
    rewrite genTypeExpr_unfold;
    (destruct (genTypeExprs c !! _); [apply spellingStep_refl|]);
    match goal with
    | |- context [renderTypeExpr genTypeExpr ?t pos c] =>
        pose proof (renderTypeExpr_step t pos c) as Hr;
        destruct (renderTypeExpr genTypeExpr t pos c) as [s c1]
    end; simpl in *; apply spellingStep_store, Hr; done.
Qed.

Lemma genTypeExpr_extends typ pos c : extends c (genTypeExpr typ pos c).2.
Proof. apply genTypeExpr_step. Qed.


End Spelling.

Section Cache.
Context `{GoLib}.


Lemma cacheStep_weaken S S' c c' :
  S ⊆ S' -> cacheStep S c c' -> cacheStep S' c c'.
Proof.
  intros HS (H1 & H2 & H3). split; [done|split; [|done]].
  intros k Hk. destruct (H2 k Hk); auto.
Qed.












End Cache.

Section SpellingClaims.
Context `{GoLib}.




(** C5.  The spelling of a type that is not yet in the cache: [bool] and
    [int] keep their names, [float32] is [float], [float64] is [double];
    a pointer is the spelling of its element followed by a star; an array
    is [gx::Array<E, N>] and a slice [gx::Slice<E>] over the spelling of
    the element; any other basic kind and any unrecognised shape records a
    diagnostic.  Every spelling but a pointer's and a signature's ends in
    one space, which [trimFinalSpace] removes where a spelling is embedded
    in another. *)
Theorem genTypeExpr_spelling typ pos c :
  genTypeExprs c !! addrOf typ = None ->
  let r := genTypeExpr typ pos c in
  match typ with
  | Basic _ Bool => r.1 = "bool " /\ errors r.2 = errors c
  | Basic _ Int => r.1 = "int " /\ errors r.2 = errors c
  | Basic _ Float32 => r.1 = "float " /\ errors r.2 = errors c
  | Basic _ Float64 => r.1 = "double " /\ errors r.2 = errors c
  | Basic _ _ | Struct _ _ | OtherType _ =>
      errors r.2
      = errors c +:+ diagnostic pos (TypeString typ +:+ " not supported")
  | Pointer _ e => r.1 = (genTypeExpr e pos c).1 +:+ "*"
  | Array _ e n =>
      r.1 = "gx::Array<" +:+ trimFinalSpace (genTypeExpr e pos c).1 +:+ ", "
              +:+ formatInt n +:+ "> "
  | Slice _ e =>
      r.1 = "gx::Slice<" +:+ trimFinalSpace (genTypeExpr e pos c).1 +:+ "> "
  | Named _ _ _ _ | TypeParam _ _ | Signature _ => True
  end.
Proof.
  intros Hc r. subst r. rewrite (genTypeExpr_miss _ _ _ Hc).
  destruct typ as [a k|a e|a n tps targs|a n|a|a e n|a e|a fs|a]; simpl;
    try done.
  - by destruct k.
  - by destruct (genTypeExpr e pos c).
  - by destruct (genTypeExpr e pos c).
  - by destruct (genTypeExpr e pos c).
Qed.



End SpellingClaims.

(** ** Induction over syntax *)

Section SyntaxInd.
Variable P : Expr -> Prop.
Variable Q : Stmt -> Prop.
Let optP (o : option Expr) := match o with Some e => P e | None => True end.
Let optQ (o : option Stmt) := match o with Some s => Q s | None => True end.
Hypothesis HIdent : forall id, P (IdentExpr id).
Hypothesis HBasicLit : forall tv p k v, P (BasicLit tv p k v).
Hypothesis HFuncLit : forall tv p tids sig body,
    Forall Q body -> P (FuncLit tv p tids sig body).
Hypothesis HCompositeLit : forall tv t lb elts,
    optP t -> Forall P elts -> P (CompositeLit tv t lb elts).
Hypothesis HParen : forall tv p x, P x -> P (ParenExpr tv p x).
Hypothesis HSelector : forall tv x sel, P x -> P (SelectorExpr tv x sel).
Hypothesis HIndex : forall tv x i, P x -> P i -> P (IndexExpr tv x i).
Hypothesis HCall : forall tv f args,
    P f -> (forall tv' x sel, f = SelectorExpr tv' x sel -> P x) ->
    Forall P args -> P (CallExpr tv f args).
Hypothesis HStar : forall tv p x, P x -> P (StarExpr tv p x).
Hypothesis HUnary : forall tv p op x, P x -> P (UnaryExpr tv p op x).
Hypothesis HBinary : forall tv x p op y,
    P x -> P y -> P (BinaryExpr tv x p op y).
Hypothesis HKeyValue : forall tv k v, P k -> P v -> P (KeyValueExpr tv k v).
Hypothesis HOtherExpr : forall tv p ids, P (OtherExpr tv p ids).
Hypothesis HExprStmt : forall x, P x -> Q (ExprStmt x).
Hypothesis HAssign : forall lhs p tok rhs,
    Forall P lhs -> Forall P rhs -> Q (AssignStmt lhs p tok rhs).
Hypothesis HReturn : forall rs, Forall P rs -> Q (ReturnStmt rs).
Hypothesis HBranch : forall p tok l, Q (BranchStmt p tok l).
Hypothesis HBlock : forall l, Forall Q l -> Q (BlockStmt l).
Hypothesis HIf : forall init cond body els,
    optQ init -> P cond -> Forall Q body -> optQ els ->
    Q (IfStmt init cond body els).
Hypothesis HFor : forall init cond post body,
    optQ init -> optP cond -> optQ post -> Forall Q body ->
    Q (ForStmt init cond post body).
Hypothesis HOtherStmt : forall p ids, Q (OtherStmt p ids).

Fixpoint Expr_ind' (e : Expr) : P e :=
  let exprs := fix go (l : list Expr) : Forall P l :=
                 match l with
                 | nil => @List.Forall_nil _ P
                 | x :: r => @List.Forall_cons _ P x r (Expr_ind' x) (go r)
                 end in
  let stmts := fix go (l : list Stmt) : Forall Q l :=
                 match l with
                 | nil => @List.Forall_nil _ Q
                 | x :: r => @List.Forall_cons _ Q x r (Stmt_ind' x) (go r)
                 end in
  match e with
  | IdentExpr id => HIdent id
  | BasicLit tv p k v => HBasicLit tv p k v
  | FuncLit tv p tids sig body => HFuncLit tv p tids sig body (stmts body)
  | CompositeLit tv t lb elts =>
      HCompositeLit tv t lb elts
        (match t return optP t with
         | Some t => Expr_ind' t
         | None => I
         end) (exprs elts)
  | ParenExpr tv p x => HParen tv p x (Expr_ind' x)
  | SelectorExpr tv x sel => HSelector tv x sel (Expr_ind' x)
  | IndexExpr tv x i => HIndex tv x i (Expr_ind' x) (Expr_ind' i)
  | CallExpr tv f args =>
      HCall tv f args (Expr_ind' f)
        (match f return forall tv' x sel, f = SelectorExpr tv' x sel -> P x
         with
         | SelectorExpr tv0 x0 sel0 =>
             fun tv' x sel E =>
               match E in _ = g
                     return match g with
                            | SelectorExpr _ y _ => P y
                            | _ => True
                            end with
               | eq_refl => Expr_ind' x0
               end
         | _ => fun tv' x sel E => ltac:(discriminate E)
         end) (exprs args)
  | StarExpr tv p x => HStar tv p x (Expr_ind' x)
  | UnaryExpr tv p op x => HUnary tv p op x (Expr_ind' x)
  | BinaryExpr tv x p op y => HBinary tv x p op y (Expr_ind' x) (Expr_ind' y)
  | KeyValueExpr tv k v => HKeyValue tv k v (Expr_ind' k) (Expr_ind' v)
  | OtherExpr tv p ids => HOtherExpr tv p ids
  end
with Stmt_ind' (s : Stmt) : Q s :=
  let exprs := fix go (l : list Expr) : Forall P l :=
                 match l with
                 | nil => @List.Forall_nil _ P
                 | x :: r => @List.Forall_cons _ P x r (Expr_ind' x) (go r)
                 end in
  let stmts := fix go (l : list Stmt) : Forall Q l :=
                 match l with
                 | nil => @List.Forall_nil _ Q
                 | x :: r => @List.Forall_cons _ Q x r (Stmt_ind' x) (go r)
                 end in
  match s with
  | ExprStmt x => HExprStmt x (Expr_ind' x)
  | AssignStmt lhs p tok rhs => HAssign lhs p tok rhs (exprs lhs) (exprs rhs)
  | ReturnStmt rs => HReturn rs (exprs rs)
  | BranchStmt p tok l => HBranch p tok l
  | BlockStmt l => HBlock l (stmts l)
  | IfStmt init cond body els =>
      HIf init cond body els
        (match init return optQ init with
         | Some i => Stmt_ind' i
         | None => I
         end)
        (Expr_ind' cond) (stmts body)
        (match els return optQ els with
         | Some e => Stmt_ind' e
         | None => I
         end)
  | ForStmt init cond post body =>
      HFor init cond post body
        (match init return optQ init with
         | Some i => Stmt_ind' i
         | None => I
         end)
        (match cond return optP cond with
         | Some e => Expr_ind' e
         | None => I
         end)
        (match post return optQ post with
         | Some p => Stmt_ind' p
         | None => I
         end)
        (stmts body)
  | OtherStmt p ids => HOtherStmt p ids
  end.

Lemma syntax_ind : (forall e, P e) /\ (forall s, Q s).
Proof. split; [exact Expr_ind' | exact Stmt_ind']. Qed.
End SyntaxInd.

(** ** What every step of the lowering preserves

    A relation between states that is reflexive and transitive and holds
    across each primitive state change holds across every writer. *)

Section Closure.
Context `{GoLib}.
Variable R : Compiler -> Compiler -> Prop.
Hypothesis R_refl : forall c, R c c.
Hypothesis R_trans : forall c1 c2 c3, R c1 c2 -> R c2 c3 -> R c1 c3.
Hypothesis R_write : forall s c, R c (write s c).
Hypothesis R_errorf : forall pos msg c, R c (errorf pos msg c).
Hypothesis R_bracket : forall c c1,
    R (set_indent (indent c + 1) c) c1 -> R c (set_indent (indent c1 - 1) c1).
Hypothesis R_atBlockEnd : forall b c, R c (set_atBlockEnd b c).
Hypothesis R_fields : forall m c, R c (set_fieldIndices m c).
Hypothesis R_type : forall typ pos c, R c (genTypeExpr typ pos c).2.
Hypothesis R_decls : forall m c, R c (set_genTypeDecls m c).
Hypothesis R_defns : forall m c, R c (set_genTypeDefns m c).
Hypothesis R_funcs : forall m c, R c (set_genFuncDecls m c).

Let okE (wE : Expr -> Compiler -> option Compiler) (x : Expr) : Prop :=
  forall c c', wE x c = Some c' -> R c c'.
Let okS (wS : Stmt -> Compiler -> option Compiler) (s : Stmt) : Prop :=
  forall c c', wS s c = Some c' -> R c c'.

Ltac bindE :=
  match goal with
  | H : (?m ≫= _) = Some _ |- _ =>
      let E := fresh "E" in
      destruct m eqn:E; cbn [mbind option_bind] in H; [|discriminate H]
  | H : Some _ = Some _ |- _ => injection H as <-
  | H : None = Some _ |- _ => discriminate H
  end.

Ltac useIH :=
  match goal with
  | IH : okE ?w ?x, E : ?w ?x _ = Some _ |- _ => apply IH in E
  | IH : okS ?w ?x, E : ?w ?x _ = Some _ |- _ => apply IH in E
  end.

Ltac chain :=
  repeat first
    [ apply R_refl
    | assumption
    | match goal with
      | |- R _ (write _ _) => eapply R_trans; [|apply R_write]
      | |- R _ (errorf _ _ _) => eapply R_trans; [|apply R_errorf]
      | |- R _ (set_atBlockEnd _ _) => eapply R_trans; [|apply R_atBlockEnd]
      | |- R _ (set_fieldIndices _ _) => eapply R_trans; [|apply R_fields]
      | |- R _ (set_genTypeDecls _ _) => eapply R_trans; [|apply R_decls]
      | |- R _ (set_genTypeDefns _ _) => eapply R_trans; [|apply R_defns]
      | |- R _ (set_genFuncDecls _ _) => eapply R_trans; [|apply R_funcs]
      | |- R _ (if ?x then _ else _) => destruct x
      | |- R _ (match ?x with _ => _ end) => destruct x
      | Hr : R _ ?b |- R _ ?b => eapply R_trans; [|exact Hr]
      end ].

Ltac typeE :=
  match goal with
  | |- context [genTypeExpr ?t ?p ?c] =>
      let Hr := fresh "Hr" in
      pose proof (R_type t p c) as Hr;
      destruct (genTypeExpr t p c); simpl in Hr
  | H : context [genTypeExpr ?t ?p ?c] |- _ =>
      let Hr := fresh "Hr" in
      pose proof (R_type t p c) as Hr;
      destruct (genTypeExpr t p c); simpl in Hr
  end.

Lemma writeIdent_R ident c : R c (writeIdent ident c).
Proof. unfold writeIdent. chain. Qed.

Lemma writeBasicLit_R pos kind value c : R c (writeBasicLit pos kind value c).
Proof. unfold writeBasicLit. chain. Qed.

Lemma writeBranchStmt_R tokPos tok c : R c (writeBranchStmt tokPos tok c).
Proof. unfold writeBranchStmt. chain. Qed.

Lemma writeFuncLitParams_R params first c :
  R c (writeFuncLitParams params first c).
Proof.
  revert first c. induction params as [|p r IH]; intros first c; simpl.
  - apply R_refl.
  - typeE. eapply R_trans; [|apply IH]. chain.
Qed.

Lemma writeTypeArgs_R typeArgs pos first c :
  R c (writeTypeArgs typeArgs pos first c).
Proof.
  revert first c. induction typeArgs as [|t r IH]; intros first c; simpl.
  - apply R_refl.
  - typeE. eapply R_trans; [|apply IH]. chain.
Qed.

Lemma computeFieldIndices_R fields c : R c (computeFieldIndices fields c).
Proof.
  unfold computeFieldIndices. destruct fields; [apply R_refl|]. chain.
Qed.

Lemma checkFieldOrder_R pos elts lastIndex c c' :
  checkFieldOrder pos elts lastIndex c = Some c' -> R c c'.
Proof.
  revert lastIndex. induction elts as [|e r IH]; intros lastIndex; simpl.
  - intros [= <-]. apply R_refl.
  - destruct e; try discriminate. destruct e1; try discriminate.
    destruct (ObjectOf id); try discriminate.
    destruct (_ <? _); [intros [= <-]; chain | apply IH].
Qed.

Lemma writeStmtList_R wS list :
  Forall (okS wS) list ->
  forall c c', writeStmtList wS list c = Some c' -> R c c'.
Proof.
  induction 1 as [|s r Hs _ IH]; intros c c' E; simpl in E.
  - bindE. apply R_refl.
  - bindE. useIH. apply IH in E. eapply R_trans; [|exact E]. chain.
Qed.

Lemma writeBlockStmt_R wS list :
  Forall (okS wS) list ->
  forall c c', writeBlockStmt wS list c = Some c' -> R c c'.
Proof.
  intros Hl c c' E. unfold writeBlockStmt in E. bindE. bindE.
  apply (writeStmtList_R _ _ Hl) in E0.
  eapply R_trans; [|apply R_atBlockEnd]. eapply R_trans; [|apply R_write].
  eapply R_trans; [apply R_write|]. by apply R_bracket.
Qed.

Lemma writeFuncLit_R wS sig body :
  Forall (okS wS) body ->
  forall c c', writeFuncLit wS sig body c = Some c' -> R c c'.
Proof.
  intros Hl c c' E. unfold writeFuncLit in E. bindE. bindE.
  apply (writeBlockStmt_R _ _ Hl) in E0.
  eapply R_trans; [|apply R_atBlockEnd].
  eapply R_trans; [|exact E0].
  eapply R_trans; [|apply R_write].
  eapply R_trans; [|apply writeFuncLitParams_R]. chain.
Qed.

Lemma writeEltsInline_R wE elts :
  Forall (okE wE) elts ->
  forall first c c', writeEltsInline wE elts first c = Some c' -> R c c'.
Proof.
  induction 1 as [|e r He _ IH]; intros first c c' E; simpl in E.
  - bindE. apply R_refl.
  - bindE. useIH. apply IH in E. eapply R_trans; [|exact E]. chain.
Qed.

Lemma writeEltsLines_R wE elts :
  Forall (okE wE) elts ->
  forall c c', writeEltsLines wE elts c = Some c' -> R c c'.
Proof.
  induction 1 as [|e r He _ IH]; intros c c' E; simpl in E.
  - bindE. apply R_refl.
  - bindE. useIH. apply IH in E. eapply R_trans; [|exact E]. chain.
Qed.

Lemma writeArgs_R wE method args :
  Forall (okE wE) args ->
  forall first c c', writeArgs wE method args first c = Some c' -> R c c'.
Proof.
  induction 1 as [|e r He _ IH]; intros first c c' E; simpl in E.
  - bindE. apply R_refl.
  - bindE. useIH. apply IH in E. eapply R_trans; [|exact E]. chain.
Qed.

Lemma writeCompositeLit_R wE tv pos type_ elts :
  Forall (okE wE) elts ->
  forall c c', writeCompositeLit wE tv pos type_ elts c = Some c' -> R c c'.
Proof.
  intros Hl c c' E. unfold writeCompositeLit in E.
  destruct (TypeOf tv) as [typ|]; cbn [mbind option_bind] in E; [|discriminate].
  typeE. bindE. bindE.
  eapply R_trans; [|apply R_write].
  assert (R c (write "{" (write s c0))) as Hc0 by chain. clear Hr.
  destruct elts as [|elt0 r]; [bindE; chain|].
  bindE.
  assert (R c c2) as Hc2.
  { clear E0. destruct elt0; try (bindE; chain).
    destruct type_ as [t|]; cbn [mbind option_bind] in E; [|discriminate].
    destruct (TypeOf (exprTV _)) as [ttyp|]; cbn [mbind option_bind] in E;
      [|discriminate].
    destruct (Underlying ttyp); try (bindE; chain).
    apply checkFieldOrder_R in E.
    eapply R_trans; [|exact E].
    eapply R_trans; [|apply computeFieldIndices_R]. chain. }
  clear E. destruct (_ =? _); bindE; bindE.
  - apply (writeEltsInline_R _ _ Hl) in E. chain.
  - apply (writeEltsLines_R _ _ Hl) in E.
    eapply R_trans; [exact Hc2|]. eapply R_trans; [apply R_write|].
    by apply R_bracket.
Qed.

Lemma writeParenExpr_R wE x :
  okE wE x -> forall c c', writeParenExpr wE x c = Some c' -> R c c'.
Proof.
  intros Hx c c' E. unfold writeParenExpr in E. bindE. bindE. useIH. chain.
Qed.

Lemma writeSelectorExpr_R wE x sel :
  okE wE x -> forall c c', writeSelectorExpr wE x sel c = Some c' -> R c c'.
Proof.
  intros Hx c c' E. unfold writeSelectorExpr in E. bindE. bindE. useIH.
  eapply R_trans; [|apply writeIdent_R]. chain.
Qed.

Lemma writeIndexExpr_R wE x index :
  okE wE x -> okE wE index ->
  forall c c', writeIndexExpr wE x index c = Some c' -> R c c'.
Proof.
  intros Hx Hi c c' E. unfold writeIndexExpr in E. bindE. bindE. bindE.
  apply Hi in E1. eapply R_trans; [|apply R_write].
  eapply R_trans; [|exact E1]. eapply R_trans; [|apply R_write].
  destruct (isPointer _).
  - bindE. bindE. useIH. chain.
  - useIH. chain.
Qed.

Lemma writeReceiver_R wE x recv :
  okE wE x -> forall c c', writeReceiver wE x recv c = Some c' -> R c c'.
Proof.
  intros Hx c c' E. unfold writeReceiver in E.
  destruct (_ && _); [bindE; bindE; useIH; chain|].
  destruct (_ && _); [bindE; bindE; useIH; chain|].
  useIH. chain.
Qed.

Lemma writeCallee_R wE fn :
  okE wE fn -> forall c c', writeCallee wE fn c = Some c' -> R c c'.
Proof.
  intros Hx c c' E. unfold writeCallee in E. bindE. bindE. useIH.
  eapply R_trans; [|apply R_write].
  destruct fn; [|chain..].
  destruct (Instance id); [|chain].
  eapply R_trans; [|apply R_write].
  eapply R_trans; [|apply writeTypeArgs_R]. chain.
Qed.

Lemma writeCallExpr_R wE fn args :
  okE wE fn ->
  (forall tv x sel, fn = SelectorExpr tv x sel -> okE wE x) ->
  Forall (okE wE) args ->
  forall c c', writeCallExpr wE fn args c = Some c' -> R c c'.
Proof.
  intros Hf Hx Hl c c' E. unfold writeCallExpr in E.
  bindE. destruct p as [method c1].
  assert (R c c1) as Hc1.
  { clear E. destruct fn; try (injection E0 as _ <-; apply R_refl).
    destruct (ObjectOf _); try discriminate;
      try (injection E0 as _ <-; apply R_refl).
    destruct (Recv _); [|injection E0 as _ <-; apply R_refl].
    bindE. injection E0 as _ <-.
    apply (writeReceiver_R _ _ _ (Hx _ _ _ eq_refl)) in E.
    eapply R_trans; [|exact E]. eapply R_trans; [|apply R_write].
    apply writeIdent_R. }
  clear E0. bindE. bindE. bindE.
  apply (writeArgs_R _ _ _ Hl) in E1.
  eapply R_trans; [|apply R_write]. eapply R_trans; [|exact E1].
  destruct method; [bindE; chain|].
  apply (writeCallee_R _ _ Hf) in E0. chain.
Qed.

Lemma writeStarExpr_R wE x :
  okE wE x -> forall c c', writeStarExpr wE x c = Some c' -> R c c'.
Proof. intros Hx c c' E. unfold writeStarExpr in E. useIH. chain. Qed.

Lemma writeUnaryExpr_R wE opPos op x :
  okE wE x -> forall c c', writeUnaryExpr wE opPos op x c = Some c' -> R c c'.
Proof.
  intros Hx c c' E. unfold writeUnaryExpr in E. useIH.
  eapply R_trans; [|exact E]. chain.
Qed.

Lemma writeBinaryExpr_R wE x opPos op y :
  okE wE x -> okE wE y ->
  forall c c', writeBinaryExpr wE x opPos op y c = Some c' -> R c c'.
Proof.
  intros Hx Hy c c' E. unfold writeBinaryExpr in E. bindE.
  apply Hx in E0. apply Hy in E.
  eapply R_trans; [|exact E]. chain.
Qed.

Lemma writeKeyValueExpr_R wE key value :
  okE wE value ->
  forall c c', writeKeyValueExpr wE key value c = Some c' -> R c c'.
Proof.
  intros Hv c c' E. unfold writeKeyValueExpr in E.
  destruct key; try (bindE; chain).
  useIH. eapply R_trans; [|exact E]. chain.
Qed.

Lemma writeAssignStmt_R wE lhs tokPos tok rhs :
  Forall (okE wE) lhs -> Forall (okE wE) rhs ->
  forall c c', writeAssignStmt wE lhs tokPos tok rhs c = Some c' -> R c c'.
Proof.
  intros Hl Hr c c' E. unfold writeAssignStmt in E.
  destruct lhs as [|lhs0 [|lhs1 lhs]]; [discriminate| |bindE; chain].
  bindE. destruct rhs as [|rhs0 rhs]; [discriminate|].
  apply Forall_cons_1 in Hl as [Hl _]. apply Forall_cons_1 in Hr as [Hr _].
  apply Hl in E0. apply Hr in E.
  eapply R_trans; [|exact E]. chain.
Qed.

Lemma writeReturnStmt_R wE results :
  Forall (okE wE) results ->
  forall c c', writeReturnStmt wE results c = Some c' -> R c c'.
Proof.
  intros Hl c c' E. unfold writeReturnStmt in E.
  destruct results as [|r0 [|r1 rs]]; [bindE; chain| |bindE; chain].
  apply Forall_cons_1 in Hl as [Hl _]. apply Hl in E.
  eapply R_trans; [|exact E]. chain.
Qed.

Lemma writeIfStmt_R wE wS init cond body els :
  match init with Some i => okS wS i | None => True end ->
  okE wE cond -> Forall (okS wS) body ->
  match els with Some e => okS wS e | None => True end ->
  forall c c', writeIfStmt wE wS init cond body els c = Some c' -> R c c'.
Proof.
  intros Hi Hc Hb He c c' E. unfold writeIfStmt in E.
  bindE. bindE. bindE.
  apply Hc in E1. apply (writeBlockStmt_R _ _ Hb) in E2.
  assert (R c c0) as Hc0.
  { destruct init; [|bindE; chain]. bindE. bindE. apply Hi in E3. chain. }
  assert (R c c2) as Hc2 by chain.
  destruct els; [|bindE; chain].
  apply He in E. eapply R_trans; [|exact E]. chain.
Qed.

Lemma writeForStmt_R wE wS init cond post body :
  match init with Some i => okS wS i | None => True end ->
  match cond with Some e => okE wE e | None => True end ->
  match post with Some p => okS wS p | None => True end ->
  Forall (okS wS) body ->
  forall c c', writeForStmt wE wS init cond post body c = Some c' -> R c c'.
Proof.
  intros Hi Hc Hp Hb c c' E. unfold writeForStmt in E.
  bindE. bindE. bindE.
  apply (writeBlockStmt_R _ _ Hb) in E.
  eapply R_trans; [|exact E]. eapply R_trans; [|apply R_write].
  assert (R c c0) as Hc0.
  { destruct init; [apply Hi in E0|bindE]; chain. }
  assert (R c c1) as Hc1.
  { destruct cond; [apply Hc in E1|bindE]; chain. }
  destruct post; [apply Hp in E2|bindE]; chain.
Qed.

Lemma writers_R :
  (forall e c c', writeExpr e c = Some c' -> R c c') /\
  (forall s c c', writeStmt s c = Some c' -> R c c').
Proof.
  apply (syntax_ind (okE writeExpr) (okS writeStmt)); unfold okE, okS;
    intros; simpl in *.
  - bindE. apply writeIdent_R.
  - bindE. apply writeBasicLit_R.
  - eapply writeFuncLit_R; [..|eassumption]; eauto.
  - eapply writeCompositeLit_R; [..|eassumption]; eauto.
  - eapply writeParenExpr_R; [..|eassumption]; eauto.
  - eapply writeSelectorExpr_R; [..|eassumption]; eauto.
  - eapply writeIndexExpr_R; [..|eassumption]; eauto.
  - eapply writeCallExpr_R; [..|eassumption]; eauto.
  - eapply writeStarExpr_R; [..|eassumption]; eauto.
  - eapply writeUnaryExpr_R; [..|eassumption]; eauto.
  - eapply writeBinaryExpr_R; [..|eassumption]; eauto.
  - eapply writeKeyValueExpr_R; [..|eassumption]; eauto.
  - bindE. apply R_errorf.
  - auto.
  - eapply writeAssignStmt_R; [..|eassumption]; eauto.
  - eapply writeReturnStmt_R; [..|eassumption]; eauto.
  - bindE. apply writeBranchStmt_R.
  - eapply writeBlockStmt_R; [..|eassumption]; eauto.
  - eapply writeIfStmt_R; [..|eassumption]; eauto.
  - eapply writeForStmt_R; [..|eassumption]; eauto.
  - bindE. apply R_errorf.
Qed.

Lemma genTypeDecl_R typeSpec c : R c (genTypeDecl typeSpec c).2.
Proof.
  unfold genTypeDecl. destruct (genTypeDecls c !! _); [apply R_refl|].
  destruct (specType typeSpec); simpl; try chain.
  typeE. simpl. chain.
Qed.

Lemma genFields_R fields c : R c (genFields fields c).2.
Proof.
  revert c. induction fields as [|f r IH]; intros c; simpl.
  - apply R_refl.
  - destruct (fieldTypeOf f); [|apply IH].
    typeE. specialize (IH c0). destruct (genFields r c0). simpl in *. chain.
Qed.

Lemma genTypeDefn_R typeSpec c : R c (genTypeDefn typeSpec c).2.
Proof.
  unfold genTypeDefn. destruct (genTypeDefns c !! _); [apply R_refl|].
  destruct (specType typeSpec); simpl; try chain.
  pose proof (genTypeDecl_R typeSpec c) as Hd.
  destruct (genTypeDecl typeSpec c) as [d c1].
  pose proof (genFields_R fields c1) as Hf.
  destruct (genFields fields c1). simpl in *. chain.
Qed.

Lemma addParam_R param c : R c (addParam param c).2.
Proof.
  unfold addParam. typeE. simpl.
  eapply R_trans; [|exact Hr]. chain.
Qed.

Lemma addParams_R params first c : R c (addParams params first c).2.
Proof.
  revert first c. induction params as [|p r IH]; intros first c; simpl.
  - apply R_refl.
  - pose proof (addParam_R p c) as Hp. destruct (addParam p c) as [s c1].
    specialize (IH false c1). destruct (addParams r false c1).
    simpl in *. chain.
Qed.

Lemma genResult_R decl c : R c (genResult decl c).2.
Proof.
  unfold genResult. destruct (Results (declSig decl)) as [|r0 [|r1 rs]].
  - destruct (_ && _); apply R_refl.
  - apply R_type.
  - apply R_errorf.
Qed.

Lemma genParams_R decl c : R c (genParams decl c).2.
Proof.
  unfold genParams.
  assert (R c (match Recv (declSig decl) with
               | Some r => addParam r c
               | None => ("", c)
               end).2) as Hr.
  { destruct (Recv _); [apply addParam_R|apply R_refl]. }
  destruct (match Recv (declSig decl) with
            | Some r => addParam r c
            | None => ("", c)
            end) as [rs c1].
  pose proof (addParams_R (Params (declSig decl))
                (negb (bool_decide (is_Some (Recv (declSig decl))))) c1) as Hp.
  destruct (addParams _ _ c1). simpl in *. chain.
Qed.

Lemma genFuncDecl_R decl c : R c (genFuncDecl decl c).2.
Proof.
  unfold genFuncDecl. destruct (genFuncDecls c !! _); [apply R_refl|].
  pose proof (genResult_R decl c) as Hr.
  destruct (genResult decl c) as [ret c1].
  pose proof (genParams_R decl c1) as Hp.
  destruct (genParams decl c1) as [ps c2]. simpl in *. chain.
Qed.

Lemma writeTypeDecls_R typeSpecs c : R c (writeTypeDecls typeSpecs c).
Proof.
  revert c. induction typeSpecs as [|ts r IH]; intros c; simpl.
  - apply R_refl.
  - pose proof (genTypeDecl_R ts c) as Hd. destruct (genTypeDecl ts c).
    simpl in *. eapply R_trans; [|apply IH]. chain.
Qed.

Lemma writeTypeDefns_R typeSpecs c : R c (writeTypeDefns typeSpecs c).
Proof.
  revert c. induction typeSpecs as [|ts r IH]; intros c; simpl.
  - apply R_refl.
  - pose proof (genTypeDefn_R ts c) as Hd. destruct (genTypeDefn ts c).
    simpl in *. eapply R_trans; [|apply IH]. chain.
Qed.

Lemma writeFuncDecls_R decls c : R c (writeFuncDecls decls c).
Proof.
  revert c. induction decls as [|d r IH]; intros c; simpl.
  - apply R_refl.
  - pose proof (genFuncDecl_R d c) as Hd. destruct (genFuncDecl d c).
    simpl in *. eapply R_trans; [|apply IH]. chain.
Qed.

Lemma writeFuncDefns_R decls c c' :
  writeFuncDefns decls c = Some c' -> R c c'.
Proof.
  revert c. induction decls as [|d r IH]; intros c E; simpl in E.
  - bindE. apply R_refl.
  - destruct (declBody d) as [body|]; [|by apply IH].
    pose proof (genFuncDecl_R d (write newline c)) as Hd.
    destruct (genFuncDecl d (write newline c)) as [s c1]. simpl in Hd.
    bindE. apply IH in E.
    apply writeBlockStmt_R in E0;
      [|apply Forall_forall; intros x _; exact (proj2 writers_R x)].
    eapply R_trans; [|exact E]. chain.
Qed.

(** The relation holds between the state in which the emission starts
    and the state in which [compile] ends. *)
Lemma compile_R files c :
  compile (Resolved files) = Some c -> R newCompiler c.
Proof.
  unfold compile. intros E. bindE. destruct p as [collected typeSpecs].
  apply writeFuncDefns_R in E. eapply R_trans; [|exact E].
  eapply R_trans; [|apply R_write].
  eapply R_trans; [|apply writeFuncDecls_R].
  eapply R_trans; [|apply R_write].
  eapply R_trans; [|apply writeTypeDefns_R].
  eapply R_trans; [|apply R_write].
  eapply R_trans; [|apply writeTypeDecls_R]. chain.
Qed.

End Closure.

Section Monotone.
Context `{GoLib}.

Lemma writeExpr_extends e c c' : writeExpr e c = Some c' -> extends c c'.
Proof.
  apply (writers_R extends); auto using extends_refl, extends_errorf,
    extends_write, genTypeExpr_extends, extends_eq, extends_bracket.
  apply extends_trans.
Qed.

Lemma writeStmt_extends s c c' : writeStmt s c = Some c' -> extends c c'.
Proof.
  apply (writers_R extends); auto using extends_refl, extends_errorf,
    extends_write, genTypeExpr_extends, extends_eq, extends_bracket.
  apply extends_trans.
Qed.

Lemma genFuncDecl_extends decl c : extends c (genFuncDecl decl c).2.
Proof.
  apply (genFuncDecl_R extends); auto using extends_refl, extends_errorf,
    genTypeExpr_extends, extends_eq.
  apply extends_trans.
Qed.

Lemma genParams_extends decl c : extends c (genParams decl c).2.
Proof.
  apply (genParams_R extends); auto using extends_refl, extends_errorf,
    genTypeExpr_extends, extends_eq.
  apply extends_trans.
Qed.

Lemma writeFuncDecls_extends decls c : extends c (writeFuncDecls decls c).
Proof.
  apply (writeFuncDecls_R extends); auto using extends_refl, extends_errorf,
    extends_write, genTypeExpr_extends, extends_eq, extends_bracket.
  apply extends_trans.
Qed.

Lemma writeFuncDefns_extends decls c c' :
  writeFuncDefns decls c = Some c' -> extends c c'.
Proof.
  apply (writeFuncDefns_R extends); auto using extends_refl, extends_errorf,
    extends_write, genTypeExpr_extends, extends_eq, extends_bracket.
  apply extends_trans.
Qed.

End Monotone.

(** ** Function signatures *)

Section Signatures.
Context `{GoLib}.

Lemma genFuncDecl_hit decl c s :
  genFuncDecls c !! declAddr decl = Some s -> genFuncDecl decl c = (s, c).
Proof. intros E. unfold genFuncDecl. by rewrite E. Qed.

Lemma genFuncDecl_cached decl c :
  genFuncDecls (genFuncDecl decl c).2 !! declAddr decl
  = Some (genFuncDecl decl c).1.
Proof.
  unfold genFuncDecl. destruct (genFuncDecls c !! _) eqn:E; [done|].
  destruct (genResult decl c) as [ret c1].
  destruct (genParams decl c1) as [ps c2]. simpl. apply lookup_insert_eq.
Qed.

(** Rendering a signature touches the signature cache at its own key
    only. *)
Lemma genResult_funcs decl c :
  genFuncDecls (genResult decl c).2 = genFuncDecls c.
Proof.
  apply (genResult_R (fun c c' => genFuncDecls c' = genFuncDecls c));
    intros; simpl; first [congruence | apply genTypeExpr_step].
Qed.

Lemma genParams_funcs decl c :
  genFuncDecls (genParams decl c).2 = genFuncDecls c.
Proof.
  apply (genParams_R (fun c c' => genFuncDecls c' = genFuncDecls c));
    intros; simpl; first [congruence | apply genTypeExpr_step].
Qed.

Lemma genFuncDecl_funcs decl c a :
  a <> declAddr decl ->
  genFuncDecls (genFuncDecl decl c).2 !! a = genFuncDecls c !! a.
Proof.
  intros Ha. unfold genFuncDecl. destruct (genFuncDecls c !! _) eqn:E; [done|].
  pose proof (genResult_funcs decl c) as Hr.
  destruct (genResult decl c) as [ret c1].
  pose proof (genParams_funcs decl c1) as Hp.
  destruct (genParams decl c1) as [ps c2]. simpl in *.
  rewrite lookup_insert_ne by done. congruence.
Qed.

Lemma addParam_large param c :
  96 < sizeOf (varType param) ->
  exists pre post,
    errors (addParam param c).2
    = errors c +:+ pre
        +:+ diagnostic (varPos param)
              (TypeString (varType param) +:+ " is large ("
                 +:+ formatInt (sizeOf (varType param))
                 +:+ " bytes), consider passing by pointer instead")
        +:+ post.
Proof.
  intros Hsz. unfold addParam. apply Z.ltb_lt in Hsz. rewrite Hsz.
  set (c1 := match Underlying (varType param) with
             | Array _ _ _ => _ | Slice _ _ => _ | _ => c end).
  assert (exists pre, errors c1 = errors c +:+ pre) as [pre Hpre].
  { subst c1. destruct (Underlying _); try (by apply extends_refl);
      apply extends_errorf. }
  set (c2 := errorf _ _ c1).
  destruct (genTypeExpr_extends (varType param) (varPos param) c2)
    as [post Hpost].
  destruct (genTypeExpr _ _ c2) as [s c3]. simpl in *.
  exists pre, post. rewrite Hpost. subst c2. simpl. rewrite Hpre.
  by rewrite !string_app_assoc.
Qed.

Lemma addParam_errored param c :
  96 < sizeOf (varType param) -> errored (addParam param c).2 = true.
Proof.
  intros Hsz. destruct (addParam_large param c Hsz) as (pre & post & E).
  unfold errored. rewrite E, !string_length_app.
  pose proof (diagnostic_nonempty (varPos param)
    (TypeString (varType param) +:+ " is large ("
       +:+ formatInt (sizeOf (varType param))
       +:+ " bytes), consider passing by pointer instead")).
  destruct (_ + _)%nat eqn:En; [lia|done].
Qed.

Lemma addParam_extends param c : extends c (addParam param c).2.
Proof.
  apply (addParam_R extends); auto using extends_refl, extends_errorf,
    genTypeExpr_extends. apply extends_trans.
Qed.

Lemma addParams_extends params first c :
  extends c (addParams params first c).2.
Proof.
  apply (addParams_R extends); auto using extends_refl, extends_errorf,
    genTypeExpr_extends. apply extends_trans.
Qed.

Lemma addParams_errored params param first c :
  param ∈ params -> 96 < sizeOf (varType param) ->
  errored (addParams params first c).2 = true.
Proof.
  intros Hin Hsz. revert first c.
  induction params as [|p r IH]; intros first c; [by apply elem_of_nil in Hin|].
  simpl. apply elem_of_cons in Hin as [<-|Hin].
  - pose proof (addParam_errored param c Hsz) as He.
    destruct (addParam param c) as [s c1].
    pose proof (addParams_extends r false c1) as Hx.
    destruct (addParams r false c1). simpl in *.
    by eapply errored_extends.
  - destruct (addParam p c) as [s c1]. specialize (IH Hin false c1).
    by destruct (addParams r false c1).
Qed.

Lemma genParams_errored decl param c :
  Recv (declSig decl) = Some param \/ param ∈ Params (declSig decl) ->
  96 < sizeOf (varType param) ->
  errored (genParams decl c).2 = true.
Proof.
  intros Hin Hsz. unfold genParams. destruct Hin as [Hr|Hp].
  - rewrite Hr. pose proof (addParam_errored param c Hsz) as He.
    destruct (addParam param c) as [rs c1].
    pose proof (addParams_extends (Params (declSig decl))
                  (negb (bool_decide (is_Some (Some param)))) c1) as Hx.
    destruct (addParams _ _ c1). simpl in *. by eapply errored_extends.
  - destruct (match Recv (declSig decl) with
              | Some r => addParam r c | None => ("", c) end) as [rs c1].
    pose proof (addParams_errored (Params (declSig decl)) param
                  (negb (bool_decide (is_Some (Recv (declSig decl))))) c1
                  Hp Hsz) as He.
    by destruct (addParams _ _ c1).
Qed.

End Signatures.

(** ** From a rejected signature to the outcome of the run *)

Section Outcome.
Context `{GoLib}.

Lemma writeTypeDecls_funcs typeSpecs c :
  genFuncDecls (writeTypeDecls typeSpecs c) = genFuncDecls c.
Proof.
  apply (writeTypeDecls_R (fun c c' => genFuncDecls c' = genFuncDecls c));
    intros; simpl; first [congruence | apply genTypeExpr_step].
Qed.

Lemma writeTypeDefns_funcs typeSpecs c :
  genFuncDecls (writeTypeDefns typeSpecs c) = genFuncDecls c.
Proof.
  apply (writeTypeDefns_R (fun c c' => genFuncDecls c' = genFuncDecls c));
    intros; simpl; first [congruence | apply genTypeExpr_step].
Qed.

Lemma writeFuncDecls_reports decls d c :
  NoDup (map declAddr decls) -> d ∈ decls ->
  (forall x, x ∈ decls -> genFuncDecls c !! declAddr x = None) ->
  (forall c0, genFuncDecls c0 !! declAddr d = None ->
              errored (genFuncDecl d c0).2 = true) ->
  errored (writeFuncDecls decls c) = true.
Proof.
  intros Hnd Hin Hc Hd. revert c Hc.
  induction decls as [|x r IH]; intros c Hc; [by apply elem_of_nil in Hin|].
  simpl. apply NoDup_cons in Hnd as [Hx Hnd].
  apply elem_of_cons in Hin as [<-|Hin].
  - specialize (Hd c (Hc d ltac:(left))).
    destruct (genFuncDecl d c) as [s c1]. simpl in Hd.
    eapply errored_extends; [apply writeFuncDecls_extends|]. done.
  - pose proof (fun a => genFuncDecl_funcs x c a) as Hf.
    destruct (genFuncDecl x c) as [s c1]. simpl in Hf.
    apply (IH Hnd Hin). intros y Hy. simpl.
    rewrite Hf; [apply Hc; by right|].
    intros E. apply Hx. rewrite <- E. apply list_elem_of_fmap. by exists y.
Qed.

(** If rendering the signature of a declaration always leaves a
    diagnostic, a run over a program that holds the declaration ends with
    diagnostics. *)
Lemma compile_reports files d c :
  NoDup (map declAddr (funcDecls files)) ->
  d ∈ funcDecls files ->
  (forall c0, genFuncDecls c0 !! declAddr d = None ->
              errored (genFuncDecl d c0).2 = true) ->
  compile (Resolved files) = Some c ->
  errored c = true.
Proof.
  intros Hnd Hin Hd E. unfold compile in E.
  destruct (collectFromFuncs _ _ _ _) as [[collected typeSpecs]|];
    cbn [mbind option_bind] in E; [|discriminate].
  eapply errored_extends; [eapply writeFuncDefns_extends, E|].
  eapply errored_extends; [apply extends_write|].
  apply (writeFuncDecls_reports _ d); auto.
  intros x _. simpl. rewrite writeTypeDefns_funcs. simpl.
  rewrite writeTypeDecls_funcs. done.
Qed.

Lemma main_errored frontend prog dir out c :
  compile (frontend dir) = Some c -> errored c = true ->
  forall path content, main frontend [prog; dir; out] <> Written path content.
Proof. intros E He path content. unfold main. by rewrite E, He. Qed.

Lemma main_crashed frontend prog dir out :
  compile (frontend dir) = None ->
  forall path content, main frontend [prog; dir; out] <> Written path content.
Proof. intros E path content. unfold main. by rewrite E. Qed.

(** C2.  A run that ends with diagnostics writes no file and prints the
    diagnostics instead; a run that ends without any writes the output.
    Each diagnostic is the position, a colon and a space, the message and
    a newline, appended to those recorded before. *)
Theorem main_all_or_nothing frontend prog dir out c :
  compile (frontend dir) = Some c ->
  main frontend [prog; dir; out]
  = (if errored c then Printed (errors c +:+ newline)
     else Written out (output c)) /\
  (errored c = false <-> errors c = "") /\
  (forall pos msg c0,
      errors (errorf pos msg c0)
      = errors c0 +:+ PositionString pos +:+ ": " +:+ msg +:+ newline).
Proof.
  intros E. split; [|split].
  - unfold main. by rewrite E.
  - unfold errored. destruct (errors c); simpl; split; congruence.
  - done.
Qed.

(** C3.  A parameter or receiver whose computed size exceeds 96 bytes
    leaves a diagnostic at its position, whatever its type, and the run
    writes no file. *)
Theorem oversized_parameter_rejected frontend prog dir out files decl param :
  frontend dir = Resolved files ->
  NoDup (map declAddr (funcDecls files)) ->
  decl ∈ funcDecls files ->
  Recv (declSig decl) = Some param \/ param ∈ Params (declSig decl) ->
  96 < sizeOf (varType param) ->
  (forall c, exists pre post,
      errors (addParam param c).2
      = errors c +:+ pre
          +:+ diagnostic (varPos param)
                (TypeString (varType param) +:+ " is large ("
                   +:+ formatInt (sizeOf (varType param))
                   +:+ " bytes), consider passing by pointer instead")
          +:+ post) /\
  (forall path content,
      main frontend [prog; dir; out] <> Written path content).
Proof.
  intros Hf Hnd Hin Hp Hsz. split; [intros c; by apply addParam_large|].
  destruct (compile (frontend dir)) as [c|] eqn:E;
    [|by apply main_crashed].
  apply (main_errored _ _ _ _ c E). rewrite Hf in E.
  apply (compile_reports files decl c Hnd Hin); [|done].
  intros c0 Hc0. unfold genFuncDecl. rewrite Hc0.
  destruct (genResult decl c0) as [ret c1].
  pose proof (genParams_errored decl param c1 Hp Hsz) as He.
  by destruct (genParams decl c1).
Qed.

(** C8.  A function without result renders as [int] when it has no
    receiver and is [main] of package [main], and as [void] otherwise;
    more than one result records a diagnostic. *)
Theorem genFuncDecl_result decl c :
  genFuncDecls c !! declAddr decl = None ->
  (Results (declSig decl) = [] ->
   (genFuncDecl decl c).1
   = (recvTypeParams (Recv (declSig decl))
        +:+ addTypeParams (SigTypeParams (declSig decl)))
       +:+ (if bool_decide (declPkgName decl = "main" /\
                            Name (declName decl) = "main" /\
                            Recv (declSig decl) = None)
            then "int " else "void ")
       +:+ Name (declName decl) +:+ "(" +:+ (genParams decl c).1 +:+ ")") /\
  (2 <= length (Results (declSig decl)) ->
   exists rest,
     errors (genFuncDecl decl c).2
     = errors c
         +:+ diagnostic (declResultsPos decl)
               "multiple return values not supported"
         +:+ rest)%nat.
Proof.
  intros Hc. unfold genFuncDecl. rewrite Hc. split.
  - intros Hr. unfold genResult. rewrite Hr.
    assert ((String.eqb (declPkgName decl) "main"
             && String.eqb (Name (declName decl)) "main"
             && negb (bool_decide (is_Some (Recv (declSig decl)))))
            = bool_decide (declPkgName decl = "main" /\
                           Name (declName decl) = "main" /\
                           Recv (declSig decl) = None)) as ->.
    { destruct (String.eqb_spec (declPkgName decl) "main") as [E1|E1];
        destruct (String.eqb_spec (Name (declName decl)) "main") as [E2|E2];
        destruct (Recv (declSig decl)) as [r|]; simpl;
        symmetry; first [by apply bool_decide_eq_true
                        | apply bool_decide_eq_false;
                          intros (? & ? & ?); congruence]. }
    destruct (bool_decide _); by destruct (genParams decl c).
  - intros Hl. unfold genResult.
    destruct (Results (declSig decl)) as [|r0 [|r1 rs]]; simpl in Hl;
      [lia|lia|].
    destruct (genParams_extends decl
                (errorf (declResultsPos decl)
                   "multiple return values not supported" c)) as [rest E].
    destruct (genParams decl _) as [ps c2]. simpl in *.
    exists rest. by rewrite E, string_app_assoc.
Qed.

End Outcome.

(** ** Diagnostics inside a body reach the end of the run *)

Section Descent.
Context `{GoLib}.

Lemma errored_write s c : errored (write s c) = errored c.
Proof. done. Qed.

Lemma errored_set_indent i c : errored (set_indent i c) = errored c.
Proof. done. Qed.

Lemma errored_set_atBlockEnd b c : errored (set_atBlockEnd b c) = errored c.
Proof. done. Qed.

Lemma errored_writeIdent id c : errored (writeIdent id c) = errored c.
Proof. unfold writeIdent. by destruct (IsBuiltin _). Qed.

Lemma allE (l : list Expr) :
  Forall (fun x => forall c c', writeExpr x c = Some c' -> extends c c') l.
Proof. apply Forall_forall. intros x _ c c'. apply writeExpr_extends. Qed.

Lemma allS (l : list Stmt) :
  Forall (fun x => forall c c', writeStmt x c = Some c' -> extends c c') l.
Proof. apply Forall_forall. intros x _ c c'. apply writeStmt_extends. Qed.

Lemma writeStmtList_extends l c c' :
  writeStmtList writeStmt l c = Some c' -> extends c c'.
Proof.
  apply (writeStmtList_R extends); auto using extends_refl, extends_write,
    allS. apply extends_trans.
Qed.

Lemma writeBlockStmt_extends l c c' :
  writeBlockStmt writeStmt l c = Some c' -> extends c c'.
Proof. apply (writeStmt_extends (BlockStmt l)). Qed.

Lemma writeEltsInline_extends l first c c' :
  writeEltsInline writeExpr l first c = Some c' -> extends c c'.
Proof.
  apply (writeEltsInline_R extends); auto using extends_refl, extends_write,
    allE. apply extends_trans.
Qed.

Lemma writeEltsLines_extends l c c' :
  writeEltsLines writeExpr l c = Some c' -> extends c c'.
Proof.
  apply (writeEltsLines_R extends); auto using extends_refl, extends_write,
    allE. apply extends_trans.
Qed.

Lemma writeArgs_extends method l first c c' :
  writeArgs writeExpr method l first c = Some c' -> extends c c'.
Proof.
  apply (writeArgs_R extends); auto using extends_refl, extends_write,
    allE. apply extends_trans.
Qed.

Lemma writeStmtList_rejected l s c c' :
  s ∈ l -> rejected (NS s) ->
  writeStmtList writeStmt l c = Some c' -> errored c' = true.
Proof.
  intros Hin Hrej. revert c.
  induction l as [|x r IH]; intros c E; [by apply elem_of_nil in Hin|].
  simpl in E. destruct (writeStmt x c) as [c1|] eqn:E1;
    cbn [mbind option_bind] in E; [|discriminate].
  apply elem_of_cons in Hin as [<-|Hin]; [|by eapply IH].
  apply writeStmtList_extends in E. eapply errored_extends; [exact E|].
  rewrite errored_write. apply (Hrej _ _) in E1.
  by destruct (atBlockEnd c1).
Qed.

Lemma writeBlockStmt_rejected l s c c' :
  s ∈ l -> rejected (NS s) ->
  writeBlockStmt writeStmt l c = Some c' -> errored c' = true.
Proof.
  intros Hin Hrej E. unfold writeBlockStmt in E.
  destruct (writeStmtList _ _ _) as [c1|] eqn:E1;
    cbn [mbind option_bind] in E; [|discriminate].
  injection E as <-. by apply (writeStmtList_rejected _ _ _ _ Hin Hrej) in E1.
Qed.

Lemma writeEltsInline_rejected l e first c c' :
  e ∈ l -> rejected (NE e) ->
  writeEltsInline writeExpr l first c = Some c' -> errored c' = true.
Proof.
  intros Hin Hrej. revert first c.
  induction l as [|x r IH]; intros first c E; [by apply elem_of_nil in Hin|].
  simpl in E. destruct (writeExpr x _) as [c1|] eqn:E1;
    cbn [mbind option_bind] in E; [|discriminate].
  apply elem_of_cons in Hin as [<-|Hin]; [|by eapply IH].
  apply writeEltsInline_extends in E. eapply errored_extends; [exact E|].
  by apply (Hrej _ _) in E1.
Qed.

Lemma writeEltsLines_rejected l e c c' :
  e ∈ l -> rejected (NE e) ->
  writeEltsLines writeExpr l c = Some c' -> errored c' = true.
Proof.
  intros Hin Hrej. revert c.
  induction l as [|x r IH]; intros c E; [by apply elem_of_nil in Hin|].
  simpl in E. destruct (writeExpr x _) as [c1|] eqn:E1;
    cbn [mbind option_bind] in E; [|discriminate].
  apply elem_of_cons in Hin as [<-|Hin]; [|by eapply IH].
  apply writeEltsLines_extends in E. eapply errored_extends; [exact E|].
  rewrite errored_write. by apply (Hrej _ _) in E1.
Qed.

Lemma writeArgs_rejected method l e first c c' :
  e ∈ l -> rejected (NE e) ->
  writeArgs writeExpr method l first c = Some c' -> errored c' = true.
Proof.
  intros Hin Hrej. revert first c.
  induction l as [|x r IH]; intros first c E; [by apply elem_of_nil in Hin|].
  simpl in E. destruct (writeExpr x _) as [c1|] eqn:E1;
    cbn [mbind option_bind] in E; [|discriminate].
  apply elem_of_cons in Hin as [<-|Hin]; [|by eapply IH].
  apply writeArgs_extends in E. eapply errored_extends; [exact E|].
  by apply (Hrej _ _) in E1.
Qed.

Ltac bindE :=
  match goal with
  | H : (?m ≫= _) = Some _ |- _ =>
      let E := fresh "E" in
      destruct m eqn:E; cbn [mbind option_bind] in H; [|discriminate H]
  | H : Some _ = Some _ |- _ => injection H as <-
  | H : None = Some _ |- _ => discriminate H
  end.

Ltac fin :=
  repeat first
    [ rewrite errored_write | rewrite errored_set_indent
    | rewrite errored_set_atBlockEnd | rewrite errored_writeIdent
    | apply errored_errorf ].

Ltac viaE E := eapply errored_extends; [exact (writeExpr_extends _ _ _ E)|].
Ltac viaS E := eapply errored_extends; [exact (writeStmt_extends _ _ _ E)|].
Ltac viaB E :=
  eapply errored_extends; [exact (writeBlockStmt_extends _ _ _ E)|].
Ltac viaA E :=
  eapply errored_extends; [exact (writeArgs_extends _ _ _ _ _ E)|].

Lemma writeFuncLit_rejected sig body s c c' :
  s ∈ body -> rejected (NS s) ->
  writeFuncLit writeStmt sig body c = Some c' -> errored c' = true.
Proof.
  intros Hin Hrej E. unfold writeFuncLit in E. bindE. bindE. fin.
  by eapply writeBlockStmt_rejected.
Qed.

Lemma writeCompositeLit_rejected tv pos t elts e c c' :
  e ∈ elts -> rejected (NE e) ->
  writeCompositeLit writeExpr tv pos t elts c = Some c' -> errored c' = true.
Proof.
  intros Hin Hrej E. unfold writeCompositeLit in E.
  destruct (TypeOf tv) as [typ|]; cbn [mbind option_bind] in E; [|discriminate].
  destruct (genTypeExpr typ pos c) as [s c0]. bindE. bindE. fin.
  destruct elts as [|elt0 r]; [by apply elem_of_nil in Hin|].
  bindE. clear E. destruct (_ =? _); bindE; bindE; fin.
  - by eapply writeEltsInline_rejected.
  - by eapply writeEltsLines_rejected.
Qed.

Lemma writeParenExpr_rejected x c c' :
  rejected (NE x) -> writeParenExpr writeExpr x c = Some c' ->
  errored c' = true.
Proof.
  intros Hrej E. unfold writeParenExpr in E. bindE. bindE. fin.
  by apply (Hrej _ _) in E0.
Qed.

Lemma writeSelectorExpr_rejected x sel c c' :
  rejected (NE x) -> writeSelectorExpr writeExpr x sel c = Some c' ->
  errored c' = true.
Proof.
  intros Hrej E. unfold writeSelectorExpr in E. bindE. bindE. fin.
  apply (Hrej _ _) in E0. by destruct (isPointer _); fin.
Qed.

Lemma writeIndexExpr_rejected x i c c' :
  rejected (NE x) \/ rejected (NE i) ->
  writeIndexExpr writeExpr x i c = Some c' -> errored c' = true.
Proof.
  intros Hrej E. unfold writeIndexExpr in E. bindE. bindE. bindE. fin.
  destruct Hrej as [Hrej|Hrej]; [|by apply (Hrej _ _) in E1].
  viaE E1. fin. destruct (isPointer _).
  - bindE. bindE. fin. by apply (Hrej _ _) in E.
  - by apply (Hrej _ _) in E0.
Qed.

Lemma writeReceiver_rejected x recv c c' :
  rejected (NE x) -> writeReceiver writeExpr x recv c = Some c' ->
  errored c' = true.
Proof.
  intros Hrej E. unfold writeReceiver in E.
  destruct (_ && _); [bindE; bindE; fin; by apply (Hrej _ _) in E0|].
  destruct (_ && _); [bindE; bindE; fin; by apply (Hrej _ _) in E0|].
  by apply (Hrej _ _) in E.
Qed.

Lemma writeCallee_rejected fn c c' :
  rejected (NE fn) -> writeCallee writeExpr fn c = Some c' ->
  errored c' = true.
Proof.
  intros Hrej E. unfold writeCallee in E. bindE. bindE. fin.
  apply (Hrej _ _) in E0. destruct fn; try done.
  destruct (Instance id); [|done]. fin.
  eapply errored_extends; [|exact E0].
  eapply extends_trans; [apply (extends_write "<")|].
  apply (writeTypeArgs_R extends); auto using extends_refl, extends_write,
    genTypeExpr_extends. apply extends_trans.
Qed.

Lemma writeCallExpr_rejected_arg fn args a c c' :
  a ∈ args -> rejected (NE a) ->
  writeCallExpr writeExpr fn args c = Some c' -> errored c' = true.
Proof.
  intros Hin Hrej E. unfold writeCallExpr in E.
  bindE. destruct p as [method c1]. bindE. bindE. bindE. fin.
  by eapply writeArgs_rejected.
Qed.

Lemma writeCallExpr_rejected_fun fn args c c' :
  (forall tv x sel, fn <> SelectorExpr tv x sel) -> rejected (NE fn) ->
  writeCallExpr writeExpr fn args c = Some c' -> errored c' = true.
Proof.
  intros Hns Hrej E. unfold writeCallExpr in E.
  bindE. destruct p as [method c1]. bindE. bindE. bindE. fin. viaA E2.
  assert (method = false) as ->.
  { destruct fn; try (by injection E0 as <- _). exfalso. by eapply Hns. }
  by eapply writeCallee_rejected.
Qed.

Lemma writeCallExpr_rejected_base tv x sel args c c' :
  rejected (NE x) ->
  writeCallExpr writeExpr (SelectorExpr tv x sel) args c = Some c' ->
  errored c' = true.
Proof.
  intros Hrej E. unfold writeCallExpr in E.
  bindE. destruct p as [method c1]. bindE. bindE. bindE. fin. viaA E2.
  assert (rejected (NE (SelectorExpr tv x sel))) as Hsel.
  { intros c3 c4 E3. simpl in E3. by eapply writeSelectorExpr_rejected. }
  assert (method = false -> errored c0 = true) as Hcallee.
  { intros ->. by eapply writeCallee_rejected. }
  destruct (ObjectOf sel); try discriminate;
    try (injection E0 as <- <-; by apply Hcallee).
  destruct (Recv sig); [|injection E0 as <- <-; by apply Hcallee].
  bindE. injection E0 as <- <-. cbn in E1. injection E1 as <-.
  exact (writeReceiver_rejected _ _ _ _ Hrej E).
Qed.

Lemma writeUnaryExpr_rejected opPos op x c c' :
  rejected (NE x) -> writeUnaryExpr writeExpr opPos op x c = Some c' ->
  errored c' = true.
Proof. intros Hrej E. unfold writeUnaryExpr in E. by apply (Hrej _ _) in E. Qed.

Lemma writeBinaryExpr_rejected x opPos op y c c' :
  rejected (NE x) \/ rejected (NE y) ->
  writeBinaryExpr writeExpr x opPos op y c = Some c' -> errored c' = true.
Proof.
  intros Hrej E. unfold writeBinaryExpr in E. bindE.
  destruct Hrej as [Hrej|Hrej]; [|by apply (Hrej _ _) in E].
  viaE E. fin. apply (Hrej _ _) in E0. destruct op; by fin.
Qed.

Lemma writeKeyValueExpr_rejected k v c c' :
  rejected (NE v) -> writeKeyValueExpr writeExpr k v c = Some c' ->
  errored c' = true.
Proof.
  intros Hrej E. unfold writeKeyValueExpr in E.
  destruct k; try (bindE; by fin). by apply (Hrej _ _) in E.
Qed.

Lemma writeAssignStmt_rejected lhs tokPos tok rhs c c' :
  (exists l0 l, lhs = l0 :: l /\ rejected (NE l0)) \/
  (exists r0 r, rhs = r0 :: r /\ rejected (NE r0)) ->
  writeAssignStmt writeExpr lhs tokPos tok rhs c = Some c' ->
  errored c' = true.
Proof.
  intros Hrej E. unfold writeAssignStmt in E.
  destruct lhs as [|lhs0 [|lhs1 lhs]]; [discriminate| |bindE; by fin].
  bindE. destruct rhs as [|rhs0 rhs]; [discriminate|].
  destruct Hrej as [(l0 & l & [= <- <-] & Hrej)|(r0 & r & [= <- <-] & Hrej)];
    [|by apply (Hrej _ _) in E].
  viaE E. fin. apply (Hrej _ _) in E0. destruct tok; by fin.
Qed.

Lemma writeReturnStmt_rejected r0 rs c c' :
  rejected (NE r0) -> writeReturnStmt writeExpr (r0 :: rs) c = Some c' ->
  errored c' = true.
Proof.
  intros Hrej E. unfold writeReturnStmt in E.
  destruct rs; [by apply (Hrej _ _) in E|bindE; by fin].
Qed.

Lemma writeIfStmt_rejected init cond body els c c' :
  (exists i, init = Some i /\ rejected (NS i)) \/ rejected (NE cond) \/
  (exists s, s ∈ body /\ rejected (NS s)) \/
  (exists e, els = Some e /\ rejected (NS e)) ->
  writeIfStmt writeExpr writeStmt init cond body els c = Some c' ->
  errored c' = true.
Proof.
  intros Hrej E. unfold writeIfStmt in E. bindE. bindE. bindE.
  assert (errored c2 = true -> errored c' = true) as Hend.
  { intros He. destruct els; [|by bindE]. viaS E. by fin. }
  destruct Hrej as [(i & -> & Hrej)|[Hrej|[(s & Hin & Hrej)|(e & -> & Hrej)]]].
  - apply Hend. viaB E2. fin. viaE E1. bindE. bindE. fin.
    by apply (Hrej _ _) in E3.
  - apply Hend. viaB E2. fin. by apply (Hrej _ _) in E1.
  - apply Hend. by eapply writeBlockStmt_rejected.
  - by apply (Hrej _ _) in E.
Qed.

Lemma writeForStmt_rejected init cond post body c c' :
  (exists i, init = Some i /\ rejected (NS i)) \/
  (exists e, cond = Some e /\ rejected (NE e)) \/
  (exists p, post = Some p /\ rejected (NS p)) \/
  (exists s, s ∈ body /\ rejected (NS s)) ->
  writeForStmt writeExpr writeStmt init cond post body c = Some c' ->
  errored c' = true.
Proof.
  intros Hrej E. unfold writeForStmt in E. bindE. bindE. bindE.
  assert (errored c0 = true -> errored c1 = true) as H01.
  { intros He. destruct cond; [viaE E1|bindE]; by fin. }
  assert (errored c1 = true -> errored c2 = true) as H12.
  { intros He. destruct post; [viaS E2|bindE]; by fin. }
  destruct Hrej as [(i & -> & Hrej)|[(e & -> & Hrej)|[(p & -> & Hrej)
                                                      |(s & Hin & Hrej)]]].
  - viaB E. fin. apply H12, H01. by apply (Hrej _ _) in E0.
  - viaB E. fin. apply H12. by apply (Hrej _ _) in E1.
  - viaB E. fin. by apply (Hrej _ _) in E2.
  - by eapply writeBlockStmt_rejected.
Qed.

(** One step: a node whose child is rejected is rejected. *)
Lemma lowers_rejected p n : lowers p n -> rejected n -> rejected p.
Proof.
  intros Hl Hrej. destruct Hl; intros c c' E;
    cbn [writeNode writeExpr writeStmt] in E.
  - by eapply writeFuncLit_rejected.
  - by eapply writeCompositeLit_rejected.
  - by eapply writeParenExpr_rejected.
  - by eapply writeSelectorExpr_rejected.
  - eapply writeIndexExpr_rejected; [|exact E]. by left.
  - eapply writeIndexExpr_rejected; [|exact E]. by right.
  - by eapply writeCallExpr_rejected_arg.
  - by eapply writeCallExpr_rejected_fun.
  - by eapply writeCallExpr_rejected_base.
  - unfold writeStarExpr in E. by apply (Hrej _ _) in E.
  - by eapply writeUnaryExpr_rejected.
  - eapply writeBinaryExpr_rejected; [|exact E]. by left.
  - eapply writeBinaryExpr_rejected; [|exact E]. by right.
  - by eapply writeKeyValueExpr_rejected.
  - by apply (Hrej _ _) in E.
  - eapply writeAssignStmt_rejected; [|exact E]. left. eauto.
  - eapply writeAssignStmt_rejected; [|exact E]. right. eauto.
  - by eapply writeReturnStmt_rejected.
  - by eapply writeBlockStmt_rejected.
  - eapply writeIfStmt_rejected; [|exact E]. left. eauto.
  - eapply writeIfStmt_rejected; [|exact E]. right. by left.
  - eapply writeIfStmt_rejected; [|exact E]. right. right. left. eauto.
  - eapply writeIfStmt_rejected; [|exact E]. right. right. right. eauto.
  - eapply writeForStmt_rejected; [|exact E]. left. eauto.
  - eapply writeForStmt_rejected; [|exact E]. right. left. eauto.
  - eapply writeForStmt_rejected; [|exact E]. right. right. left. eauto.
  - eapply writeForStmt_rejected; [|exact E]. right. right. right. eauto.
Qed.

(** Any number of steps. *)
Lemma descends_rejected p n : rtc lowers p n -> rejected n -> rejected p.
Proof.
  induction 1 as [|p q n Hpq _ IH]; [done|].
  intros Hrej. eapply lowers_rejected; eauto.
Qed.

End Descent.

(** ** Rejections *)

Section Rejections.
Context `{GoLib}.

Lemma writeFuncDefns_rejected decls d body c c' :
  d ∈ decls -> declBody d = Some body -> rejected (NS (BlockStmt body)) ->
  writeFuncDefns decls c = Some c' -> errored c' = true.
Proof.
  intros Hin Hb Hrej. revert c.
  induction decls as [|x r IH]; intros c E; [by apply elem_of_nil in Hin|].
  simpl in E. apply elem_of_cons in Hin as [<-|Hin].
  - rewrite Hb in E. destruct (genFuncDecl d (write newline c)) as [s c1].
    destruct (writeBlockStmt writeStmt body _) as [c2|] eqn:E2;
      cbn [mbind option_bind] in E; [|discriminate].
    eapply errored_extends; [eapply writeFuncDefns_extends, E|].
    rewrite errored_write. exact (Hrej _ _ E2).
  - destruct (declBody x) as [bx|]; [|by eapply IH].
    destruct (genFuncDecl x (write newline c)) as [s c1].
    destruct (writeBlockStmt writeStmt bx _) as [c2|] eqn:E2;
      cbn [mbind option_bind] in E; [|discriminate].
    by eapply IH.
Qed.

(** A rejected node anywhere the lowering descends to, in the body of any
    function of the program, leaves the run with diagnostics. *)
Lemma compile_body_reports files d body n c :
  d ∈ funcDecls files -> declBody d = Some body ->
  rtc lowers (NS (BlockStmt body)) n -> rejected n ->
  compile (Resolved files) = Some c -> errored c = true.
Proof.
  intros Hin Hb Hn Hrej E. unfold compile in E.
  destruct (collectFromFuncs _ _ _ _) as [[collected typeSpecs]|];
    cbn [mbind option_bind] in E; [|discriminate].
  eapply writeFuncDefns_rejected; [exact Hin|exact Hb| |exact E].
  by eapply descends_rejected.
Qed.

Lemma no_artifact frontend prog dir out :
  (forall c, compile (frontend dir) = Some c -> errored c = true) ->
  forall path content, main frontend [prog; dir; out] <> Written path content.
Proof.
  intros He. destruct (compile (frontend dir)) as [c|] eqn:E.
  - by apply (main_errored _ _ _ _ c E), He.
  - by apply main_crashed.
Qed.

Lemma multi_assign_rejected l0 l1 lhs tokPos tok rhs :
  rejected (NS (AssignStmt (l0 :: l1 :: lhs) tokPos tok rhs)).
Proof. intros c c' [= <-]. apply errored_errorf. Qed.

(** C9.  In a program whose function declarations are distinct objects: a
    function with two or more results gets the diagnostic of its result
    list once, when its signature is first rendered (what follows it comes
    from the parameters), and rendering the signature again records
    nothing; an assignment with two or more targets records one diagnostic
    at its position and writes nothing.  Either way the run writes no
    file. *)
Theorem rejection_reported_once frontend prog dir out files :
  frontend dir = Resolved files ->
  NoDup (map declAddr (funcDecls files)) ->
  (forall decl, decl ∈ funcDecls files ->
     (2 <= length (Results (declSig decl)))%nat ->
     (forall c, genFuncDecls c !! declAddr decl = None ->
        let c0 := errorf (declResultsPos decl)
                    "multiple return values not supported" c in
        (exists rest,
            errors (genFuncDecl decl c).2
            = errors c
                +:+ diagnostic (declResultsPos decl)
                      "multiple return values not supported"
                +:+ rest /\
            errors (genParams decl c0).2 = errors c0 +:+ rest) /\
        genFuncDecl decl (genFuncDecl decl c).2 = genFuncDecl decl c) /\
     (forall path content,
         main frontend [prog; dir; out] <> Written path content)) /\
  (forall d body l0 l1 lhs tokPos tok rhs,
     d ∈ funcDecls files -> declBody d = Some body ->
     rtc lowers (NS (BlockStmt body))
       (NS (AssignStmt (l0 :: l1 :: lhs) tokPos tok rhs)) ->
     (forall c,
         writeStmt (AssignStmt (l0 :: l1 :: lhs) tokPos tok rhs) c
         = Some (errorf (exprPos l0) "multi-value assignment unsupported" c)) /\
     (forall path content,
         main frontend [prog; dir; out] <> Written path content)).
Proof.
  intros Hf Hnd. split.
  - intros decl Hin Hl.
    assert (forall c, genFuncDecls c !! declAddr decl = None ->
              genFuncDecl decl c
              = let '(ps, c2) :=
                  genParams decl
                    (errorf (declResultsPos decl)
                       "multiple return values not supported" c) in
                let result :=
                  (recvTypeParams (Recv (declSig decl))
                     +:+ addTypeParams (SigTypeParams (declSig decl)))
                    +:+ "" +:+ Name (declName decl) +:+ "(" +:+ ps +:+ ")" in
                (result,
                 set_genFuncDecls
                   (<[declAddr decl := result]> (genFuncDecls c2)) c2))
      as Hgen.
    { intros c Hc. unfold genFuncDecl, genResult. rewrite Hc.
      destruct (Results (declSig decl)) as [|r0 [|r1 rs]]; simpl in Hl;
        [lia|lia|done]. }
    split.
    + intros c Hc c0. split.
      * destruct (genParams_extends decl c0) as [rest E].
        exists rest. split; [|exact E].
        rewrite (Hgen c Hc). fold c0. destruct (genParams decl c0) as [ps c2].
        simpl in *. by rewrite E, string_app_assoc.
      * pose proof (genFuncDecl_cached decl c) as Hk.
        rewrite (genFuncDecl_hit _ _ _ Hk). by destruct (genFuncDecl decl c).
    + apply no_artifact. rewrite Hf. intros c.
      apply (compile_reports files decl c Hnd Hin).
      intros c0 Hc0. rewrite (Hgen c0 Hc0).
      pose proof (genParams_extends decl
                    (errorf (declResultsPos decl)
                       "multiple return values not supported" c0)) as Hx.
      destruct (genParams decl _) as [ps c2]. simpl in *.
      eapply errored_extends; [exact Hx|apply errored_errorf].
  - intros d body l0 l1 lhs tokPos tok rhs Hin Hb Hn. split; [done|].
    apply no_artifact. rewrite Hf. intros c.
    apply (compile_body_reports files d body _ c Hin Hb Hn).
    apply multi_assign_rejected.
Qed.

(** ** Method calls *)

(** The receiver of a method-style call, when the parameter is a pointer
    and the base is not: an address-of around the base. *)
Lemma writeReceiver_addr x recv c :
  isPointer (TypeOf (exprTV x)) = false ->
  isPointer (Some (varType recv)) = true ->
  writeReceiver writeExpr x recv c
  = (cx ← writeExpr x (write "&(" c); Some (write ")" cx)).
Proof. intros Hx Hr. unfold writeReceiver. by rewrite Hx, Hr. Qed.

Lemma writeReceiver_deref x recv c :
  isPointer (TypeOf (exprTV x)) = true ->
  isPointer (Some (varType recv)) = false ->
  writeReceiver writeExpr x recv c
  = (cx ← writeExpr x (write "*(" c); Some (write ")" cx)).
Proof. intros Hx Hr. unfold writeReceiver. by rewrite Hx, Hr. Qed.


End Rejections.

(** ** The order of the type declarations *)

Set Warnings "-clear-no-such-hyp".

Section Order.
Context `{GoLib}.
Variable topLevel : gmap N TypeSpec.
Hypothesis Hwf : wfTop topLevel.

Lemma collect_nil fuel st : collectTypeSpecs fuel topLevel [] st = Some st.
Proof. by destruct fuel. Qed.

Lemma collect_cons fuel ident rest st :
  collectTypeSpecs fuel topLevel (ident :: rest) st =
  match resolve topLevel ident with
  | Some typeSpec =>
      if bool_decide (specAddr typeSpec ∈ st.1)
      then collectTypeSpecs fuel topLevel rest st
      else
        match fuel with
        | O => None
        | S fuel' =>
            st ← collectTypeSpecs fuel' topLevel (specIdents typeSpec)
                   ({[specAddr typeSpec]} ∪ st.1, st.2);
            collectTypeSpecs fuel topLevel rest (st.1, st.2 ++ [typeSpec])
        end
  | None => collectTypeSpecs fuel topLevel rest st
  end.
Proof. by destruct fuel. Qed.

Lemma resolve_top ident ts :
  resolve topLevel ident = Some ts -> topLevel !! specAddr ts = Some ts.
Proof.
  unfold resolve. destruct (ObjDecl ident) as [a|]; cbn; [|done].
  intros E. by rewrite (Hwf _ _ E).
Qed.

Lemma references_top A B :
  references topLevel A B -> topLevel !! specAddr B = Some B.
Proof. intros (ident & _ & E). by eapply resolve_top. Qed.

Lemma precedes_app_r L X B A : precedes L B A -> precedes (L ++ X) B A.
Proof.
  intros (l1 & l2 & -> & Hin). exists l1, (l2 ++ X). split; [|done].
  by rewrite <- app_assoc.
Qed.

Lemma precedes_mid L1 L2 B A : B ∈ L1 -> A ∈ L2 -> precedes (L1 ++ L2) B A.
Proof.
  intros HB (m1 & m2 & ->)%list_elem_of_split.
  exists (L1 ++ m1), m2. split; [by rewrite <- app_assoc|].
  apply elem_of_app. by left.
Qed.

Lemma in_addrs (D : list TypeSpec) B :
  specAddr B ∈ (list_to_set (specAddr <$> D) : gset N) ->
  topLevel !! specAddr B = Some B ->
  (forall d, d ∈ D -> topLevel !! specAddr d = Some d) ->
  B ∈ D.
Proof.
  intros Hin HB HD. apply elem_of_list_to_set, list_elem_of_fmap in Hin
    as (d & E & Hd).
  pose proof (HD d Hd) as Hd'. rewrite <- E in Hd'.
  rewrite HB in Hd'. by injection Hd' as ->.
Qed.

Lemma collectPost_skip ident rest V L V' L' :
  (forall X, resolve topLevel ident = Some X -> specAddr X ∈ V) ->
  collectPost topLevel rest V L V' L' ->
  collectPost topLevel (ident :: rest) V L V' L'.
Proof.
  intros Hi (D & HL & HV & Hnd & HD & H3 & H5 & H6 & H4).
  exists D. repeat split; try done.
  - by apply HD.
  - by apply HD.
  - intros X (i & [->|Hin]%elem_of_cons & E).
    + rewrite HV. apply elem_of_union. left. by apply Hi.
    + apply H3. by exists i.
  - intros d Hd. destruct (H5 d Hd) as (X & (i & Hin & E) & Hr).
    exists X. split; [|done]. exists i. split; [|done]. by right.
Qed.

Lemma collectPost_visit ident ts rest V L V1 L1 V' L' :
  resolve topLevel ident = Some ts ->
  specAddr ts ∉ V ->
  collectPost topLevel (specIdents ts) ({[specAddr ts]} ∪ V) L V1 L1 ->
  collectPost topLevel rest V1 (L1 ++ [ts]) V' L' ->
  collectPost topLevel (ident :: rest) V L V' L'.
Proof.
  intros Hres Hts (D1 & HL1 & HV1 & Hnd1 & HD1 & A3 & A5 & A6 & A4)
    (D2 & HL2 & HV2 & Hnd2 & HD2 & B3 & B5 & B6 & B4).
  pose proof (resolve_top _ _ Hres) as Htop.
  assert (forall d, d ∈ D1 -> reaches topLevel ts d) as Hreach1.
  { intros d Hd. destruct (A5 d Hd) as (X & HX & Hr).
    by eapply rtc_l. }
  assert (forall d, d ∈ D1 ++ [ts] ++ D2 -> topLevel !! specAddr d = Some d)
    as HDtop.
  { intros d [Hd|[->%list_elem_of_singleton|Hd]%elem_of_app]%elem_of_app;
      [by apply HD1|done|by apply HD2]. }
  exists (D1 ++ [ts] ++ D2). subst L1 L' V1 V'.
  assert (refersTo topLevel (ident :: rest) ts) as Hrts.
  { exists ident. split; [by left|done]. }
  split; [by rewrite <- !app_assoc|].
  split; [rewrite !fmap_app, !list_to_set_app_L; simpl; set_solver|].
  split.
  { rewrite !fmap_app. simpl. apply NoDup_app. split; [done|]. split.
    - intros a Ha [->|Hb]%elem_of_cons.
      + apply list_elem_of_fmap in Ha as (d & E & Hd).
        destruct (HD1 d Hd) as [Hn _]. rewrite <- E in Hn. set_solver.
      + apply list_elem_of_fmap in Hb as (d & E & Hd).
        destruct (HD2 d Hd) as [Hn _]. rewrite <- E in Hn.
        apply Hn. apply elem_of_union. right.
        by apply elem_of_list_to_set.
    - apply NoDup_cons. split; [|done].
      intros Hb. apply list_elem_of_fmap in Hb as (d & E & Hd).
      destruct (HD2 d Hd) as [Hn _]. rewrite <- E in Hn. set_solver. }
  split.
  { intros d Hd. split; [|by apply HDtop].
    apply elem_of_app in Hd as [Hd|[->%list_elem_of_singleton|Hd]%elem_of_app].
    - destruct (HD1 d Hd) as [Hn _]. set_solver.
    - done.
    - destruct (HD2 d Hd) as [Hn _]. set_solver. }
  split.
  { intros X (i & [->|Hin]%elem_of_cons & E).
    - rewrite Hres in E. injection E as <-. set_solver.
    - apply B3. by exists i. }
  split.
  { intros d [Hd|[->%list_elem_of_singleton|Hd]%elem_of_app]%elem_of_app.
    - exists ts. split; [done|]. by apply Hreach1.
    - exists ts. split; [done|]. apply rtc_refl.
    - destruct (B5 d Hd) as (X & (i & Hin & E) & Hr).
      exists X. split; [|done]. exists i. split; [by right|done]. }
  split.
  { intros d B [Hd|[->%list_elem_of_singleton|Hd]%elem_of_app]%elem_of_app Hr.
    - pose proof (A6 d B Hd Hr). set_solver.
    - pose proof (A3 B Hr). set_solver.
    - by apply (B6 d B Hd). }
  intros d B Hd Hr. pose proof (references_top _ _ Hr) as HB.
  assert (specAddr B ∈ ({[specAddr ts]} ∪ V
                          ∪ list_to_set (specAddr <$> D1) : gset N) ->
          d ∈ [ts] ++ D2 ->
          precedes (L ++ D1 ++ [ts] ++ D2) B d \/ specAddr B ∈ V \/
          reaches topLevel B d) as Hcase.
  { intros HBin Hd2.
    apply elem_of_union in HBin as [[Ha%elem_of_singleton|HV]%elem_of_union|HD].
    - assert (B = ts) as ->.
      { rewrite Ha in HB. rewrite Htop in HB. by injection HB. }
      apply elem_of_app in Hd2 as [->%list_elem_of_singleton|Hd2].
      + right. right. apply rtc_refl.
      + left. rewrite !app_assoc. apply precedes_mid; [|done].
        apply elem_of_app. right. by apply list_elem_of_singleton.
    - by right; left.
    - left. rewrite app_assoc. apply precedes_mid; [|done].
      apply elem_of_app. right. apply in_addrs; [done|done|].
      intros x Hx. by apply HD1. }
  apply elem_of_app in Hd as [Hd|Hd].
  - destruct (A4 d B Hd Hr) as [Hp|[HV|Hre]].
    + left. rewrite app_assoc. by apply precedes_app_r.
    + apply elem_of_union in HV as [Ha%elem_of_singleton|HV]; [|by right; left].
      assert (B = ts) as ->.
      { rewrite Ha in HB. rewrite Htop in HB. by injection HB. }
      right. right. by apply Hreach1.
    + by right; right.
  - pose proof Hd as Hd'.
    apply elem_of_app in Hd as [->%list_elem_of_singleton|Hd].
    + apply Hcase; [|done]. by apply A3.
    + destruct (B4 d B Hd Hr) as [Hp|[HV|Hre]].
      * left. by rewrite <- !app_assoc in Hp.
      * by apply Hcase.
      * by right; right.
Qed.

Lemma collectPost_nil V L : collectPost topLevel [] V L V L.
Proof.
  exists []. rewrite app_nil_r. simpl.
  split; [done|]. split; [set_solver|]. split; [apply NoDup_nil_2|].
  split; [by intros d ?%elem_of_nil|].
  split; [by intros X (i & ?%elem_of_nil & _)|].
  split; [by intros d ?%elem_of_nil|].
  split; by intros d B ?%elem_of_nil.
Qed.

(** What a traversal that returns has done. *)
Lemma collect_post fuel idents V L V' L' :
  collectTypeSpecs fuel topLevel idents (V, L) = Some (V', L') ->
  collectPost topLevel idents V L V' L'.
Proof.
  revert idents V L V' L'. induction fuel as [|fuel IHf];
    intros idents; induction idents as [|ident rest IHl];
    intros V L V' L' E.
  - rewrite collect_nil in E. injection E as <- <-. apply collectPost_nil.
  - rewrite collect_cons in E. cbn [fst snd] in E.
    destruct (resolve topLevel ident) as [ts|] eqn:Hres.
    + destruct (bool_decide (specAddr ts ∈ V)) eqn:Hb; [|discriminate].
      apply bool_decide_eq_true in Hb. apply collectPost_skip; [|by apply IHl].
      intros X HX. rewrite Hres in HX. by injection HX as <-.
    + apply collectPost_skip; [|by apply IHl].
      intros X HX. rewrite Hres in HX. discriminate.
  - rewrite collect_nil in E. injection E as <- <-. apply collectPost_nil.
  - rewrite collect_cons in E. cbn [fst snd] in E.
    destruct (resolve topLevel ident) as [ts|] eqn:Hres.
    + destruct (bool_decide (specAddr ts ∈ V)) eqn:Hb.
      * apply bool_decide_eq_true in Hb.
        apply collectPost_skip; [|by apply IHl].
        intros X HX. rewrite Hres in HX. by injection HX as <-.
      * apply bool_decide_eq_false in Hb.
        destruct (collectTypeSpecs fuel topLevel (specIdents ts) _)
          as [[V1 L1]|] eqn:E1; cbn [mbind option_bind fst snd] in E;
          [|discriminate].
        eapply collectPost_visit; eauto.
    + apply collectPost_skip; [|by apply IHl].
      intros X HX. rewrite Hres in HX. discriminate.
Qed.

(** Enough fuel: one unit for every top-level spec not yet collected. *)
Lemma collect_total fuel idents V L :
  (size (dom topLevel ∖ V) <= fuel)%nat ->
  is_Some (collectTypeSpecs fuel topLevel idents (V, L)).
Proof.
  revert idents V L. induction fuel as [|fuel IHf];
    intros idents; induction idents as [|ident rest IHl]; intros V L Hsz;
    try (rewrite collect_nil; by eexists);
    rewrite collect_cons; cbn [fst snd];
    (destruct (resolve topLevel ident) as [ts|] eqn:Hres; [|by apply IHl]);
    (destruct (bool_decide (specAddr ts ∈ V)) eqn:Hb; [by apply IHl|]);
    apply bool_decide_eq_false in Hb;
    pose proof (resolve_top _ _ Hres) as Htop;
    assert (specAddr ts ∈ dom topLevel ∖ V) as Hin
      by (apply elem_of_difference; split; [by apply elem_of_dom|done]).
  - assert (size (dom topLevel ∖ V) = 0%nat) as Hz by lia.
    apply size_empty_iff in Hz. set_solver.
  - assert (size (dom topLevel ∖ ({[specAddr ts]} ∪ V)) <= fuel)%nat as Hsz1.
    { assert (dom topLevel ∖ V
              = {[specAddr ts]} ∪ dom topLevel ∖ ({[specAddr ts]} ∪ V)) as HE.
      { apply set_eq. intros x. destruct (decide (x = specAddr ts)); set_solver. }
      rewrite HE, size_union, size_singleton in Hsz by set_solver. lia. }
    destruct (IHf (specIdents ts) ({[specAddr ts]} ∪ V) L Hsz1)
      as [[V1 L1] E1].
    rewrite E1. cbn [mbind option_bind fst snd].
    apply IHl. destruct (collect_post _ _ _ _ _ _ E1) as (D & _ & -> & _).
    etrans; [|exact Hsz]. apply subseteq_size. set_solver.
Qed.

Lemma collect_app fuel l1 l2 st :
  collectTypeSpecs fuel topLevel (l1 ++ l2) st
  = collectTypeSpecs fuel topLevel l1 st
      ≫= collectTypeSpecs fuel topLevel l2.
Proof.
  revert st. induction l1 as [|ident rest IH]; intros st; simpl app.
  - by rewrite collect_nil.
  - rewrite !collect_cons. destruct (resolve topLevel ident) as [ts|]; [|done].
    destruct (bool_decide _); [done|]. destruct fuel; [done|].
    destruct (collectTypeSpecs fuel topLevel (specIdents ts) _) as [st1|];
      cbn [mbind option_bind]; [apply IH|done].
Qed.

Lemma collectFromFuncs_flat fuel decls st :
  collectFromFuncs fuel topLevel decls st
  = collectTypeSpecs fuel topLevel (concat (identsFuncDecl <$> decls)) st.
Proof.
  revert st. induction decls as [|d r IH]; intros st; simpl.
  - by rewrite collect_nil.
  - rewrite collect_app.
    destruct (collectTypeSpecs fuel topLevel (identsFuncDecl d) st);
      cbn [mbind option_bind]; [apply IH|done].
Qed.

End Order.

Section OrderClaim.
Context `{GoLib}.

Lemma typeSpecTopLevel_wf files : wfTop (typeSpecTopLevel files).
Proof.
  unfold typeSpecTopLevel.
  generalize (concat (map specsOfDecl (concat files))). intros l.
  assert (forall m, wfTop m ->
            wfTop (foldl (fun m ts => <[specAddr ts := ts]> m) m l)) as Hl.
  { induction l as [|ts r IH]; intros m Hm; [done|].
    simpl. apply IH. intros a x. rewrite lookup_insert.
    case_decide as E; [by intros [= <-]|apply Hm]. }
  apply Hl. intros a ts. by rewrite lookup_empty.
Qed.

Lemma writeTypeDecls_app l1 l2 c :
  writeTypeDecls (l1 ++ l2) c = writeTypeDecls l2 (writeTypeDecls l1 c).
Proof.
  revert c. induction l1 as [|ts r IH]; intros c; [done|].
  simpl. destruct (genTypeDecl ts c). apply IH.
Qed.

Lemma writeTypeDefns_app l1 l2 c :
  writeTypeDefns (l1 ++ l2) c = writeTypeDefns l2 (writeTypeDefns l1 c).
Proof.
  revert c. induction l1 as [|ts r IH]; intros c; [done|].
  simpl. destruct (genTypeDefn ts c). apply IH.
Qed.


End OrderClaim.

(** ** Composite literals without a type of their own *)

Section Literals.
Context `{GoLib}.

(** A literal whose first element is a key-value pair and whose type is
    elided (an element of an array or slice literal) makes
    [writeCompositeLit] ask for the underlying type of a nil type: the
    writer panics, whatever the keys are. *)
Lemma elided_keyed_literal_panics tv lbrace ktv key value rest c :
  writeExpr (CompositeLit tv None lbrace (KeyValueExpr ktv key value :: rest)) c
  = None.
Proof.
  cbn [writeExpr]. unfold writeCompositeLit.
  destruct (TypeOf tv) as [typ|]; cbn [mbind option_bind]; [|done].
  by destruct (genTypeExpr typ _ c).
Qed.

End Literals.

(** * Further properties of the code *)

(** ** Text utilities *)

Lemma dropLast_app_char (s : string) (a : ascii) :
  dropLast (s +:+ String a "") = s.
Proof.
  induction s as [|x s IH]; [done|].
  change (String x s +:+ String a "") with (String x (s +:+ String a "")).
  simpl. rewrite IH. destruct (s +:+ String a "") eqn:E; [|done].
  by apply string_app_empty in E.
Qed.

Lemma dropLast_lastByte (s : string) (a : ascii) :
  lastByte s = Some a -> s = dropLast s +:+ String a "".
Proof.
  induction s as [|x s IH]; [done|]. simpl.
  destruct s as [|y s]; [by intros [= ->]|].
  intros E. change (String x (dropLast (String y s)) +:+ String a "")
    with (String x (dropLast (String y s) +:+ String a "")).
  by rewrite <- IH.
Qed.

(** X1.  [trimFinalSpace] removes one final space and nothing else: a text
    to which a space was added comes back, and in general the result is
    the argument, or the argument without its last character, a space. *)
Theorem trimFinalSpace_spec (s : string) :
  trimFinalSpace (s +:+ " ") = s /\
  (trimFinalSpace s = s \/ s = trimFinalSpace s +:+ " ") /\
  (trimFinalSpace s = s <-> lastByte s <> Some " "%char).
Proof.
  split; [|split].
  - unfold trimFinalSpace. rewrite lastByte_app by done. simpl.
    apply dropLast_app_char.
  - unfold trimFinalSpace. destruct (lastByte s) as [a|] eqn:E; [|by left].
    destruct (decide (a = " "%char)) as [->|Hn].
    + right. by apply dropLast_lastByte.
    + left. destruct a as [[] [] [] [] [] [] [] []]; try done.
  - unfold trimFinalSpace. destruct (lastByte s) as [a|] eqn:E; [|done].
    destruct (decide (a = " "%char)) as [->|Hn].
    + split; [|done]. intros E2. apply dropLast_lastByte in E.
      rewrite E2 in E. apply (f_equal String.length) in E.
      rewrite string_length_app in E. simpl in E. lia.
    + split; [congruence|]. intros _.
      destruct a as [[] [] [] [] [] [] [] []]; try done.
Qed.

Section Text.
Context `{GoLib}.

(** X2.  After a write of a non-empty text, the next write starts with two
    spaces per level of indentation exactly when that text ended in a
    newline; otherwise it follows directly. *)
Theorem write_indents (s1 s2 : string) (c : Compiler) :
  s1 <> "" ->
  output (write s2 (write s1 c))
  = output (write s1 c)
      +:+ match lastByte s1 with
          | Some b => if Ascii.eqb b (ascii_of_nat 10)
                      then spaces (Z.to_nat (2 * indent c)) else ""
          | None => ""
          end
      +:+ s2.
Proof.
  intros Hs. pose proof (lastByte_write s1 c Hs) as E.
  unfold write at 1. cbn [output set_output set_atBlockEnd indent].
  by rewrite E.
Qed.

End Text.

(** ** What lowering keeps *)

Section Emission.
Context `{GoLib}.
Variable R : Compiler -> Compiler -> Prop.
Hypothesis R_refl : forall c, R c c.
Hypothesis R_trans : forall c1 c2 c3, R c1 c2 -> R c2 c3 -> R c1 c3.
Hypothesis R_write : forall s c, R c (write s c).
Hypothesis R_errorf : forall pos msg c, R c (errorf pos msg c).
Hypothesis R_bracket : forall c c1,
    R (set_indent (indent c + 1) c) c1 -> R c (set_indent (indent c1 - 1) c1).
Hypothesis R_atBlockEnd : forall b c, R c (set_atBlockEnd b c).
Hypothesis R_fields : forall m c, R c (set_fieldIndices m c).
Hypothesis R_type : forall typ pos c, R c (genTypeExpr typ pos c).2.
Hypothesis R_decls : forall m c, R c (set_genTypeDecls m c).
Hypothesis R_defns : forall m c, R c (set_genTypeDefns m c).
Hypothesis R_funcs : forall m c, R c (set_genFuncDecls m c).

(** The relation holds between the state after the include line and the
    state in which [compile] ends. *)
Lemma compile_emission_R files c :
  compile (Resolved files) = Some c ->
  R (write ("#include " +:+ quote +:+ "gx.hh" +:+ quote +:+ newline)
       newCompiler) c.
Proof.
  unfold compile. intros E.
  destruct (collectFromFuncs _ _ _ _) as [[collected typeSpecs]|];
    cbn [mbind option_bind] in E; [|discriminate].
  apply (writeFuncDefns_R R) in E; auto.
  eapply R_trans; [|exact E].
  eapply R_trans; [|apply R_write].
  eapply R_trans; [|apply (writeFuncDecls_R R); auto].
  eapply R_trans; [|apply R_write].
  eapply R_trans; [|apply (writeTypeDefns_R R); auto].
  eapply R_trans; [|apply R_write].
  eapply R_trans; [|apply (writeTypeDecls_R R); auto].
  apply R_write.
Qed.

End Emission.

Section Kept.
Context `{GoLib}.

Lemma appendsOutput_refl c : appendsOutput c c.
Proof. exists "". by rewrite string_app_nil_r. Qed.

Lemma appendsOutput_trans c1 c2 c3 :
  appendsOutput c1 c2 -> appendsOutput c2 c3 -> appendsOutput c1 c3.
Proof.
  intros [s1 E1] [s2 E2]. exists (s1 +:+ s2).
  by rewrite E2, E1, string_app_assoc.
Qed.

Lemma appendsOutput_write s c : appendsOutput c (write s c).
Proof. unfold write. by eexists. Qed.

Lemma appendsOutput_eq c c' : output c' = output c -> appendsOutput c c'.
Proof. intros E. exists "". by rewrite string_app_nil_r. Qed.

Lemma appendsOutput_type typ pos c : appendsOutput c (genTypeExpr typ pos c).2.
Proof. apply appendsOutput_eq, genTypeExpr_step. Qed.

Lemma indent_type typ pos c : indent (genTypeExpr typ pos c).2 = indent c.
Proof. apply genTypeExpr_step. Qed.

(** X3.  Lowering an expression or a statement leaves the indentation
    where it was: every level opened by a block or by a literal spread
    over lines is closed again. *)
Theorem lowering_keeps_indent n c c' :
  writeNode n c = Some c' -> indent c' = indent c.
Proof.
  assert ((forall e c c', writeExpr e c = Some c' -> indent c' = indent c) /\
          (forall s c c', writeStmt s c = Some c' -> indent c' = indent c))
    as [HE HS].
  { apply (writers_R (fun c c' => indent c' = indent c));
      try (intros; simpl; first [done | congruence | apply indent_type]).
    intros c0 c1 E. simpl in *. lia. }
  destruct n; simpl; [apply HE|apply HS].
Qed.

(** X4.  Lowering an expression or a statement only appends: the
    diagnostics and the output it starts from are prefixes of those it
    ends with. *)
Theorem lowering_appends n c c' :
  writeNode n c = Some c' -> extends c c' /\ appendsOutput c c'.
Proof.
  intros E. split.
  - destruct n; simpl in E;
      [by eapply writeExpr_extends|by eapply writeStmt_extends].
  - revert c c' E.
    assert ((forall e c c', writeExpr e c = Some c' -> appendsOutput c c') /\
            (forall s c c', writeStmt s c = Some c' -> appendsOutput c c'))
      as [HE HS].
    { apply (writers_R appendsOutput);
        auto using appendsOutput_refl, appendsOutput_write,
          appendsOutput_eq, appendsOutput_type.
      apply appendsOutput_trans. }
    destruct n; simpl; [apply HE|apply HS].
Qed.

(** X5.  The output of a run that ends starts with the include line, and
    the run ends at indentation level zero. *)
Theorem compile_prologue files c :
  compile (Resolved files) = Some c ->
  (exists rest,
      output c
      = "#include " +:+ quote +:+ "gx.hh" +:+ quote +:+ newline +:+ rest) /\
  indent c = 0.
Proof.
  intros E. split.
  - apply (compile_emission_R appendsOutput) in E;
      try (by auto using appendsOutput_refl, appendsOutput_write,
             appendsOutput_eq, appendsOutput_type);
      try apply appendsOutput_trans.
  - apply (compile_emission_R (fun c c' => indent c' = indent c)) in E;
      try (intros; simpl; first [done | congruence | apply indent_type]).
    intros c0 c1 E1. simpl in *. lia.
Qed.

End Kept.

(** ** Field indices and the order of keys *)

Section Fields.
Context `{GoLib}.

Lemma storeFieldIndices_other fields i (m : gmap N Z) g :
  g ∉ fields -> storeFieldIndices fields i m !! g = m !! g.
Proof.
  revert i m. induction fields as [|f r IH]; intros i m Hg; simpl; [done|].
  apply not_elem_of_cons in Hg as [Hf Hr].
  rewrite IH by done. by rewrite lookup_insert_ne.
Qed.

Lemma storeFieldIndices_lookup fields i (m : gmap N Z) k f :
  NoDup fields -> fields !! k = Some f ->
  storeFieldIndices fields i m !! f = Some (i + Z.of_nat k).
Proof.
  revert i m k. induction fields as [|x r IH]; intros i m k Hnd E; [done|].
  apply NoDup_cons in Hnd as [Hx Hnd]. simpl. destruct k as [|k]; simpl in E.
  - injection E as ->. rewrite storeFieldIndices_other by done.
    rewrite lookup_insert_eq. f_equal. lia.
  - rewrite (IH (i + 1) _ k Hnd E). f_equal. lia.
Qed.

Lemma computeFieldIndices_fresh fields c :
  NoDup fields ->
  (forall f0, head fields = Some f0 -> fieldIndices c !! f0 = None) ->
  computeFieldIndices fields c
  = set_fieldIndices (storeFieldIndices fields 0 (fieldIndices c)) c.
Proof.
  intros Hnd Hfresh. destruct fields as [|f0 r]; [by destruct c|].
  unfold computeFieldIndices. by rewrite (Hfresh f0 eq_refl).
Qed.

Lemma computeFieldIndices_indexed fields c k f :
  NoDup fields ->
  (forall f0, head fields = Some f0 -> fieldIndices c !! f0 = None) ->
  fields !! k = Some f ->
  fieldIndices (computeFieldIndices fields c) !! f = Some (Z.of_nat k).
Proof.
  intros Hnd Hfresh E. rewrite computeFieldIndices_fresh by done.
  cbn [fieldIndices set_fieldIndices].
  by rewrite (storeFieldIndices_lookup _ 0 _ k f Hnd E).
Qed.

(** X6.  For a struct whose fields are distinct objects and whose first
    field has no index yet, [computeFieldIndices] gives every field its
    position in the declaration, leaves the indices of all other objects
    alone, and a second call changes nothing. *)
Theorem computeFieldIndices_lookup fields c :
  NoDup fields ->
  (forall f0, head fields = Some f0 -> fieldIndices c !! f0 = None) ->
  let c' := computeFieldIndices fields c in
  (forall k f, fields !! k = Some f ->
               fieldIndices c' !! f = Some (Z.of_nat k)) /\
  (forall g, g ∉ fields -> fieldIndices c' !! g = fieldIndices c !! g) /\
  computeFieldIndices fields c' = c'.
Proof.
  intros Hnd Hfresh c'. subst c'. split; [|split].
  - intros k f E. by apply computeFieldIndices_indexed.
  - intros g Hg. rewrite computeFieldIndices_fresh by done.
    by apply storeFieldIndices_other.
  - destruct fields as [|f0 r] eqn:Ef; [done|].
    pose proof (computeFieldIndices_indexed (f0 :: r) c 0%nat f0 Hnd Hfresh
                  eq_refl) as E1.
    unfold computeFieldIndices at 1. by rewrite E1.
Qed.

Lemma checkFieldOrder_keyIndices pos elts lastIndex c idxs :
  keyIndices (fieldIndices c) elts = Some idxs ->
  checkFieldOrder pos elts lastIndex c
  = Some (if nondecreasing lastIndex idxs then c
          else errorf pos
                 "struct literal fields must appear in definition order" c).
Proof.
  revert lastIndex idxs.
  induction elts as [|e r IH]; intros lastIndex idxs E; simpl in *.
  - by injection E as <-.
  - destruct e; try discriminate. destruct e1; try discriminate.
    destruct (ObjectOf id); try discriminate.
    destruct (keyIndices (fieldIndices c) r) as [rest|]; [|discriminate].
    injection E as <-. simpl.
    destruct (_ <? lastIndex); simpl; [done|]. by apply IH.
Qed.

(** X7.  The check of the keys of a struct literal depends on the indices
    of the keys alone: it records nothing when no index is below the one
    before it, and otherwise one diagnostic at the position of the
    literal, however many keys are out of order.  It changes nothing
    else. *)
Theorem checkFieldOrder_spec pos elts lastIndex c idxs :
  keyIndices (fieldIndices c) elts = Some idxs ->
  checkFieldOrder pos elts lastIndex c
  = Some (if nondecreasing lastIndex idxs then c
          else errorf pos
                 "struct literal fields must appear in definition order" c).
Proof. apply checkFieldOrder_keyIndices. Qed.

Lemma keyPositions_indices fields elts ks (m : gmap N Z) :
  (forall k f, fields !! k = Some f -> m !! f = Some (Z.of_nat k)) ->
  keyPositions fields elts = Some ks ->
  keyIndices m elts = Some (Z.of_nat <$> ks).
Proof.
  intros Hm. revert ks. induction elts as [|e r IH]; intros ks E; simpl in *.
  - by injection E as <-.
  - destruct e; try discriminate. destruct e1; try discriminate.
    destruct (ObjectOf id) as [|field| |]; try discriminate.
    destruct (list_find _ fields) as [[k f]|] eqn:Ek;
      cbn [fmap option_fmap option_map mbind option_bind fst] in E;
      [|discriminate].
    destruct (keyPositions fields r) as [rest|];
      cbn [mbind option_bind] in E; [|discriminate].
    injection E as <-. rewrite (IH rest eq_refl).
    apply list_find_Some in Ek as (Ek & <- & _).
    by rewrite (Hm k _ Ek).
Qed.

(** X8.  A struct literal with its type written out, over a struct whose
    fields have no index yet: when the keys are fields of the struct and
    some key comes before a field declared earlier than it, lowering the
    literal records the diagnostic about the order at the position of the
    literal. *)
Theorem keyed_literal_out_of_order tv t lb elts typ ttyp a fields ks c c' :
  TypeOf tv = Some typ ->
  TypeOf (exprTV t) = Some ttyp ->
  Underlying ttyp = Struct a fields ->
  NoDup fields ->
  (forall f, f ∈ fields -> fieldIndices c !! f = None) ->
  keyPositions fields elts = Some ks ->
  nondecreasing 0 (Z.of_nat <$> ks) = false ->
  writeExpr (CompositeLit tv (Some t) lb elts) c = Some c' ->
  exists pre post,
    errors c'
    = errors c +:+ pre
        +:+ diagnostic (exprPos t)
              "struct literal fields must appear in definition order"
        +:+ post.
Proof.
  intros Htv Ht Hu Hnd Hfresh Hks Hbad E.
  cbn [writeExpr exprPos] in E. unfold writeCompositeLit in E.
  rewrite Htv in E. cbn [mbind option_bind] in E.
  pose proof (genTypeExpr_step typ (exprPos t) c) as Hstep.
  destruct (genTypeExpr typ (exprPos t) c) as [s c0]. simpl in Hstep.
  destruct Hstep as ([pre Hpre] & Hfi & _).
  destruct elts as [|e0 r]; [by injection Hks as <-|].
  assert (exists ktv k v, e0 = KeyValueExpr ktv k v) as (ktv & k & v & ->).
  { simpl in Hks. destruct e0; try discriminate. by eexists _, _, _. }
  cbn [mbind option_bind] in E. rewrite Ht in E.
  cbn [mbind option_bind] in E. rewrite Hu in E.
  set (elts := KeyValueExpr ktv k v :: r) in *.
  set (c1 := write "{" (write s c0)) in *.
  assert (forall f0, head fields = Some f0 -> fieldIndices c1 !! f0 = None)
    as Hfresh1.
  { intros f0 Hf0. simpl. rewrite Hfi. apply Hfresh.
    destruct fields; [done|]. injection Hf0 as ->. by left. }
  pose proof (keyPositions_indices fields elts ks
                (fieldIndices (computeFieldIndices fields c1))
                (fun k f => computeFieldIndices_indexed fields c1 k f Hnd
                              Hfresh1) Hks) as Hki.
  rewrite (checkFieldOrder_keyIndices _ _ 0 _ _ Hki), Hbad in E.
  cbn [mbind option_bind] in E.
  set (c2 := errorf _ _ _) in E.
  assert (extends c2 c') as [post Hpost].
  { destruct (_ =? _).
    - destruct (writeEltsInline writeExpr elts true _) as [c3|] eqn:E3;
        cbn [mbind option_bind] in E; [|discriminate].
      injection E as <-. apply writeEltsInline_extends in E3.
      eapply extends_trans; [exact E3|].
      eapply extends_trans; apply extends_write.
    - destruct (writeEltsLines writeExpr elts _) as [c3|] eqn:E3;
        cbn [mbind option_bind] in E; [|discriminate].
      injection E as <-. apply writeEltsLines_extends in E3.
      eapply extends_trans; [|apply extends_write].
      destruct E3 as [x E3]. exists x. simpl. exact E3. }
  exists pre, post. rewrite Hpost. subst c2. unfold errorf at 1.
  cbn [errors set_errors].
  assert (errors (computeFieldIndices fields c1) = errors c0) as ->.
  { rewrite computeFieldIndices_fresh by done. done. }
  rewrite Hpre. by rewrite !string_app_assoc.
Qed.

End Fields.

(** ** Constructs without a lowering *)

Section Unsupported.
Context `{GoLib}.

Lemma unsupportedNode_rejected n : unsupportedNode n -> rejected n.
Proof.
  destruct 1 as [tv pos ids|pos ids|tv pos kind value Hk|tv pos op x Hop
                |tv pos x Ha|tv x pos op y Hop|tv k v Hk
                |l0 l1 lhs pos tok rhs|l0 pos tok rhs Htok|r0 r1 rs
                |pos tok label Htok];
    intros c c' E; simpl in E.
  - injection E as <-. apply errored_errorf.
  - injection E as <-. apply errored_errorf.
  - injection E as <-. destruct kind; try discriminate Hk; apply errored_errorf.
  - unfold writeUnaryExpr in E.
    eapply errored_extends; [exact (writeExpr_extends _ _ _ E)|].
    destruct op; try discriminate Hop; apply errored_errorf.
  - unfold writeUnaryExpr in E. rewrite Ha in E.
    eapply errored_extends; [exact (writeExpr_extends _ _ _ E)|].
    rewrite errored_write. apply errored_errorf.
  - unfold writeBinaryExpr in E.
    destruct (writeExpr x c) as [c1|]; cbn [mbind option_bind] in E;
      [|discriminate].
    eapply errored_extends; [exact (writeExpr_extends _ _ _ E)|].
    rewrite errored_write.
    destruct op; try discriminate Hop; apply errored_errorf.
  - unfold writeKeyValueExpr in E. destruct k; try discriminate Hk;
      injection E as <-; apply errored_errorf.
  - injection E as <-. apply errored_errorf.
  - unfold writeAssignStmt in E.
    destruct (writeExpr l0 _) as [c1|]; cbn [mbind option_bind] in E;
      [|discriminate].
    destruct rhs as [|rhs0 rhs]; [discriminate|].
    eapply errored_extends; [exact (writeExpr_extends _ _ _ E)|].
    rewrite errored_write.
    destruct tok; try discriminate Htok; apply errored_errorf.
  - injection E as <-. apply errored_errorf.
  - injection E as <-. unfold writeBranchStmt.
    destruct tok; try discriminate Htok; apply errored_errorf.
Qed.

(** X9.  A construct the writers have no lowering for (an unknown form of
    expression or statement, a literal that is not a number or a string,
    an operator outside the supported ones, the address of a value that is
    not addressable, a literal key that is not an identifier, several
    targets or results, a branch other than break and continue), anywhere
    the lowering of a function body descends to, keeps the run from
    writing a file. *)
Theorem unsupported_construct_rejected frontend prog dir out files d body n :
  frontend dir = Resolved files ->
  d ∈ funcDecls files ->
  declBody d = Some body ->
  rtc lowers (NS (BlockStmt body)) n ->
  unsupportedNode n ->
  forall path content, main frontend [prog; dir; out] <> Written path content.
Proof.
  intros Hf Hin Hb Hn Hun. apply no_artifact. rewrite Hf. intros c.
  apply (compile_body_reports files d body n c Hin Hb Hn).
  by apply unsupportedNode_rejected.
Qed.

(** X10.  With a number of command-line arguments other than two (three
    with the program name), the program prints its usage line and does
    nothing else, whatever the directory holds. *)
Theorem main_usage frontend args :
  length args <> 3%nat ->
  main frontend args
  = Printed ("usage: gx <input_directory> <output_file>" +:+ newline).
Proof.
  intros Hl. destruct args as [|a [|b [|c [|d r]]]]; try done.
Qed.


(** ** Parameters passed by value *)

Lemma addParam_byValue param c kind :
  byValueKind (Underlying (varType param)) = Some kind ->
  exists post,
    errors (addParam param c).2
    = errors c
        +:+ diagnostic (varPos param)
              ("cannot pass " +:+ kind +:+ " by value, use pointer to "
                 +:+ kind +:+ " *" +:+ TypeString (varType param)
                 +:+ " instead")
        +:+ post.
Proof.
  intros Hk. unfold addParam.
  set (size := sizeOf (varType param)).
  set (c1 := errorf (varPos param)
               ("cannot pass " +:+ kind +:+ " by value, use pointer to "
                  +:+ kind +:+ " *" +:+ TypeString (varType param)
                  +:+ " instead") c).
  assert (match Underlying (varType param) with
          | Array _ _ _ =>
              errorf (varPos param)
                ("cannot pass array by value, use pointer to array *"
                   +:+ TypeString (varType param) +:+ " instead") c
          | Slice _ _ =>
              errorf (varPos param)
                ("cannot pass slice by value, use pointer to slice *"
                   +:+ TypeString (varType param) +:+ " instead") c
          | _ => c
          end = c1) as ->.
  { subst c1. destruct (Underlying (varType param)); try discriminate Hk;
      by injection Hk as <-. }
  set (c2 := if 96 <? size then _ else c1).
  assert (extends c1 c2) as [mid Hmid].
  { subst c2. destruct (96 <? size); [apply extends_errorf|apply extends_refl]. }
  destruct (genTypeExpr_extends (varType param) (varPos param) c2)
    as [post Hpost].
  destruct (genTypeExpr _ _ c2) as [s c3]. simpl in Hpost |- *.
  exists (mid +:+ post). rewrite Hpost, Hmid. subst c1.
  unfold errorf. cbn [errors set_errors]. by rewrite !string_app_assoc.
Qed.

Lemma addParams_reports params param first c :
  param ∈ params ->
  (forall c0, errored (addParam param c0).2 = true) ->
  errored (addParams params first c).2 = true.
Proof.
  intros Hin He. revert first c.
  induction params as [|p r IH]; intros first c; [by apply elem_of_nil in Hin|].
  simpl. apply elem_of_cons in Hin as [<-|Hin].
  - specialize (He c). destruct (addParam param c) as [s c1].
    pose proof (addParams_extends r false c1) as Hx.
    destruct (addParams r false c1). simpl in *.
    by eapply errored_extends.
  - destruct (addParam p c) as [s c1]. specialize (IH Hin false c1).
    by destruct (addParams r false c1).
Qed.

Lemma genParams_reports decl param c :
  Recv (declSig decl) = Some param \/ param ∈ Params (declSig decl) ->
  (forall c0, errored (addParam param c0).2 = true) ->
  errored (genParams decl c).2 = true.
Proof.
  intros Hin He. unfold genParams. destruct Hin as [Hr|Hp].
  - rewrite Hr. specialize (He c).
    destruct (addParam param c) as [rs c1].
    pose proof (addParams_extends (Params (declSig decl))
                  (negb (bool_decide (is_Some (Some param)))) c1) as Hx.
    destruct (addParams _ _ c1). simpl in *. by eapply errored_extends.
  - destruct (match Recv (declSig decl) with
              | Some r => addParam r c | None => ("", c) end) as [rs c1].
    pose proof (addParams_reports (Params (declSig decl)) param
                  (negb (bool_decide (is_Some (Recv (declSig decl))))) c1
                  Hp He) as He1.
    by destruct (addParams _ _ c1).
Qed.

(** X12.  A parameter or receiver whose underlying type is an array or a
    slice gets, before anything else is recorded for it, the diagnostic
    that asks for a pointer instead, and the run writes no file. *)
Theorem by_value_parameter_rejected frontend prog dir out files decl param
    kind :
  frontend dir = Resolved files ->
  NoDup (map declAddr (funcDecls files)) ->
  decl ∈ funcDecls files ->
  Recv (declSig decl) = Some param \/ param ∈ Params (declSig decl) ->
  byValueKind (Underlying (varType param)) = Some kind ->
  (forall c, exists post,
      errors (addParam param c).2
      = errors c
          +:+ diagnostic (varPos param)
                ("cannot pass " +:+ kind +:+ " by value, use pointer to "
                   +:+ kind +:+ " *" +:+ TypeString (varType param)
                   +:+ " instead")
          +:+ post) /\
  (forall path content,
      main frontend [prog; dir; out] <> Written path content).
Proof.
  intros Hf Hnd Hin Hp Hk. split; [intros c; by apply addParam_byValue|].
  apply no_artifact. rewrite Hf. intros c.
  apply (compile_reports files decl c Hnd Hin).
  intros c0 Hc0. unfold genFuncDecl. rewrite Hc0.
  destruct (genResult decl c0) as [ret c1].
  assert (errored (genParams decl c1).2 = true) as He.
  { apply (genParams_reports decl param c1 Hp). intros c2.
    destruct (addParam_byValue param c2 kind Hk) as [post E].
    unfold errored. rewrite E, !string_length_app.
    pose proof (diagnostic_nonempty (varPos param)
      ("cannot pass " +:+ kind +:+ " by value, use pointer to "
         +:+ kind +:+ " *" +:+ TypeString (varType param)
         +:+ " instead")).
    destruct (_ + _)%nat eqn:En; [lia|done]. }
  by destruct (genParams decl c1).
Qed.

End Unsupported.

(** ** Types and parameters *)

Section Declarations.
Context `{GoLib}.

(** X13.  Only struct types get a definition: for an interface or any
    other type expression, the pass over the definitions writes nothing
    and only notes the empty text in its cache.  An interface without type
    parameters gets no declaration either. *)
Theorem only_structs_defined ts c :
  (forall fields, specType ts <> StructType fields) ->
  (genTypeDefns c !! specAddr ts = None ->
   writeTypeDefns [ts] c
   = set_genTypeDefns (<[specAddr ts := ""]> (genTypeDefns c)) c) /\
  (specType ts = InterfaceType -> specTypeParams ts = None ->
   genTypeDecls c !! specAddr ts = None ->
   writeTypeDecls [ts] c
   = set_genTypeDecls (<[specAddr ts := ""]> (genTypeDecls c)) c).
Proof.
  intros Hs. split.
  - intros Hc. simpl. unfold genTypeDefn. rewrite Hc.
    destruct (specType ts) as [fields| |pos typ]; [by destruct (Hs fields)|..];
      done.
  - intros Hi Hp Hc. simpl. unfold genTypeDecl. by rewrite Hc, Hi, Hp.
Qed.

(** X14.  A parameter whose underlying type is neither an array nor a
    slice and whose size is at most 96 bytes, or cannot be computed (the
    size of a type parameter), records nothing of its own: it is the
    spelling of its type followed by its name. *)
Theorem parameter_accepted param c :
  byValueKind (Underlying (varType param)) = None ->
  match Sizeof (varType param) with Some n => n <= 96 | None => True end ->
  addParam param c
  = ((genTypeExpr (varType param) (varPos param) c).1 +:+ varName param,
     (genTypeExpr (varType param) (varPos param) c).2).
Proof.
  intros Hk Hsz. unfold addParam.
  assert ((96 <? sizeOf (varType param)) = false) as ->.
  { apply Z.ltb_ge. unfold sizeOf. destruct (Sizeof (varType param)); lia. }
  assert (match Underlying (varType param) with
          | Array _ _ _ =>
              errorf (varPos param)
                ("cannot pass array by value, use pointer to array *"
                   +:+ TypeString (varType param) +:+ " instead") c
          | Slice _ _ =>
              errorf (varPos param)
                ("cannot pass slice by value, use pointer to slice *"
                   +:+ TypeString (varType param) +:+ " instead") c
          | _ => c
          end = c) as ->
    by (destruct (Underlying (varType param)); done).
  by destruct (genTypeExpr _ _ c).
Qed.

(** X15.  The spelling of a type that is not yet in the cache, for the
    shapes that name something: a named type is its name, followed by the
    spellings of its type arguments between angle brackets when it has
    any; a type parameter is its name; a function type is a forwarding
    reference.  None of them records a diagnostic of its own. *)
Theorem genTypeExpr_names typ pos c :
  genTypeExprs c !! addrOf typ = None ->
  let r := genTypeExpr typ pos c in
  match typ with
  | Named _ n _ None => r.1 = n +:+ " " /\ errors r.2 = errors c
  | Named _ n _ (Some args) =>
      r.1 = n +:+ "<" +:+ (genTypeArgs genTypeExpr pos args true c).1
              +:+ "> " /\
      errors r.2 = errors (genTypeArgs genTypeExpr pos args true c).2
  | TypeParam _ n => r.1 = n +:+ " " /\ errors r.2 = errors c
  | Signature _ => r.1 = "auto &&" /\ errors r.2 = errors c
  | _ => True
  end.
Proof.
  intros Hc r. subst r. rewrite (genTypeExpr_miss _ _ _ Hc).
  destruct typ as [a k|a e|a n tps targs|a n|a|a e n|a e|a fs|a]; simpl;
    try done.
  destruct targs as [args|]; [|done].
  destruct (genTypeArgs genTypeExpr pos args true c) as [s c1]. simpl.
  by rewrite !string_app_assoc.
Qed.

End Declarations.

(** ** Statement ends *)

Section Ends.
Context `{GoLib}.

Lemma writeBlockStmt_atBlockEnd wS l c c' :
  writeBlockStmt wS l c = Some c' -> atBlockEnd c' = true.
Proof.
  unfold writeBlockStmt. intros E.
  destruct (writeStmtList wS l _); cbn [mbind option_bind] in E;
    [|discriminate]. by injection E as <-.
Qed.

Lemma writeExpr_atBlockEnd e c c' :
  writeExpr e c = Some c' -> atBlockEnd c = false -> atBlockEnd c' = false.
Proof.
  revert e c c'.
  enough ((forall e c c', writeExpr e c = Some c' ->
                          atBlockEnd c = false -> atBlockEnd c' = false) /\
          (forall s : Stmt, True)) as [HE _] by exact HE.
  apply (syntax_ind
    (fun e => forall c c', writeExpr e c = Some c' ->
                           atBlockEnd c = false -> atBlockEnd c' = false)
    (fun _ => True)); try (intros; exact I).
  - intros id c c' [= <-] _. done.
  - intros tv p k v c c' [= <-] Hc. unfold writeBasicLit. by destruct k.
  - intros tv p tids sig body _ c c' E _. simpl in E. unfold writeFuncLit in E.
    destruct (writeBlockStmt _ _ _); cbn [mbind option_bind] in E;
      [|discriminate]. by injection E as <-.
  - intros tv t lb elts _ _ c c' E _. simpl in E. unfold writeCompositeLit in E.
    destruct (TypeOf tv); cbn [mbind option_bind] in E; [|discriminate].
    destruct (genTypeExpr _ _ c).
    destruct (match elts with nil => _ | _ => _ end);
      cbn [mbind option_bind] in E; [|discriminate]. by injection E as <-.
  - intros tv p x _ c c' E _. simpl in E. unfold writeParenExpr in E.
    destruct (writeExpr x _); cbn [mbind option_bind] in E; [|discriminate].
    by injection E as <-.
  - intros tv x sel _ c c' E _. simpl in E. unfold writeSelectorExpr in E.
    destruct (writeExpr x _); cbn [mbind option_bind] in E; [|discriminate].
    by injection E as <-.
  - intros tv x i _ _ c c' E _. simpl in E. unfold writeIndexExpr in E.
    destruct (if isPointer _ then _ else _); cbn [mbind option_bind] in E;
      [|discriminate].
    destruct (writeExpr i _); cbn [mbind option_bind] in E; [|discriminate].
    by injection E as <-.
  - intros tv f args _ _ _ c c' E _. simpl in E. unfold writeCallExpr in E.
    destruct (match f with SelectorExpr _ _ _ => _ | _ => _ end)
      as [[method c1]|]; cbn [mbind option_bind] in E; [|discriminate].
    destruct (if method then _ else _); cbn [mbind option_bind] in E;
      [|discriminate].
    destruct (writeArgs _ _ _ _ _); cbn [mbind option_bind] in E;
      [|discriminate]. by injection E as <-.
  - intros tv p x IH c c' E _. simpl in E. unfold writeStarExpr in E.
    by apply IH in E.
  - intros tv p op x IH c c' E Hc. simpl in E. unfold writeUnaryExpr in E.
    apply IH in E; [done|]. by destruct op.
  - intros tv x p op y _ IH c c' E _. simpl in E. unfold writeBinaryExpr in E.
    destruct (writeExpr x _); cbn [mbind option_bind] in E; [|discriminate].
    by apply IH in E.
  - intros tv k v _ IH c c' E Hc. simpl in E. unfold writeKeyValueExpr in E.
    destruct k; try (by injection E as <-). by apply IH in E.
  - intros tv p ids c c' [= <-] Hc. done.
Qed.

Lemma writeStmt_atBlockEnd s c c' :
  writeStmt s c = Some c' -> atBlockEnd c = false ->
  atBlockEnd c' = endsInBlock s.
Proof.
  revert s c c'.
  enough ((forall e : Expr, True) /\
          (forall s c c', writeStmt s c = Some c' ->
                          atBlockEnd c = false ->
                          atBlockEnd c' = endsInBlock s)) as [_ HS]
    by exact HS.
  apply (syntax_ind
    (fun _ => True)
    (fun s => forall c c', writeStmt s c = Some c' ->
                           atBlockEnd c = false ->
                           atBlockEnd c' = endsInBlock s));
    try (intros; exact I).
  - intros x _ c c' E Hc. simpl in *. by eapply writeExpr_atBlockEnd.
  - intros lhs p tok rhs _ _ c c' E Hc. simpl in *.
    unfold writeAssignStmt in E.
    destruct lhs as [|l0 [|l1 lhs]]; [discriminate| |by injection E as <-].
    destruct (writeExpr l0 _); cbn [mbind option_bind] in E; [|discriminate].
    destruct rhs as [|r0 rhs]; [discriminate|].
    by apply writeExpr_atBlockEnd in E.
  - intros rs _ c c' E Hc. simpl in *. unfold writeReturnStmt in E.
    destruct rs as [|r0 [|r1 rs]]; [by injection E as <-| |by injection E as <-].
    by apply writeExpr_atBlockEnd in E.
  - intros p tok l c c' [= <-] Hc. simpl. unfold writeBranchStmt.
    by destruct tok.
  - intros l _ c c' E _. simpl in *. by eapply writeBlockStmt_atBlockEnd.
  - intros init cond body els _ _ _ IH c c' E _. simpl in E.
    unfold writeIfStmt in E.
    destruct (match init with Some _ => _ | None => _ end);
      cbn [mbind option_bind] in E; [|discriminate].
    destruct (writeExpr cond _); cbn [mbind option_bind] in E; [|discriminate].
    destruct (writeBlockStmt _ _ _) as [c3|] eqn:E3;
      cbn [mbind option_bind] in E; [|discriminate].
    destruct els as [e|]; simpl.
    + by apply IH in E.
    + injection E as <-. by eapply writeBlockStmt_atBlockEnd.
  - intros init cond post body _ _ _ _ c c' E _. simpl in E.
    unfold writeForStmt in E.
    destruct (match init with Some _ => _ | None => _ end);
      cbn [mbind option_bind] in E; [|discriminate].
    destruct (match cond with Some _ => _ | None => _ end);
      cbn [mbind option_bind] in E; [|discriminate].
    destruct (match post with Some _ => _ | None => _ end);
      cbn [mbind option_bind] in E; [|discriminate].
    by eapply writeBlockStmt_atBlockEnd.
  - intros p ids c c' [= <-] Hc. done.
Qed.

(** X16.  A statement written where no block has just ended leaves the
    block-end flag set exactly when its text ends with the closing brace
    of a block; a statement list therefore ends such a statement with a
    newline alone, and any other with a semicolon and a newline. *)
Theorem statement_terminator s r c c1 :
  atBlockEnd c = false ->
  writeStmt s c = Some c1 ->
  atBlockEnd c1 = endsInBlock s /\
  writeStmtList writeStmt (s :: r) c
  = writeStmtList writeStmt r
      (write newline (if endsInBlock s then c1 else write ";" c1)).
Proof.
  intros Hc E. pose proof (writeStmt_atBlockEnd s c c1 E Hc) as Hb.
  split; [done|]. simpl. rewrite E. cbn [mbind option_bind]. by rewrite Hb.
Qed.

End Ends.

(** ** Collection and crashes *)

Section Collection.
Context `{GoLib}.



Lemma writeFuncDefns_crash decls c :
  writeFuncDefns decls c = None ->
  exists d body c0,
    d ∈ decls /\ declBody d = Some body /\
    writeStmt (BlockStmt body) c0 = None.
Proof.
  revert c. induction decls as [|d r IH]; intros c E; [discriminate|].
  simpl in E. destruct (declBody d) as [body|] eqn:Hb.
  - destruct (genFuncDecl d (write newline c)) as [s c1].
    destruct (writeBlockStmt writeStmt body _) as [c2|] eqn:E2;
      cbn [mbind option_bind] in E.
    + destruct (IH _ E) as (d' & body' & c0 & Hin & Hb' & Hc).
      exists d', body', c0. split; [by right|done].
    + exists d, body, (write " " (write s c1)). split; [by left|done].
  - destruct (IH _ E) as (d' & body' & c0 & Hin & Hb' & Hc).
    exists d', body', c0. split; [by right|done].
Qed.

(** X18.  Whatever the program, the collection of the types, the type
    declarations and definitions and the function signatures never crash:
    a run crashes only while it lowers the body of some function. *)
Theorem crash_only_in_body files :
  compile (Resolved files) = None ->
  exists d body c,
    d ∈ funcDecls files /\ declBody d = Some body /\
    writeStmt (BlockStmt body) c = None.
Proof.
  intros E. unfold compile in E.
  set (topLevel := typeSpecTopLevel files) in *.
  pose proof (typeSpecTopLevel_wf files) as Hwf. fold topLevel in Hwf.
  destruct (collect_total topLevel Hwf (S (size topLevel))
              (concat (identsFuncDecl <$> funcDecls files)) ∅ [])
    as [[V L] Ec].
  { assert (size (dom topLevel ∖ (∅ : gset N)) <= size (dom topLevel))%nat
      as Hs by (apply subseteq_size; set_solver).
    rewrite size_dom in Hs. lia. }
  rewrite collectFromFuncs_flat, Ec in E. cbn [mbind option_bind] in E.
  by apply writeFuncDefns_crash in E.
Qed.

End Collection.

(** ** Programs on which no writer panics *)

Section CrashFree.
Context `{GoLib}.













End CrashFree.


(** ** Rendering and writing *)

Section Rendering.
Context `{GoLib}.

Lemma silent_refl c : silent c c.
Proof. done. Qed.

Lemma silent_trans c1 c2 c3 : silent c1 c2 -> silent c2 c3 -> silent c1 c3.
Proof. intros (?&?&?) (?&?&?). repeat split; congruence. Qed.

Lemma silent_type typ pos c : silent c (genTypeExpr typ pos c).2.
Proof.
  destruct (genTypeExpr_step typ pos c) as (_&_&_&_&_&?&?&?). by repeat split.
Qed.

(** X20.  The functions that render a text (the spelling of a type, the
    declaration and the definition of a type, the signature of a
    function) only return it: none of them writes to the output or moves
    the indentation, and whatever they record as diagnostics comes after
    the diagnostics already there. *)
Theorem rendering_is_silent c :
  (forall typ pos,
      silent c (genTypeExpr typ pos c).2 /\
      extends c (genTypeExpr typ pos c).2) /\
  (forall ts, silent c (genTypeDecl ts c).2 /\ extends c (genTypeDecl ts c).2) /\
  (forall ts, silent c (genTypeDefn ts c).2 /\ extends c (genTypeDefn ts c).2) /\
  (forall d, silent c (genFuncDecl d c).2 /\ extends c (genFuncDecl d c).2).
Proof.
  split; [|split; [|split]].
  - intros typ pos. split; [apply silent_type|apply genTypeExpr_extends].
  - intros ts. split.
    + apply (genTypeDecl_R silent);
        first [apply silent_type | apply silent_trans | by intros].
    + apply (genTypeDecl_R extends);
        first [apply genTypeExpr_extends | apply extends_trans
              | apply extends_errorf | intros; by apply extends_eq].
  - intros ts. split.
    + apply (genTypeDefn_R silent);
        first [apply silent_type | apply silent_trans | by intros].
    + apply (genTypeDefn_R extends);
        first [apply genTypeExpr_extends | apply extends_trans
              | apply extends_errorf | intros; by apply extends_eq].
  - intros d. split.
    + apply (genFuncDecl_R silent);
        first [apply silent_type | apply silent_trans | by intros].
    + apply genFuncDecl_extends.
Qed.

Lemma writeFuncDefns_newline decls c c' :
  writeFuncDefns decls c = Some c' ->
  lastByte (output c) = Some (ascii_of_nat 10) ->
  lastByte (output c') = Some (ascii_of_nat 10).
Proof.
  revert c. induction decls as [|d r IH]; intros c E Hc; simpl in E.
  - by injection E as <-.
  - destruct (declBody d) as [body|]; [|by eapply IH].
    destruct (genFuncDecl d (write newline c)) as [s c1].
    destruct (writeBlockStmt writeStmt body _) as [c2|];
      cbn [mbind option_bind] in E; [|discriminate].
    apply (IH _ E). by rewrite lastByte_write.
Qed.

(** X21.  The output of a run that ends is a text whose last character is
    a newline. *)
Theorem output_ends_with_newline files c :
  compile (Resolved files) = Some c ->
  lastByte (output c) = Some (ascii_of_nat 10).
Proof.
  unfold compile. intros E.
  destruct (collectFromFuncs _ _ _ _) as [[collected typeSpecs]|];
    cbn [mbind option_bind] in E; [|discriminate].
  apply (writeFuncDefns_newline _ _ _ E). by rewrite lastByte_write.
Qed.

End Rendering.

(** * The properties on the example programs *)




Lemma genTypeExpr_spelling_witness :
  genTypeExprs newCompiler !! addrOf (Pointer 6 intT) = None /\
  (genTypeExpr (Pointer 6 intT) 101 newCompiler).1
  = (genTypeExpr intT 101 newCompiler).1 +:+ "*".
Proof.
  split; [reflexivity|].
  exact (genTypeExpr_spelling (Pointer 6 intT) 101 newCompiler eq_refl).
Defined.



Lemma main_all_or_nothing_witness :
  compile (exampleFrontend "ok") = Some compiledOK /\
  main exampleFrontend ["gx"; "ok"; "out.cc"]
  = (if errored compiledOK then Printed (errors compiledOK +:+ newline)
     else Written "out.cc" (output compiledOK)).
Proof.
  assert (compile (exampleFrontend "ok") = Some compiledOK) as E
    by (vm_compute; reflexivity).
  split; [exact E|].
  exact (proj1 (main_all_or_nothing exampleFrontend "gx" "ok" "out.cc"
                  compiledOK E)).
Defined.

Lemma oversized_parameter_rejected_witness :
  exampleFrontend "big" = Resolved progBig /\
  NoDup (map declAddr (funcDecls progBig)) /\
  declSum ∈ funcDecls progBig /\
  (Recv (declSig declSum) = Some paramB \/ paramB ∈ Params (declSig declSum)) /\
  96 < sizeOf (varType paramB) /\
  forall path content,
    main exampleFrontend ["gx"; "big"; "out.cc"] <> Written path content.
Proof.
  assert (NoDup (map declAddr (funcDecls progBig))) as Hnd
    by apply NoDup_singleton.
  assert (declSum ∈ funcDecls progBig) as Hin by constructor.
  assert (Recv (declSig declSum) = Some paramB \/
          paramB ∈ Params (declSig declSum)) as Hp by (right; constructor).
  assert (96 < sizeOf (varType paramB)) as Hsz by reflexivity.
  repeat (split; [done|]).
  exact (proj2 (oversized_parameter_rejected exampleFrontend "gx" "big"
                  "out.cc" progBig declSum paramB eq_refl Hnd Hin Hp Hsz)).
Defined.

Lemma genFuncDecl_result_witness :
  genFuncDecls newCompiler !! declAddr declMain = None /\
  Results (declSig declMain) = [] /\
  (genFuncDecl declMain newCompiler).1 = "int main()".
Proof.
  split; [reflexivity|]. split; [reflexivity|].
  exact (proj1 (genFuncDecl_result declMain newCompiler eq_refl) eq_refl).
Defined.

Lemma rejection_reported_once_witness :
  exampleFrontend "two" = Resolved progTwo /\
  NoDup (map declAddr (funcDecls progTwo)) /\
  forall path content,
    main exampleFrontend ["gx"; "two"; "out.cc"] <> Written path content.
Proof.
  assert (NoDup (map declAddr (funcDecls progTwo))) as Hnd
    by apply NoDup_singleton.
  repeat (split; [done|]).
  refine (proj2 (proj1 (rejection_reported_once exampleFrontend "gx" "two"
                          "out.cc" progTwo eq_refl Hnd) declTwo _ _)).
  - constructor.
  - simpl. lia.
Defined.


Lemma computeFieldIndices_lookup_witness :
  NoDup [20%N; 21%N] /\
  (forall f0, head [20%N; 21%N] = Some f0 ->
              fieldIndices newCompiler !! f0 = None) /\
  fieldIndices (computeFieldIndices [20%N; 21%N] newCompiler) !! 21%N
  = Some 1.
Proof.
  assert (NoDup [20%N; 21%N]) as Hnd.
  { apply NoDup_cons. split; [|apply NoDup_singleton].
    intros Hin. apply list_elem_of_singleton in Hin. discriminate Hin. }
  assert (forall f0, head [20%N; 21%N] = Some f0 ->
                     fieldIndices newCompiler !! f0 = None) as Hf
    by (intros f0 _; reflexivity).
  split; [exact Hnd|]. split; [exact Hf|].
  exact (proj1 (computeFieldIndices_lookup [20%N; 21%N] newCompiler Hnd Hf)
           1%nat 21%N eq_refl).
Defined.

Lemma checkFieldOrder_spec_witness :
  keyIndices (fieldIndices (computeFieldIndices [20%N; 21%N] newCompiler))
    [keyY 619 "2"; keyX 613 "1"] = Some [1; 0] /\
  checkFieldOrder 607 [keyY 619 "2"; keyX 613 "1"] 0
    (computeFieldIndices [20%N; 21%N] newCompiler)
  = Some (errorf 607 "struct literal fields must appear in definition order"
            (computeFieldIndices [20%N; 21%N] newCompiler)).
Proof.
  split; [vm_compute; reflexivity|].
  exact (checkFieldOrder_spec 607 [keyY 619 "2"; keyX 613 "1"] 0
           (computeFieldIndices [20%N; 21%N] newCompiler) [1; 0] eq_refl).
Defined.

Lemma keyed_literal_out_of_order_witness :
  TypeOf (exprTV swappedLit) = Some pointT /\
  Underlying pointT = Struct 11 [20%N; 21%N] /\
  NoDup [20%N; 21%N] /\
  keyPositions [20%N; 21%N] [keyY 2513 "2"; keyX 2519 "1"]
  = Some [1%nat; 0%nat] /\
  writeExpr swappedLit newCompiler = Some loweredSwapped /\
  exists pre post,
    errors loweredSwapped
    = errors newCompiler +:+ pre
        +:+ diagnostic 2507
              "struct literal fields must appear in definition order"
        +:+ post.
Proof.
  assert (NoDup [20%N; 21%N]) as Hnd.
  { apply NoDup_cons. split; [|apply NoDup_singleton].
    intros Hin. apply list_elem_of_singleton in Hin. discriminate Hin. }
  assert (writeExpr swappedLit newCompiler = Some loweredSwapped) as E
    by (vm_compute; reflexivity).
  split; [reflexivity|]. split; [reflexivity|]. split; [exact Hnd|].
  split; [reflexivity|]. split; [exact E|].
  exact (keyed_literal_out_of_order (valueTV pointT) (pointTypeExpr 2507) 2512
           [keyY 2513 "2"; keyX 2519 "1"] pointT pointT 11 [20%N; 21%N]
           [1%nat; 0%nat] newCompiler loweredSwapped eq_refl eq_refl eq_refl
           Hnd (fun f _ => eq_refl) eq_refl eq_refl E).
Defined.

Lemma unsupported_construct_rejected_witness :
  exampleFrontend2 "bad" = Resolved progBad /\
  declBad ∈ funcDecls progBad /\
  rtc lowers (NS (BlockStmt (default [] (declBody declBad))))
    (NE addressOfLit) /\
  unsupportedNode (NE addressOfLit) /\
  forall path content,
    main exampleFrontend2 ["gx"; "bad"; "out.cc"] <> Written path content.
Proof.
  assert (declBad ∈ funcDecls progBad) as Hin by constructor.
  assert (rtc lowers (NS (BlockStmt (default [] (declBody declBad))))
            (NE addressOfLit)) as Hn.
  { eapply rtc_l; [apply lowers_block; left|].
    eapply rtc_l; [apply lowers_assign_rhs|]. apply rtc_refl. }
  assert (unsupportedNode (NE addressOfLit)) as Hun
    by (apply un_address; reflexivity).
  repeat (split; [done|]).
  exact (unsupported_construct_rejected exampleFrontend2 "gx" "bad" "out.cc"
           progBad declBad _ (NE addressOfLit) eq_refl Hin eq_refl Hn Hun).
Defined.

Lemma main_usage_witness :
  length ["gx"; "src"] <> 3%nat /\
  main exampleFrontend ["gx"; "src"]
  = Printed ("usage: gx <input_directory> <output_file>" +:+ newline).
Proof.
  assert (length ["gx"; "src"] <> 3%nat) as Hl by (simpl; lia).
  split; [exact Hl|]. exact (main_usage exampleFrontend ["gx"; "src"] Hl).
Defined.


Lemma by_value_parameter_rejected_witness :
  exampleFrontend2 "take" = Resolved progTake /\
  NoDup (map declAddr (funcDecls progTake)) /\
  declTake ∈ funcDecls progTake /\
  paramS ∈ Params (declSig declTake) /\
  byValueKind (Underlying (varType paramS)) = Some "slice" /\
  forall path content,
    main exampleFrontend2 ["gx"; "take"; "out.cc"] <> Written path content.
Proof.
  assert (NoDup (map declAddr (funcDecls progTake))) as Hnd
    by apply NoDup_singleton.
  assert (declTake ∈ funcDecls progTake) as Hin by constructor.
  assert (paramS ∈ Params (declSig declTake)) as Hp by constructor.
  repeat (split; [done|]).
  exact (proj2 (by_value_parameter_rejected exampleFrontend2 "gx" "take"
                  "out.cc" progTake declTake paramS "slice" eq_refl Hnd Hin
                  (or_intror Hp) eq_refl)).
Defined.

Lemma only_structs_defined_witness :
  (forall fields, specType specCount <> StructType fields) /\
  output (writeTypeDefns [specCount] newCompiler) = "".
Proof.
  assert (forall fields, specType specCount <> StructType fields) as Hs
    by (intros fields; discriminate).
  split; [exact Hs|].
  exact (f_equal output
           (proj1 (only_structs_defined specCount newCompiler Hs) eq_refl)).
Defined.

Lemma parameter_accepted_witness :
  byValueKind (Underlying (varType paramT)) = None /\
  Sizeof (varType paramT) = None /\
  addParam paramT newCompiler
  = ((genTypeExpr (varType paramT) (varPos paramT) newCompiler).1 +:+ "t",
     (genTypeExpr (varType paramT) (varPos paramT) newCompiler).2).
Proof.
  split; [reflexivity|]. split; [reflexivity|].
  exact (parameter_accepted paramT newCompiler eq_refl I).
Defined.

Lemma genTypeExpr_names_witness :
  genTypeExprs newCompiler !! addrOf pointT = None /\
  (genTypeExpr pointT 101 newCompiler).1 = "Point ".
Proof.
  split; [reflexivity|].
  exact (proj1 (genTypeExpr_names pointT 101 newCompiler eq_refl)).
Defined.

Lemma statement_terminator_witness :
  atBlockEnd newCompiler = false /\
  writeStmt loopStmt newCompiler = Some loweredLoop /\
  atBlockEnd loweredLoop = true.
Proof.
  assert (writeStmt loopStmt newCompiler = Some loweredLoop) as E
    by (vm_compute; reflexivity).
  split; [reflexivity|]. split; [exact E|].
  exact (proj1 (statement_terminator loopStmt [] newCompiler loweredLoop
                  eq_refl E)).
Defined.


Lemma crash_only_in_body_witness :
  compile (Resolved progElided) = None /\
  exists d body c,
    d ∈ funcDecls progElided /\ declBody d = Some body /\
    writeStmt (BlockStmt body) c = None.
Proof.
  assert (compile (Resolved progElided) = None) as E
    by (vm_compute; reflexivity).
  split; [exact E|]. exact (crash_only_in_body progElided E).
Defined.


Lemma output_ends_with_newline_witness :
  compile (Resolved progOK) = Some compiledOK /\
  lastByte (output compiledOK) = Some (ascii_of_nat 10).
Proof.
  assert (compile (Resolved progOK) = Some compiledOK) as E
    by (vm_compute; reflexivity).
  split; [exact E|]. exact (output_ends_with_newline progOK compiledOK E).
Defined.

Lemma write_indents_witness :
  "{" +:+ newline <> "" /\
  output (write "x" (write ("{" +:+ newline) (set_indent 1 newCompiler)))
  = "{" +:+ newline +:+ "  x".
Proof.
  assert ("{" +:+ newline <> "") as Hs by discriminate.
  split; [exact Hs|].
  exact (write_indents ("{" +:+ newline) "x" (set_indent 1 newCompiler) Hs).
Defined.

Lemma lowering_keeps_indent_witness :
  writeNode (NS loopStmt) newCompiler = Some loweredLoop /\
  indent loweredLoop = indent newCompiler.
Proof.
  assert (writeNode (NS loopStmt) newCompiler = Some loweredLoop) as E
    by (vm_compute; reflexivity).
  split; [exact E|].
  exact (lowering_keeps_indent (NS loopStmt) newCompiler loweredLoop E).
Defined.

Lemma lowering_appends_witness :
  writeNode (NE swappedLit) newCompiler = Some loweredSwapped /\
  extends newCompiler loweredSwapped /\
  appendsOutput newCompiler loweredSwapped.
Proof.
  assert (writeNode (NE swappedLit) newCompiler = Some loweredSwapped) as E
    by (vm_compute; reflexivity).
  split; [exact E|].
  exact (lowering_appends (NE swappedLit) newCompiler loweredSwapped E).
Defined.

Lemma compile_prologue_witness :
  compile (Resolved progOK) = Some compiledOK /\
  indent compiledOK = 0.
Proof.
  assert (compile (Resolved progOK) = Some compiledOK) as E
    by (vm_compute; reflexivity).
  split; [exact E|]. exact (proj2 (compile_prologue progOK compiledOK E)).
Defined.
